(** * tulsa-tee-times: the aggregation server ([src/server/index.js])

    A shallow embedding of the Express server that aggregates tee times
    from the upstream booking service, and the properties of it that the
    specification states.

    Modelling conventions.
    - JavaScript strings are [string]s whose characters stand for code
      units 0..255; the white space of [trim] and of the regular
      expression class [\s] is the ECMAScript set restricted to that range.
    - A JSON number is carried as its canonical rendering
      ([Number::toString]): the server never computes with the numbers of
      an upstream reply, it tests their truthiness, copies them and renders
      them.  Integers that the server itself produces ([parseInt]) are [Z],
      exact (the model does not round to doubles).
    - [async]/[await] is sequential composition in a state monad with
      JavaScript exceptions; [Promise.all] over the mapped course keys runs
      the fetches one after the other in request order (the positions of
      the results are those of [Promise.all]; the interleaving of the
      awaits of different fetches is not modelled).
    - The world carries what the process cannot decide: the clock, the
      replies of the upstream (one per outbound call, with the time the
      call took) and the host's [String.prototype.localeCompare].
    - [console.error] output is not part of the model. *)

From Stdlib Require Import ZArith Ascii List Lia Sorted Permutation.
From stdpp Require Import base gmap strings list pretty sorting.

Open Scope Z_scope.

(** ** Strings *)

Module Str.

(** ECMAScript [WhiteSpace] and [LineTerminator] code units below 256:
    TAB, LF, VT, FF, CR, SP, NBSP. *)
Definition is_space (c : ascii) : bool :=
  match nat_of_ascii c with
  | 9%nat | 10%nat | 11%nat | 12%nat | 13%nat | 32%nat | 160%nat => true
  | _ => false
  end.

Definition is_digit (c : ascii) : bool :=
  let n := nat_of_ascii c in (48 <=? n)%nat && (n <=? 57)%nat.

Definition digit_val (c : ascii) : Z := Z.of_nat (nat_of_ascii c) - 48.

Fixpoint trimStart (s : string) : string :=
  match s with
  | String c s' => if is_space c then trimStart s' else s
  | EmptyString => EmptyString
  end.

Fixpoint trimEnd (s : string) : string :=
  match s with
  | EmptyString => EmptyString
  | String c s' =>
      match trimEnd s' with
      | EmptyString => if is_space c then EmptyString else String c EmptyString
      | t => String c t
      end
  end.

(** [String.prototype.trim] *)
Definition trim (s : string) : string := trimEnd (trimStart s).

(** [String.prototype.split] with a one-character separator. *)
Fixpoint split (sep : ascii) (s : string) : list string :=
  match s with
  | EmptyString => [EmptyString]
  | String c s' =>
      if Ascii.eqb c sep then EmptyString :: split sep s'
      else match split sep s' with
           | h :: t => String c h :: t
           | [] => [String c EmptyString]
           end
  end.

(** [Array.prototype.join] *)
Fixpoint join (sep : string) (l : list string) : string :=
  match l with
  | [] => EmptyString
  | [x] => x
  | x :: l' => x +:+ sep +:+ join sep l'
  end.

(** Code-unit order, as a three-way comparison. *)
Definition lex_compare (a b : string) : Z :=
  match String.compare a b with Lt => -1 | Eq => 0 | Gt => 1 end.

End Str.

(** ** JavaScript values *)

#[warnings="-register-all"]
Inductive Json : Type :=
| JNull
| JBool (b : bool)
| JNum (repr : string)
| JStr (s : string)
| JArr (items : list Json)
| JObj (fields : list (string * Json)).

(** A JavaScript value that is [undefined] or a JSON value. *)
Definition JsVal : Type := option Json.

Definition truthy (v : JsVal) : bool :=
  match v with
  | None | Some JNull => false
  | Some (JBool b) => b
  | Some (JNum r) => negb (String.eqb r "0")
  | Some (JStr s) => negb (String.eqb s "")
  | Some (JArr _) | Some (JObj _) => true
  end.

Fixpoint assoc {A : Type} (k : string) (l : list (string * A)) : option A :=
  match l with
  | [] => None
  | (k', v) :: l' => if String.eqb k k' then Some v else assoc k l'
  end.

(** [ToString] on JSON values. *)
Fixpoint ToString (v : Json) : string :=
  match v with
  | JNull => "null"
  | JBool true => "true"
  | JBool false => "false"
  | JNum r => r
  | JStr s => s
  | JArr l =>
      Str.join ","
        (map (fun x => match x with JNull => "" | _ => ToString x end) l)
  | JObj _ => "[object Object]"
  end.

Inductive JsError : Type :=
| TypeError (msg : string)
| AxiosError (msg : string).

Inductive Res (A : Type) : Type :=
| Ok (a : A)
| Throw (e : JsError).
Arguments Ok {A} a.
Arguments Throw {A} e.

Definition res_bind {A B : Type} (r : Res A) (k : A -> Res B) : Res B :=
  match r with Ok a => k a | Throw e => Throw e end.

Fixpoint res_mapM {A B : Type} (f : A -> Res B) (l : list A) : Res (list B) :=
  match l with
  | [] => Ok []
  | x :: l' =>
      res_bind (f x) (fun y => res_bind (res_mapM f l') (fun ys => Ok (y :: ys)))
  end.

(** [parseInt(s)] without a radix: leading white space, a sign, an optional
    [0x] prefix, then the longest run of digits of the radix.  [None] is
    [NaN]. *)
Module ParseInt.

Definition hex_val (c : ascii) : option Z :=
  let n := nat_of_ascii c in
  if Str.is_digit c then Some (Str.digit_val c)
  else if (97 <=? n)%nat && (n <=? 102)%nat then Some (Z.of_nat n - 87)
  else if (65 <=? n)%nat && (n <=? 70)%nat then Some (Z.of_nat n - 55)
  else None.

Definition dec_val (c : ascii) : option Z :=
  if Str.is_digit c then Some (Str.digit_val c) else None.

Fixpoint digits (radix : Z) (val : ascii -> option Z) (s : string)
    (acc : option Z) : option Z :=
  match s with
  | EmptyString => acc
  | String c s' =>
      match val c with
      | Some d => digits radix val s' (Some (radix * default 0 acc + d))
      | None => acc
      end
  end.

Definition unsigned (s : string) : option Z :=
  match s with
  | String c1 (String c2 s') =>
      if Ascii.eqb c1 "0" && (Ascii.eqb c2 "x" || Ascii.eqb c2 "X") then
        digits 16 hex_val s' None
      else digits 10 dec_val s None
  | _ => digits 10 dec_val s None
  end.

Definition parseInt (s : string) : option Z :=
  match Str.trimStart s with
  | String c s' =>
      if Ascii.eqb c "-" then Z.opp <$> unsigned s'
      else if Ascii.eqb c "+" then unsigned s'
      else unsigned (String c s')
  | EmptyString => None
  end.

End ParseInt.
Export ParseInt(parseInt).

(** ** Regular expressions

    The fragment of ECMAScript regular expressions that the server's two
    patterns use: literal characters, a greedy starred class and one
    capturing group holding a greedy class repeated at least once.
    Matching backtracks as the ECMAScript matcher does; [search] is the
    unanchored, non-global [String.prototype.match], which reports the
    leftmost match. *)

Module Regex.

Inductive Atom : Type :=
| Lit (c : ascii)
| Star (cls : ascii -> bool)
| Group (cls : ascii -> bool).

Definition unrev (acc : list ascii) : string :=
  String.string_of_list_ascii (rev acc).

(** [exec r s cap]: match [r] at the start of [s]; the result is the
    text of the capturing group. *)
Fixpoint exec (r : list Atom) : string -> option string -> option (option string) :=
  match r with
  | [] => fun _ cap => Some cap
  | Lit c :: r' => fun s cap =>
      match s with
      | String c' s' => if Ascii.eqb c c' then exec r' s' cap else None
      | EmptyString => None
      end
  | Star cls :: r' =>
      fix star (s : string) (cap : option string) : option (option string) :=
        match s with
        | String c s' =>
            if cls c then
              match star s' cap with
              | Some m => Some m
              | None => exec r' s cap
              end
            else exec r' s cap
        | EmptyString => exec r' s cap
        end
  | Group cls :: r' => fun s _ =>
      match s with
      | String c s' =>
          if cls c then
            (fix more (acc : list ascii) (s : string) : option (option string) :=
               match s with
               | String c s' =>
                   if cls c then
                     match more (c :: acc) s' with
                     | Some m => Some m
                     | None => exec r' s (Some (unrev acc))
                     end
                   else exec r' s (Some (unrev acc))
               | EmptyString => exec r' s (Some (unrev acc))
               end) [c] s'
          else None
      | EmptyString => None
      end
  end.

Fixpoint search (r : list Atom) (s : string) : option (option string) :=
  match exec r s None with
  | Some m => Some m
  | None =>
      match s with
      | String _ s' => search r s'
      | EmptyString => None
      end
  end.

Fixpoint lits (s : string) : list Atom :=
  match s with
  | EmptyString => []
  | String c s' => Lit c :: lits s'
  end.

Definition dquote : ascii := "034"%char.
Definition quoted (s : string) : list Atom :=
  Lit dquote :: lits s ++ [Lit dquote].

(** [/"schedule_id"\s*:\s*(\d+)/] *)
Definition re_schedule_id : list Atom :=
  quoted "schedule_id"
    ++ [Star Str.is_space; Lit ":"; Star Str.is_space; Group Str.is_digit].

(** [/"id"\s*:\s*(\d+)\s*,\s*"facility_id"/] *)
Definition re_id_facility : list Atom :=
  quoted "id"
    ++ [Star Str.is_space; Lit ":"; Star Str.is_space; Group Str.is_digit;
        Star Str.is_space; Lit ","; Star Str.is_space]
    ++ quoted "facility_id".

End Regex.

(** ** Data model *)

(** A normalised tee time, as built by the slot mapping of
    [fetchTeeTimes]. *)
Record TeeTime : Type := mkTeeTime {
  course : string;
  courseKey : string;
  scheduleLabel : string;
  time : JsVal;
  available_spots : JsVal;
  green_fee : JsVal;
  cart_fee : JsVal;
  players : JsVal;
  holes : JsVal;
  bookingUrl : string
}.

(** An entry of [COURSES]; [id] is [None] when the schedule carries no id. *)
Record Schedule : Type := mkSchedule {
  id : option Z;
  label : string
}.

Record Course : Type := mkCourse {
  name : string;
  courseId : Z;
  schedules : list Schedule;
  c_bookingUrl : string
}.

Definition COURSES : list (string * Course) :=
  [ ("lafortune",
     mkCourse "LaFortune Park" 20922
       [mkSchedule (Some 6194) "Championship (18 holes)"]
       "https://foreupsoftware.com/index.php/booking/20922/6194#teetimes");
    ("battlecreek",
     mkCourse "Battle Creek" 22756
       [mkSchedule (Some 11838) "Battle Creek"]
       "https://foreupsoftware.com/index.php/booking/index/22756#teetimes");
    ("stonecreek",
     mkCourse "Page Belcher - Stone Creek" 22842
       [mkSchedule (Some 12128) "Stone Creek"]
       "https://foreupsoftware.com/index.php/booking/22842/12128#/teetimes");
    ("oldepage",
     mkCourse "Page Belcher - Olde Page" 22842
       [mkSchedule (Some 12126) "Olde Page"]
       "https://foreupsoftware.com/index.php/booking/22842/12126#/teetimes");
    ("cherokeehills",
     mkCourse "Cherokee Hills" 21188
       [mkSchedule (Some 7193) "Cherokee Hills"]
       "https://foreupsoftware.com/index.php/booking/21188/7193#/teetimes");
    ("southlakes",
     mkCourse "South Lakes" 20923
       [mkSchedule (Some 6195) "South Lakes"]
       "https://foreupsoftware.com/index.php/booking/20923/6195#/teetimes") ].

(** What the cache holds: a schedule id or a list of tee times. *)
Inductive CacheVal : Type :=
| CNum (n : Z)
| CArr (l : list TeeTime).

(** A node-cache entry: the value and the instant [t] (milliseconds) after
    which it is expired; [t = 0] never expires. *)
Record CacheEntry : Type := mkEntry {
  v : CacheVal;
  t : Z
}.

(** A query-string value as Express hands it over: a string, or an array
    or nested object, carried with its [String()] coercion. *)
Inductive QVal : Type :=
| QStr (s : string)
| QOther (coerced : string).

Definition qstr (q : QVal) : string :=
  match q with QStr s => s | QOther c => c end.

Definition q_truthy (q : option QVal) : bool :=
  match q with
  | None => false
  | Some (QStr s) => negb (String.eqb s "")
  | Some (QOther _) => true
  end.

(** The two outbound calls, with the parts that vary.  [ReqDiscover] is
    the GET of [booking/index/<courseId>] with the [User-Agent] header;
    [ReqTimes] is the GET of [API_BASE/times] with [time=all], [holes=18],
    [booking_class=default], [specials_only=0], [api_key=no_limits], the
    fixed headers and a 15 s timeout. *)
Inductive Request : Type :=
| ReqDiscover (courseId : Z)
| ReqTimes (date : QVal) (players : option Z) (schedule_id : CacheVal)
    (referer : string).

Inductive HttpResult : Type :=
| HttpOk (data : Json)
| HttpFail (msg : string).

Record Reply : Type := mkReply {
  result : HttpResult;
  elapsed : N
}.

Record Call : Type := mkCall {
  c_req : Request;
  c_at : Z;
  c_reply : Reply
}.

Record World : Type := mkWorld {
  registry : list (string * Course);
  cache : gmap string CacheEntry;
  now : Z;
  calls : list Call;
  upstream : nat -> Request -> Reply;
  localeCompare : string -> string -> Z
}.

Definition set_cache (c : gmap string CacheEntry) (w : World) : World :=
  mkWorld (registry w) c (now w) (calls w) (upstream w) (localeCompare w).

Definition set_registry (r : list (string * Course)) (w : World) : World :=
  mkWorld r (cache w) (now w) (calls w) (upstream w) (localeCompare w).

(** The clock moves on by [dt] milliseconds between two requests. *)
Definition tick (dt : N) (w : World) : World :=
  mkWorld (registry w) (cache w) (now w + Z.of_N dt) (calls w) (upstream w)
    (localeCompare w).

(** ** The monad of the server: state and JavaScript exceptions *)

Definition M (A : Type) : Type := World -> Res A * World.

Definition ret {A : Type} (a : A) : M A := fun w => (Ok a, w).

Definition throw {A : Type} (e : JsError) : M A := fun w => (Throw e, w).

Definition lift {A : Type} (r : Res A) : M A := fun w => (r, w).

Definition bind {A B : Type} (m : M A) (k : A -> M B) : M B :=
  fun w =>
    match m w with
    | (Ok a, w') => k a w'
    | (Throw e, w') => (Throw e, w')
    end.

(** [try { m } catch (e) { h e }] *)
Definition try_catch {A : Type} (m : M A) (h : JsError -> M A) : M A :=
  fun w =>
    match m w with
    | (Ok a, w') => (Ok a, w')
    | (Throw e, w') => h e w'
    end.

Notation "'let*' x := c1 'in' c2" := (bind c1 (fun x => c2))
  (at level 10, x name, c1 at level 100, c2 at level 200, only parsing).

(** ** node-cache *)

Module NodeCache.

Definition stdTTL : Z := 300.

(** [_check]: an entry is dead once its instant lies strictly in the past. *)
Definition expired (e : CacheEntry) (now : Z) : bool :=
  negb (t e =? 0) && (t e <? now).

(** [_wrap]: the instant of expiry of an entry stored at [now]. *)
Definition livetime (ttl now : Z) : Z :=
  if ttl =? 0 then 0 else now + ttl * 1000.

(** [cache.get(key)]: the value of a live entry; an expired entry is
    deleted and [undefined] returned. *)
Definition get (key : string) : M (option CacheVal) :=
  fun w =>
    match cache w !! key with
    | Some e =>
        if expired e (now w) then (Ok None, set_cache (delete key (cache w)) w)
        else (Ok (Some (v e)), w)
    | None => (Ok None, w)
    end.

(** [cache.set(key, value, ttl)] *)
Definition set (key : string) (val : CacheVal) (ttl : Z) : M unit :=
  fun w =>
    (Ok tt, set_cache (<[key := mkEntry val (livetime ttl (now w))]> (cache w)) w).

End NodeCache.

(** ** axios *)

(** The world once the call [req] has returned: the call is logged with
    the instant it was issued and the clock has moved on by the time the
    call took. *)
Definition after_call (req : Request) (w : World) : World :=
  let r := upstream w (length (calls w)) req in
  mkWorld (registry w) (cache w) (now w + Z.of_N (elapsed r))
    (calls w ++ [mkCall req (now w) r]) (upstream w) (localeCompare w).

(** [axios.get]: a failed call throws. *)
Definition axios_get (req : Request) : M Json :=
  fun w =>
    match result (upstream w (length (calls w)) req) with
    | HttpOk d => (Ok d, after_call req w)
    | HttpFail m => (Throw (AxiosError m), after_call req w)
    end.

(** ** discoverScheduleId *)

(** [html.match(re)]: only a string has a [match] method. *)
Definition String_match (re : list Regex.Atom) (html : Json)
    : Res (option (option string)) :=
  match html with
  | JStr s => Ok (Regex.search re s)
  | _ => Throw (TypeError "html.match is not a function")
  end.

(** [parseInt(m[1])] for a match [m]. *)
Definition parse_group (m : option string) : option Z :=
  parseInt (default "undefined" m).

(** The body of the [try] block after the page has arrived.  [None] is the
    final [return null]; a [NaN] from [parseInt] is [None] as well: both
    are falsy, which is all the caller looks at (and [parseInt] yields no
    [NaN] on a captured run of digits, see [parseInt_digits]). *)
Definition discover_parse (html : Json) : Res (option Z) :=
  res_bind (String_match Regex.re_schedule_id html) (fun filterMatch =>
    match filterMatch with
    | Some m => Ok (parse_group m)
    | None =>
        res_bind (String_match Regex.re_id_facility html) (fun schedMatch =>
          match schedMatch with
          | Some m => Ok (parse_group m)
          | None => Ok None
          end)
    end).

Definition discoverScheduleId (courseId : Z) : M (option Z) :=
  try_catch
    (let* html := axios_get (ReqDiscover courseId) in lift (discover_parse html))
    (fun _ => ret None).

(** ** fetchTeeTimes *)

(** The own properties of [Object.prototype], which every object literal
    inherits. *)
Definition Object_prototype_keys : list string :=
  [ "constructor"; "__defineGetter__"; "__defineSetter__"; "hasOwnProperty";
    "__lookupGetter__"; "__lookupSetter__"; "isPrototypeOf";
    "propertyIsEnumerable"; "toString"; "valueOf"; "__proto__";
    "toLocaleString" ].

(** The value of [COURSES[courseKey]]: an own entry, a member inherited
    from [Object.prototype] (a function or an object: truthy, and without a
    [schedules] property), or [undefined]. *)
Inductive Property : Type :=
| Own (c : Course)
| Inherited
| Undefined.

Definition get_course (reg : list (string * Course)) (key : string) : Property :=
  match assoc key reg with
  | Some c => Own c
  | None =>
      if bool_decide (key ∈ Object_prototype_keys) then Inherited else Undefined
  end.

(** [Object.keys(COURSES)] (no key of the registry is an array index, so
    this is the order of insertion). *)
Definition Object_keys (reg : list (string * Course)) : list string :=
  map fst reg.

Definition sid_truthy (sid : option CacheVal) : bool :=
  match sid with
  | None => false
  | Some (CNum n) => negb (n =? 0)
  | Some (CArr _) => true
  end.

Definition sid_string (sid : CacheVal) : string :=
  match sid with
  | CNum n => pretty n
  | CArr l => Str.join "," (map (fun _ => "[object Object]") l)
  end.

Definition num_string (n : option Z) : string :=
  match n with
  | Some z => pretty z
  | None => "NaN"
  end.

(** [`schedule_${course.courseId}`] *)
Definition schedule_key (courseId : Z) : string :=
  "schedule_" +:+ pretty courseId.

(** [`times_${courseKey}_${scheduleId}_${date}_${players}`] *)
Definition times_key (courseKey : string) (sid : CacheVal) (date : QVal)
    (players : option Z) : string :=
  "times_" +:+ courseKey +:+ "_" +:+ sid_string sid +:+ "_" +:+ qstr date
    +:+ "_" +:+ num_string players.

(** [slot.<field>] for the six fields the mapping reads: none of them is a
    property of a prototype, so only an object can have one; reading a
    property of [null] throws. *)
Definition slot_field (slot : Json) (field : string) : Res JsVal :=
  match slot with
  | JNull => Throw (TypeError "Cannot read properties of null")
  | JObj fields => Ok (assoc field fields)
  | _ => Ok None
  end.

(** The arrow function of the slot mapping. *)
Definition normalize (c : Course) (courseKey : string) (sch : Schedule)
    (slot : Json) : Res TeeTime :=
  res_bind (slot_field slot "time") (fun time =>
  res_bind (slot_field slot "available_spots") (fun available_spots =>
  res_bind (slot_field slot "green_fee") (fun green_fee =>
  res_bind (slot_field slot "cart_fee") (fun cart_fee =>
  res_bind (slot_field slot "players") (fun players =>
  res_bind (slot_field slot "holes") (fun holes =>
    Ok (mkTeeTime (name c) courseKey (label sch) time available_spots
          green_fee cart_fee
          (if truthy players then players else Some (JArr []))
          holes (c_bookingUrl c)))))))).

(** [(Array.isArray(resp.data) ? resp.data : []).map(...)] *)
Definition normalize_all (c : Course) (courseKey : string) (sch : Schedule)
    (data : Json) : Res (list TeeTime) :=
  res_mapM (normalize c courseKey sch)
    (match data with JArr slots => slots | _ => [] end).

Definition set_id (n : Z) (sch : Schedule) : Schedule :=
  mkSchedule (Some n) (label sch).

Fixpoint update_course (key : string) (f : Course -> Course)
    (reg : list (string * Course)) : list (string * Course) :=
  match reg with
  | [] => []
  | (k, c) :: reg' =>
      if String.eqb key k then (k, f c) :: reg'
      else (k, c) :: update_course key f reg'
  end.

(** [schedule.id = scheduleId], for the [i]-th schedule of the course
    registered under [courseKey]. *)
Definition assign_schedule_id (courseKey : string) (i : nat) (n : Z) : M unit :=
  fun w =>
    (Ok tt,
     set_registry
       (update_course courseKey
          (fun c => mkCourse (name c) (courseId c)
                      (alter (set_id n) i (schedules c)) (c_bookingUrl c))
          (registry w)) w).

(** The discovery branch: the schedule id to use when the schedule has
    none. *)
Definition resolve_schedule_id (courseKey : string) (c : Course) (i : nat)
    : M (option CacheVal) :=
  let cacheKey := schedule_key (courseId c) in
  let* scheduleId := NodeCache.get cacheKey in
  if sid_truthy scheduleId then ret scheduleId
  else
    let* found := discoverScheduleId (courseId c) in
    match found with
    | Some n =>
        if negb (n =? 0) then
          let* _ := NodeCache.set cacheKey (CNum n) 86400 in
          let* _ := assign_schedule_id courseKey i n in
          ret (Some (CNum n))
        else ret (Some (CNum n))
    | None => ret None
    end.

(** The second half of an iteration, once the schedule id [sid] is at
    hand: the records of the times cache, or else those of the upstream,
    which are then cached; a failure inside the [try] adds nothing. *)
Definition cached_or_fetched (courseKey : string) (c : Course) (date : QVal)
    (players : option Z) (sch : Schedule) (sid : CacheVal)
    (results : list TeeTime) : M (list TeeTime) :=
  let cacheKey := times_key courseKey sid date players in
  let* cached := NodeCache.get cacheKey in
  if sid_truthy cached then
    match cached with
    | Some (CArr l) => ret (results ++ l)
    | _ => throw (TypeError "cached is not iterable")
    end
  else
    try_catch
      (let* data := axios_get (ReqTimes date players sid (c_bookingUrl c)) in
       let* times := lift (normalize_all c courseKey sch data) in
       let* _ := NodeCache.set cacheKey (CArr times) NodeCache.stdTTL in
       ret (results ++ times))
      (fun _ => ret results).

(** One iteration of the loop over [course.schedules]; [sch] is the
    [i]-th schedule as the iteration finds it (nothing else writes to it
    before), [results] the records gathered so far. *)
Definition fetch_schedule (courseKey : string) (c : Course) (date : QVal)
    (players : option Z) (i : nat) (sch : Schedule) (results : list TeeTime)
    : M (list TeeTime) :=
  let* scheduleId :=
    (if sid_truthy (CNum <$> id sch) then ret (CNum <$> id sch)
     else resolve_schedule_id courseKey c i) in
  match scheduleId with
  | Some sid =>
      if sid_truthy (Some sid) then
        cached_or_fetched courseKey c date players sch sid results
      else ret results
  | None => ret results
  end.

Fixpoint fetch_loop (courseKey : string) (c : Course) (date : QVal)
    (players : option Z) (i : nat) (scheds : list Schedule)
    (results : list TeeTime) : M (list TeeTime) :=
  match scheds with
  | [] => ret results
  | sch :: scheds' =>
      let* results' := fetch_schedule courseKey c date players i sch results in
      fetch_loop courseKey c date players (S i) scheds' results'
  end.

(** [fetchTeeTimes(courseKey, date, players)]; every caller passes
    [players], a number. *)
Definition fetchTeeTimes (courseKey : string) (date : QVal)
    (players : option Z) : M (list TeeTime) :=
  fun w =>
    match get_course (registry w) courseKey with
    | Undefined => ret [] w
    | Inherited => throw (TypeError "course.schedules is not iterable") w
    | Own c => fetch_loop courseKey c date players 0 (schedules c) [] w
    end.

(** ** Array.prototype.sort

    ECMAScript fixes the result of [sort] when the comparator is a
    consistent one: the stable sorted arrangement.  For other comparators
    the order is left to the engine.  The model is the insertion sort that
    engines run on short arrays: each element in turn is the pivot, moved
    left past the elements it compares below ([comparefn(pivot, element) <
    0]).  A comparator that throws ends the sort with its exception. *)

Module ArraySort.

Section Sort.
Context {A : Type} (comparefn : A -> A -> Res Z).

(** [insert pivot prefix]: [prefix] holds the elements already placed,
    last one first. *)
Fixpoint insert (pivot : A) (prefix : list A) : Res (list A) :=
  match prefix with
  | [] => Ok [pivot]
  | y :: prefix' =>
      res_bind (comparefn pivot y) (fun order =>
        if order <? 0 then
          res_bind (insert pivot prefix') (fun placed => Ok (y :: placed))
        else Ok (pivot :: prefix))
  end.

Fixpoint sort_from (prefix : list A) (rest : list A) : Res (list A) :=
  match rest with
  | [] => Ok (rev prefix)
  | pivot :: rest' =>
      res_bind (insert pivot prefix) (fun prefix' => sort_from prefix' rest')
  end.

Definition sort (l : list A) : Res (list A) := sort_from [] l.

End Sort.

End ArraySort.

(** ** GET /api/teetimes *)

Record Query : Type := mkQuery {
  q_date : option QVal;
  q_players : option QVal;
  q_courses : option QVal
}.

Inductive Body : Type :=
| ErrorBody (error : string)
| TeeTimesBody (date : QVal) (players : option Z) (count : nat)
    (teetimes : list TeeTime).

(** What the client gets: a response, or none when the handler's promise
    rejects. *)
Inductive Outcome : Type :=
| Response (status : Z) (body : Body)
| Unhandled (e : JsError).

(** [parseInt(players)], with the default [players = 2]. *)
Definition parse_players (players : option QVal) : option Z :=
  match players with
  | None => parseInt "2"
  | Some q => parseInt (qstr q)
  end.

(** [courses ? courses.split(',') : Object.keys(COURSES)] *)
Definition courseKeys (courses : option QVal) (reg : list (string * Course))
    : Res (list string) :=
  if q_truthy courses then
    match courses with
    | Some (QStr s) => Ok (Str.split "," s)
    | _ => Throw (TypeError "courses.split is not a function")
    end
  else Ok (Object_keys reg).

(** The comparator passed to [allTimes.sort]. *)
Definition compare_time (localeCompare : string -> string -> Z)
    (a b : TeeTime) : Res Z :=
  if negb (truthy (time a)) || negb (truthy (time b)) then Ok 0
  else
    match time a, time b with
    | Some (JStr s), Some that => Ok (localeCompare s (ToString that))
    | _, _ => Throw (TypeError "a.time.localeCompare is not a function")
    end.

(** The promises of [courseKeys.map(...)]: every fetch runs, whatever the
    others do. *)
Fixpoint run_all {A : Type} (ms : list (M A)) (w : World)
    : list (Res A) * World :=
  match ms with
  | [] => ([], w)
  | m :: ms' =>
      let '(r, w1) := m w in
      let '(rs, w2) := run_all ms' w1 in
      (r :: rs, w2)
  end.

(** [await Promise.all(promises)]: the results in order, or the exception
    of a rejected promise. *)
Fixpoint settle {A : Type} (rs : list (Res A)) : Res (list A) :=
  match rs with
  | [] => Ok []
  | r :: rs' =>
      res_bind r (fun a => res_bind (settle rs') (fun l => Ok (a :: l)))
  end.

Definition Promise_all {A : Type} (ms : list (M A)) : M (list A) :=
  fun w => let '(rs, w') := run_all ms w in (settle rs, w').

(** [Promise.all(courseKeys.map(...))] and [results.flat()]. *)
Definition gather (date : QVal) (players : option Z) (keys : list string)
    : M (list TeeTime) :=
  let* results :=
    Promise_all
      (map (fun key => fetchTeeTimes (Str.trim key) date players) keys) in
  ret (concat results).

(** The [try] block of the handler: fan out, flatten, sort, respond. *)
Definition aggregate (date : QVal) (players : option QVal) (keys : list string)
    : M Outcome :=
  let* allTimes := gather date (parse_players players) keys in
  fun w =>
    (let* sorted :=
       lift (ArraySort.sort (compare_time (localeCompare w)) allTimes) in
     ret (Response 200
            (TeeTimesBody date (parse_players players) (length sorted) sorted)))
      w.

Definition handler (req : Query) (w : World) : Outcome * World :=
  match q_date req with
  | Some date =>
      if q_truthy (q_date req) then
        match courseKeys (q_courses req) (registry w) with
        | Ok keys =>
            match aggregate date (q_players req) keys w with
            | (Ok out, w') => (out, w')
            | (Throw _, w') =>
                (Response 500 (ErrorBody "Failed to fetch tee times"), w')
            end
        | Throw e => (Unhandled e, w)
        end
      else (Response 400 (ErrorBody "date parameter required (MM-DD-YYYY)"), w)
  | None => (Response 400 (ErrorBody "date parameter required (MM-DD-YYYY)"), w)
  end.

(** The process at start-up: the registry as written, nothing cached,
    no call made. *)
Definition boot (clock : Z) (upstream : nat -> Request -> Reply)
    (localeCompare : string -> string -> Z) : World :=
  mkWorld COURSES ∅ clock [] upstream localeCompare.

(** ** Orders induced by a three-way comparison *)


(** ** Runs of the process *)

(** What happens to the process: time passes, or a request to
    [/api/teetimes] is served. *)
Inductive Event : Type :=
| Tick (dt : N)
| Get (q : Query).

Definition step (w : World) (e : Event) : World :=
  match e with
  | Tick dt => tick dt w
  | Get q => (handler q w).2
  end.

Definition run (es : list Event) (w : World) : World := foldl step w es.

(** A process started on the registry [reg]. *)
Definition start (reg : list (string * Course)) (clock : Z)
    (upstream : nat -> Request -> Reply)
    (localeCompare : string -> string -> Z) : World :=
  mkWorld reg ∅ clock [] upstream localeCompare.

(** [post m w Q]: the run of [m] from [w] ends in a result and a world
    that satisfy [Q]. *)
Definition post {A : Type} (m : M A) (w : World)
    (Q : Res A -> World -> Prop) : Prop :=
  Q (m w).1 (m w).2.

Definition teetimes_of (o : Outcome) : list TeeTime :=
  match o with
  | Response _ (TeeTimesBody _ _ _ ts) => ts
  | _ => []
  end.

Definition status_of (o : Outcome) : option Z :=
  match o with
  | Response s _ => Some s
  | Unhandled _ => None
  end.

Definition has_error_field (o : Outcome) : Prop :=
  match o with
  | Response _ (ErrorBody _) => True
  | _ => False
  end.

(** ** Ordering by time *)

(** The comparator answers 0 for a record whose [time] is falsy
    ([undefined], [null], the empty string, ...). *)
Definition untimed (r : TeeTime) : bool := negb (truthy (time r)).

(** A record that carries a time: a non-empty string. *)
Definition timed (r : TeeTime) : Prop :=
  exists s, time r = Some (JStr s) /\ s <> "".

Definition time_string (r : TeeTime) : string :=
  match time r with
  | Some j => ToString j
  | None => ""
  end.

Definition time_compare (lc : string -> string -> Z) (a b : TeeTime) : Z :=
  lc (time_string a) (time_string b).



Definition slot_at (tm : string) : Json := JObj [("time", JStr tm)].

(** An upstream whose every reply is three slots: 09:00, one without a
    time, 08:00. *)
Definition gap_upstream : nat -> Request -> Reply :=
  fun _ _ =>
    mkReply
      (HttpOk (JArr [slot_at "2025-06-15T09:00:00"; JObj [];
                     slot_at "2025-06-15T08:00:00"])) 0.


Definition gap_query : Query :=
  mkQuery (Some (QStr "06-15-2025")) (Some (QStr "2")) (Some (QStr "lafortune")).

(** The scenario of the specification: LaFortune has a slot at 08:00,
    Battle Creek one at 07:30. *)
Definition scenario_upstream : nat -> Request -> Reply :=
  fun _ req =>
    match req with
    | ReqTimes _ _ (CNum 6194) _ =>
        mkReply
          (HttpOk (JArr [JObj [("time", JStr "2025-06-15T08:00:00");
                               ("available_spots", JNum "4");
                               ("green_fee", JNum "45")]])) 120
    | ReqTimes _ _ (CNum 11838) _ =>
        mkReply
          (HttpOk (JArr [JObj [("time", JStr "2025-06-15T07:30:00");
                               ("available_spots", JNum "2");
                               ("green_fee", JNum "30")]])) 80
    | _ => mkReply (HttpFail "Network Error") 10
    end.

Definition scenario_world : World := boot 0 scenario_upstream Str.lex_compare.

Definition scenario_query : Query :=
  mkQuery (Some (QStr "06-15-2025")) (Some (QStr "2"))
    (Some (QStr "lafortune,battlecreek")).

(** ** How the registry may change *)

(** A schedule id is known when it is truthy. *)
Definition known (i : option Z) : bool := sid_truthy (CNum <$> i).

(** The call [cl] is a discovery that resolved to the id [n]. *)
Definition resolves (cl : Call) (n : Z) : Prop :=
  exists html, result (c_reply cl) = HttpOk html
    /\ discover_parse html = Ok (Some n) /\ n <> 0.

(** A schedule keeps its label, and keeps its id unless the id was unknown
    and is now the id that one of the calls [new] discovered for the
    facility [cid]. *)
Definition schedule_evolves (new : list Call) (cid : Z) (s s' : Schedule)
    : Prop :=
  label s' = label s
  /\ (id s' = id s
      \/ (known (id s) = false
          /\ exists n cl, id s' = Some n /\ known (Some n) = true /\ cl ∈ new
               /\ c_req cl = ReqDiscover cid /\ resolves cl n)).

Definition course_evolves (new : list Call) (c c' : Course) : Prop :=
  name c' = name c /\ courseId c' = courseId c
  /\ c_bookingUrl c' = c_bookingUrl c
  /\ Forall2 (schedule_evolves new (courseId c)) (schedules c) (schedules c').

Definition registry_evolves (new : list Call)
    (r r' : list (string * Course)) : Prop :=
  Forall2 (fun kc kc' => kc'.1 = kc.1 /\ course_evolves new kc.2 kc'.2) r r'.

(** From [w] to [w']: calls are only added, the clock does not go back,
    the environment is the same, and the registry evolves through the
    calls added. *)
Definition world_evolves (w w' : World) : Prop :=
  exists new, calls w' = calls w ++ new
    /\ now w <= now w'
    /\ upstream w' = upstream w
    /\ localeCompare w' = localeCompare w
    /\ registry_evolves new (registry w) (registry w').

(** The registry entry of [courseKey] agrees with the course [c] that
    [fetchTeeTimes] holds, from the [i]-th schedule on. *)
Definition aligned (courseKey : string) (c : Course) (i : nat) (w : World)
    : Prop :=
  exists creg, assoc courseKey (registry w) = Some creg
    /\ name creg = name c /\ courseId creg = courseId c
    /\ c_bookingUrl creg = c_bookingUrl c
    /\ length (schedules creg) = length (schedules c)
    /\ map label (schedules creg) = map label (schedules c)
    /\ drop i (schedules creg) = drop i (schedules c).

(** Steps that leave the registry alone: reading and writing the cache,
    calling the upstream. *)
Definition evolving {A : Type} (m : M A) : Prop :=
  forall w, post m w (fun _ w' => world_evolves w w' /\ registry w' = registry w).

(** What [discoverScheduleId] makes of the reply to its call. *)
Definition discover_result (r : HttpResult) : option Z :=
  match r with
  | HttpOk html =>
      match discover_parse html with
      | Ok found => found
      | Throw _ => None
      end
  | HttpFail _ => None
  end.

(** The registry once [assign_schedule_id courseKey i n] has run. *)
Definition with_schedule_id (courseKey : string) (i : nat) (n : Z)
    (reg : list (string * Course)) : list (string * Course) :=
  update_course courseKey
    (fun c => mkCourse (name c) (courseId c)
                (alter (set_id n) i (schedules c)) (c_bookingUrl c))
    reg.

(** ** Records and the registry *)

(** The record [r] belongs to a course of the registry: its key is
    registered and its name, booking link and schedule label are those of
    the entry. *)
Definition rec_ok (reg : list (string * Course)) (r : TeeTime) : Prop :=
  exists c sch, assoc (courseKey r) reg = Some c
    /\ course r = name c
    /\ bookingUrl r = c_bookingUrl c
    /\ sch ∈ schedules c
    /\ scheduleLabel r = label sch.

(** Every record in the cache belongs to a course of the registry. *)
Definition cache_consistent (w : World) : Prop :=
  forall key e l, cache w !! key = Some e -> v e = CArr l ->
    Forall (rec_ok (registry w)) l.

(** Every list of records cached in [w'] was already cached in [w]. *)
Definition cache_narrows (w w' : World) : Prop :=
  forall key e l, cache w' !! key = Some e -> v e = CArr l ->
    cache w !! key = Some e.

(** ** Discovery and the 24-hour cache *)

(** The instant at which a call returned. *)
Definition done_at (cl : Call) : Z := c_at cl + Z.of_N (elapsed (c_reply cl)).







(** Every run of [m] is related to its start by [R]. *)
Definition stepwise (R : World -> World -> Prop) {A : Type} (m : M A) : Prop :=
  forall w, post m w (fun _ w' => R w w').

(** A registry with a schedule whose id is not known, and an upstream
    whose booking page embeds the id 777. *)
Definition lazy_registry : list (string * Course) :=
  [("muni", mkCourse "Muni" 555 [mkSchedule None "Main"] "https://example.test/555")].

Definition booking_page : string :=
  "DEFAULT_FILTER = {" +:+ String Regex.dquote "schedule_id"
    +:+ String Regex.dquote ": 777, " +:+ String Regex.dquote "holes"
    +:+ String Regex.dquote ": 18}".

Definition lazy_upstream : nat -> Request -> Reply :=
  fun _ req =>
    match req with
    | ReqDiscover _ => mkReply (HttpOk (JStr booking_page)) 200
    | ReqTimes _ _ _ _ => mkReply (HttpOk (JArr [slot_at "2025-06-15T10:00:00"])) 100
    end.

Definition lazy_world : World := start lazy_registry 0 lazy_upstream Str.lex_compare.

Definition lazy_query : Query :=
  mkQuery (Some (QStr "06-15-2025")) None (Some (QStr "muni")).

(** ** The 5-minute cache of times *)

(** 5 minutes, in milliseconds. *)
Definition ttl_ms : Z := NodeCache.stdTTL * 1000.




(** The schedule id that an iteration uses for a schedule with a known
    id. *)
Definition sched_sid (sch : Schedule) : CacheVal := CNum (default 0 (id sch)).

(** The lists of records cached in [w] until [D] or later are still
    cached in [w']. *)
Definition frozen (D : Z) (w w' : World) : Prop :=
  forall k e l, cache w !! k = Some e -> v e = CArr l -> D <= t e ->
    cache w' !! k = Some e.






(** ** The patterns of the discovery, as the specification words them *)

Module Pattern.

Fixpoint all_in (cls : ascii -> bool) (s : string) : bool :=
  match s with
  | EmptyString => true
  | String c s' => cls c && all_in cls s'
  end.





(** The text ["s"], with its quotes. *)
Definition quoted_text (s : string) : string :=
  String Regex.dquote (s +:+ String Regex.dquote "").

(** A run of digits: at least one. *)
Definition digits (ds : string) : Prop :=
  ds <> "" /\ all_in Str.is_digit ds = true.

(** The value of a run of digits. *)
Definition decimal (ds : string) : Z :=
  fold_left (fun acc c => 10 * acc + Str.digit_val c)
    (String.list_ascii_of_string ds) 0.






End Pattern.

(** ** Keys that are not registered *)

(** Under a key of the times cache there is a list of records, never a
    number. *)
Definition cache_typed (w : World) : Prop :=
  forall key sid date players e,
    cache w !! times_key key sid date players = Some e ->
    exists l, v e = CArr l.

(** From [w] to [w'] the clock does not go back and, as long as it has not
    passed [D], the lists of records cached until [D] or later are kept. *)
Definition kept (D : Z) (w w' : World) : Prop :=
  now w <= now w' /\ (now w' <= D -> frozen D w w').

(** ** GET /api/courses *)

(** An element of the course list. *)
Record CourseInfo : Type := mkCourseInfo {
  ci_key : string;
  ci_name : string;
  ci_bookingUrl : string
}.

(** [Object.entries(COURSES)]: the entries in the order of [Object.keys]. *)
Definition Object_entries (reg : list (string * Course))
    : list (string * Course) := reg.

(** The handler of [/api/courses]: the body of its response. *)
Definition courses_handler (w : World) : list CourseInfo :=
  map (fun kc => mkCourseInfo kc.1 (name kc.2) (c_bookingUrl kc.2))
    (Object_entries (registry w)).

(** ** The keys of the cache *)

Definition no_underscore (s : string) : Prop :=
  Pattern.all_in (fun c => negb (Ascii.eqb c "_")) s = true.

(** The characters of a rendered integer. *)
Definition is_numeral (c : ascii) : bool := Str.is_digit c || Ascii.eqb c "-".

(** ** The discovery branch, step by step *)

(** The world once the discovery call of [resolve_schedule_id] has
    returned and its result has been dealt with; [w0] is the world after
    the look-up in the cache that found no id. *)
Definition discovered (courseKey : string) (c : Course) (i : nat) (w0 : World)
    : Res (option CacheVal) * World :=
  let rp := upstream w0 (length (calls w0)) (ReqDiscover (courseId c)) in
  let w1 := after_call (ReqDiscover (courseId c)) w0 in
  match discover_result (result rp) with
  | Some n =>
      if n =? 0 then (Ok (Some (CNum n)), w1)
      else
        (Ok (Some (CNum n)),
         set_registry (with_schedule_id courseKey i n (registry w1))
           (set_cache
              (<[schedule_key (courseId c)
                 := mkEntry (CNum n) (NodeCache.livetime 86400 (now w1))]> (cache w1))
              w1))
  | None => (Ok None, w1)
  end.

(** ** Counting the calls to the upstream *)

(** Every schedule of a course of the facility [cid] has a known id. *)
Definition all_known (cid : Z) (reg : list (string * Course)) : Prop :=
  Forall (fun kc => courseId kc.2 = cid ->
                    Forall (fun s => known (id s) = true) (schedules kc.2)) reg.

(** The number of schedules registered under [key], and the number of
    those without a known id. *)
Definition schedule_count (reg : list (string * Course)) (key : string) : nat :=
  match get_course reg key with
  | Own c => length (schedules c)
  | _ => 0%nat
  end.

Definition unknown_count (reg : list (string * Course)) (key : string) : nat :=
  match get_course reg key with
  | Own c => length (List.filter (fun s => negb (known (id s))) (schedules c))
  | _ => 0%nat
  end.

(** One times call for every schedule of every listed course, and one
    discovery call for every schedule without a known id. *)
Definition call_budget (reg : list (string * Course)) (keys : list string) : nat :=
  sum_list
    (map (fun key => (schedule_count reg (Str.trim key)
                      + unknown_count reg (Str.trim key))%nat) keys).

(** ** What a schedule contributes *)

(** The records that the reply to a times call contributes: none when the
    call failed or the slot mapping threw. *)
Definition contribution (c : Course) (courseKey : string) (sch : Schedule)
    (r : HttpResult) : list TeeTime :=
  match r with
  | HttpOk data =>
      match normalize_all c courseKey sch data with
      | Ok times => times
      | Throw _ => []
      end
  | HttpFail _ => []
  end.

(** A reply to the discovery call that resolves no id: the call failed,
    the body shows none of the two patterns, or the id it shows is 0. *)
Definition unresolved (r : HttpResult) : Prop :=
  match discover_result r with
  | Some n => n = 0
  | None => True
  end.

(** A course with two schedules, and an upstream that fails for the first
    of them. *)
Definition twin_registry : list (string * Course) :=
  [("twin", mkCourse "Twin Hills" 31 [mkSchedule (Some 101) "North";
                                       mkSchedule (Some 102) "South"]
              "https://example.test/31")].

Definition twin_upstream : nat -> Request -> Reply :=
  fun _ req =>
    match req with
    | ReqTimes _ _ (CNum 102) _ =>
        mkReply (HttpOk (JArr [slot_at "2025-06-15T11:00:00"])) 90
    | _ => mkReply (HttpFail "Request failed with status code 503") 30
    end.

Definition twin_world : World := start twin_registry 0 twin_upstream Str.lex_compare.

(** A booking page whose [schedule_id] is 0, followed by a usable [id]. *)
Definition zero_page : string :=
  "{" +:+ Pattern.quoted_text "schedule_id" +:+ ": 0, "
    +:+ Pattern.quoted_text "id" +:+ ": 4242, "
    +:+ Pattern.quoted_text "facility_id" +:+ ": 9}".

Definition zero_upstream : nat -> Request -> Reply :=
  fun _ _ => mkReply (HttpOk (JStr zero_page)) 50.

Definition zero_world : World := start lazy_registry 0 zero_upstream Str.lex_compare.

(** ** Where the records of a response come from *)

(** The call [cl] is a times request for the schedule [sid], the date
    [date] and the party size [players]; it succeeded, and the slot
    mapping made the records [l], with the course key [key], of its
    reply. *)
Definition answers (cl : Call) (key : string) (sid : CacheVal) (date : QVal)
    (players : option Z) (l : list TeeTime) : Prop :=
  exists c sch data,
    c_req cl = ReqTimes date players sid (c_bookingUrl c)
    /\ result (c_reply cl) = HttpOk data
    /\ normalize_all c key sch data = Ok l.

(** Every list of records in the cache was made of the reply to a call of
    the log, sits under the key of that call, and expires 5 minutes after
    the call returned. *)
Definition cache_sourced (w : World) : Prop :=
  forall K e l, cache w !! K = Some e -> v e = CArr l ->
    exists cl key n date players,
      cl ∈ calls w /\ answers cl key (CNum n) date players l
      /\ no_underscore key
      /\ K = times_key key (CNum n) date players
      /\ t e = done_at cl + ttl_ms /\ 0 <= done_at cl.

(** The schedule-id cache holds numbers. *)
Definition ids_numeric (w : World) : Prop :=
  forall cid e, cache w !! schedule_key cid = Some e -> exists n, v e = CNum n.

Definition sourced_inv (w : World) : Prop :=
  cache_sourced w /\ ids_numeric w /\ 0 <= now w
  /\ Forall no_underscore (Object_keys (registry w)).

(** The record [r], served to a request for [date] and [players] that
    arrived at the instant [T0], was made of the reply to a times call for
    the same date text and party size that returned no more than 5 minutes
    before [T0]. *)
Definition served (T0 : Z) (date : QVal) (players : option Z) (w : World)
    (r : TeeTime) : Prop :=
  exists cl n date' l,
    cl ∈ calls w /\ answers cl (courseKey r) (CNum n) date' players l /\ r ∈ l
    /\ qstr date' = qstr date /\ T0 - ttl_ms <= done_at cl.

(** ** Properties of every record *)

(** Every record in the cache satisfies [P0]. *)
Definition cache_all (P0 : TeeTime -> Prop) (w : World) : Prop :=
  forall K e l, cache w !! K = Some e -> v e = CArr l -> Forall P0 l.

(** Every record that the slot mapping makes of a reply of the upstream
    satisfies [P0]. *)
Definition replies_all (P0 : TeeTime -> Prop) (u : nat -> Request -> Reply)
    : Prop :=
  forall n req data c key sch l,
    result (u n req) = HttpOk data -> normalize_all c key sch data = Ok l ->
    Forall P0 l.

Definition records_inv (P0 : TeeTime -> Prop) (w : World) : Prop :=
  cache_all P0 w /\ replies_all P0 (upstream w).

(** ** When the answer is a 200 *)

(** The [time] of the slot is absent, falsy or a text. *)
Definition time_is_text (slot : Json) : Prop :=
  match slot with
  | JObj fields =>
      match assoc "time" fields with
      | Some (JStr _) => True
      | tm => truthy tm = false
      end
  | _ => True
  end.

(** The upstream only sends slots whose [time] is absent, falsy or a
    text. *)
Definition times_are_text (u : nat -> Request -> Reply) : Prop :=
  forall n req slots, result (u n req) = HttpOk (JArr slots) ->
    Forall time_is_text slots.

(** A record that the comparator of the sort accepts on either side. *)
Definition orderable (r : TeeTime) : Prop := untimed r = true \/ timed r.

(** * The page ([client/src/App.jsx])

    The functions of the page that decide what is asked of the server and
    what is shown of its answer.  [Date] is a parameter: [Date_getHours v]
    is the local hour of [new Date(v)], and [None] when that date is
    invalid. *)

Module Client.

(** The courses that the page offers: [key] and [name]. *)
Definition COURSES : list (string * string) :=
  [ ("lafortune", "LaFortune Park");
    ("battlecreek", "Battle Creek");
    ("stonecreek", "Page Belcher - Stone Creek");
    ("oldepage", "Page Belcher - Olde Page");
    ("cherokeehills", "Cherokee Hills");
    ("southlakes", "South Lakes") ].


(** A text or [undefined] inside a template literal. *)
Definition template (x : option string) : string := default "undefined" x.

(** [toAPIDate]: [const [y, m, d] = isoDate.split('-')]. *)
Definition toAPIDate (isoDate : string) : string :=
  let parts := Str.split "-" isoDate in
  let y := parts !! 0%nat in
  let m := parts !! 1%nat in
  let d := parts !! 2%nat in
  template m +:+ "-" +:+ template d +:+ "-" +:+ template y.

(** ** The selection: a [Set] of course keys, in order of insertion *)

Definition Set_has (key : string) (s : list string) : bool :=
  bool_decide (key ∈ s).

Definition Set_delete (key : string) (s : list string) : list string :=
  List.filter (fun k => negb (String.eqb k key)) s.

Definition Set_add (key : string) (s : list string) : list string :=
  if Set_has key s then s else s ++ [key].

(** The updater of [toggleCourse]. *)
Definition toggleCourse (key : string) (prev : list string) : list string :=
  let next := prev in
  if Set_has key next then Set_delete key next else Set_add key next.

(** [new Set(COURSES.map(c => c.key))] *)
Definition initial_selection : list string := map fst COURSES.

(** The selection after the chips [clicks] have been clicked in turn. *)
Definition clicked (clicks : list string) : list string :=
  foldl (fun sel key => toggleCourse key sel) initial_selection clicks.

(** The number of clicks on the chip [key]. *)
Definition clicks_on (key : string) (clicks : list string) : nat :=
  length (List.filter (String.eqb key) clicks).

(** ** The request of [fetchTimes] *)

(** [Array.from(selectedCourses).join(',')] *)
Definition courseParam (selectedCourses : list string) : string :=
  Str.join "," selectedCourses.

(** The URL that [fetchTimes] fetches. *)
Definition request_url (date : string) (players : Z)
    (selectedCourses : list string) : string :=
  "/api/teetimes?date=" +:+ toAPIDate date +:+ "&players=" +:+ pretty players
    +:+ "&courses=" +:+ courseParam selectedCourses.




(** ** The filter by time of day *)

Section Dates.
Variable Date_getHours : Json -> option Z.

(** [getHour] *)
Definition getHour (timeStr : JsVal) : Z :=
  if negb (truthy timeStr) then 12
  else
    match timeStr with
    | Some tm =>
        match Date_getHours tm with
        | Some h => h
        | None => 12
        end
    | None => 12
    end.

(** The predicate of [teetimes.filter]. *)
Definition shown (timeFilter : string) (t : TeeTime) : bool :=
  if String.eqb timeFilter "all" then true
  else
    let h := getHour (time t) in
    if String.eqb timeFilter "morning" then h <? 12
    else if String.eqb timeFilter "afternoon" then (12 <=? h) && (h <? 17)
    else if String.eqb timeFilter "evening" then 17 <=? h
    else true.

Definition filtered (timeFilter : string) (teetimes : list TeeTime)
    : list TeeTime :=
  List.filter (shown timeFilter) teetimes.

End Dates.

(** ** The view by course *)

(** [map[key].push(t)] on the own property [key]. *)
Fixpoint push (key : string) (t : TeeTime) (map : list (string * list TeeTime))
    : list (string * list TeeTime) :=
  match map with
  | [] => []
  | (k, arr) :: map' =>
      if String.eqb key k then (k, arr ++ [t]) :: map'
      else (k, arr) :: push key t map'
  end.

(** The callback of [filtered.forEach]; [map] holds the own properties of
    the object in order of creation.  A key that names a member of
    [Object.prototype] finds that member, which is truthy and has no
    [push]. *)
Definition group_step (map : list (string * list TeeTime)) (t : TeeTime)
    : Res (list (string * list TeeTime)) :=
  let key := course t in
  match assoc key map with
  | Some _ => Ok (push key t map)
  | None =>
      if bool_decide (key ∈ Object_prototype_keys) then
        Throw (TypeError "map[key].push is not a function")
      else Ok (map ++ [(key, [t])])
  end.

Fixpoint group_from (map : list (string * list TeeTime)) (ts : list TeeTime)
    : Res (list (string * list TeeTime)) :=
  match ts with
  | [] => Ok map
  | t :: ts' => res_bind (group_step map t) (fun map' => group_from map' ts')
  end.

(** [grouped]: [null] unless the view is by course. *)
Definition grouped (groupBy : string) (filtered : list TeeTime)
    : Res (option (list (string * list TeeTime))) :=
  if String.eqb groupBy "course" then
    res_bind (group_from [] filtered) (fun map => Ok (Some map))
  else Ok None.

(** An array index: the canonical text of an integer below [2^32 - 1]. *)
Definition array_index (k : string) : option N :=
  if Pattern.all_in Str.is_digit k && negb (String.eqb k "") then
    let n := Z.to_N (Pattern.decimal k) in
    if String.eqb (pretty n) k && (n <? 4294967295)%N then Some n else None
  else None.

Definition index_le (a b : string * list TeeTime) : Prop :=
  (default 0 (array_index a.1) <= default 0 (array_index b.1))%N.

#[global] Instance index_le_dec (a b : string * list TeeTime)
    : Decision (index_le a b).
Proof. unfold index_le. apply _. Defined.

(** [Object.entries(grouped)]: the array indices in ascending order, then
    the other keys in order of creation. *)
Definition Object_entries (map : list (string * list TeeTime))
    : list (string * list TeeTime) :=
  merge_sort index_le (List.filter (fun kv => bool_decide (is_Some (array_index kv.1))) map)
    ++ List.filter (fun kv => negb (bool_decide (is_Some (array_index kv.1)))) map.

End Client.

(** ** Ties in the order of the response *)


(** ** What the upstream is asked *)

(** The call [cl] asks for one of the courses listed in [keys]: it is the
    discovery call of the facility of a course registered under one of the
    keys (trimmed), or a times call for [date] and [players] whose
    [Referer] is the booking page of such a course. *)
Definition asked_for (reg : list (string * Course)) (keys : list string)
    (date : QVal) (players : option Z) (cl : Call) : Prop :=
  exists key c, key ∈ keys /\ assoc (Str.trim key) reg = Some c
    /\ (c_req cl = ReqDiscover (courseId c)
        \/ exists sid, c_req cl = ReqTimes date players sid (c_bookingUrl c)).

(** ** Facts about the sort *)

Module ArraySortFacts.
Import ArraySort.

Section Perm.
Context {A : Type} (comparefn : A -> A -> Res Z).

Lemma insert_perm pivot prefix placed :
  insert comparefn pivot prefix = Ok placed -> placed ≡ₚ pivot :: prefix.
Proof.
  revert placed. induction prefix as [|y prefix IH]; intros placed; simpl.
  - intros [= <-]. reflexivity.
  - destruct (comparefn pivot y) as [order|]; simpl; [|discriminate].
    destruct (order <? 0).
    + destruct (insert comparefn pivot prefix) as [placed'|]; simpl; [|discriminate].
      intros [= <-]. rewrite (IH placed' eq_refl). apply Permutation_swap.
    + intros [= <-]. reflexivity.
Qed.

Lemma sort_from_perm rest : forall prefix l,
  sort_from comparefn prefix rest = Ok l -> l ≡ₚ rev prefix ++ rest.
Proof.
  induction rest as [|pivot rest IH]; intros prefix l; simpl.
  - intros [= <-]. by rewrite app_nil_r.
  - destruct (insert comparefn pivot prefix) as [placed|] eqn:E; simpl; [|discriminate].
    intros H. rewrite (IH _ _ H). apply insert_perm in E.
    rewrite <- Permutation_middle, <- !Permutation_rev, E. reflexivity.
Qed.

Lemma sort_perm l l' : sort comparefn l = Ok l' -> l' ≡ₚ l.
Proof. intros H. by apply sort_from_perm in H. Qed.

(** Elements on which the comparator answers 0 whatever the other
    element is never move past one another. *)
Section Neutral.
Context (neutral : A -> bool).
Hypothesis neutral_l : forall x y, neutral x = true -> comparefn x y = Ok 0.
Hypothesis neutral_r : forall x y, neutral y = true -> comparefn x y = Ok 0.




End Neutral.

(** On elements where the comparator is a total preorder the sort
    succeeds and its result is ascending. *)
Section Ordered.
Context (P : A -> Prop) (f : A -> A -> Z).
Hypothesis cmp_P : forall x y, P x -> P y -> comparefn x y = Ok (f x y).
Hypothesis f_total : forall x y, f x y < 0 \/ f y x <= 0.
Hypothesis f_trans : forall x y z, f x y <= 0 -> f y z <= 0 -> f x z <= 0.





End Ordered.

(** The sort ends normally when the comparator does on the elements
    of the array. *)
Section Total.
Context (P : A -> Prop).
Hypothesis cmp_ok : forall x y, P x -> P y -> exists z, comparefn x y = Ok z.

Lemma insert_total pivot prefix :
  P pivot -> Forall P prefix ->
  exists placed, insert comparefn pivot prefix = Ok placed /\ Forall P placed.
Proof.
  intros Hp. induction prefix as [|y prefix IH]; intros HP; simpl.
  - eexists; split; [done|]. by repeat constructor.
  - apply Forall_cons in HP as [Hy HP].
    destruct (cmp_ok _ _ Hp Hy) as [order ->]. simpl.
    destruct (order <? 0).
    + destruct (IH HP) as (placed & -> & HP'). simpl.
      eexists; split; [done|]. by constructor.
    + eexists; split; [done|]. by repeat constructor.
Qed.

Lemma sort_from_total rest : forall prefix,
  Forall P prefix -> Forall P rest ->
  exists l, sort_from comparefn prefix rest = Ok l.
Proof.
  induction rest as [|pivot rest IH]; intros prefix HP HR; simpl.
  - by eexists.
  - apply Forall_cons in HR as [Hp HR].
    destruct (insert_total pivot prefix Hp HP) as (placed & -> & HP').
    simpl. by apply IH.
Qed.

Lemma sort_total l : Forall P l -> exists l', sort comparefn l = Ok l'.
Proof. intros HP. by apply sort_from_total. Qed.

End Total.
End Perm.

End ArraySortFacts.

(** ** Rules for [post] *)

Lemma post_ret {A : Type} (a : A) w (Q : Res A -> World -> Prop) :
  Q (Ok a) w -> post (ret a) w Q.
Proof. done. Qed.

Lemma post_throw {A : Type} e w (Q : Res A -> World -> Prop) :
  Q (Throw e) w -> post (throw e) w Q.
Proof. done. Qed.

Lemma post_lift {A : Type} (r : Res A) w (Q : Res A -> World -> Prop) :
  Q r w -> post (lift r) w Q.
Proof. done. Qed.

Lemma post_bind {A B : Type} (m : M A) (k : A -> M B) w
    (Q : Res B -> World -> Prop) :
  post m w (fun r w1 =>
    match r with
    | Ok a => post (k a) w1 Q
    | Throw e => Q (Throw e) w1
    end) ->
  post (bind m k) w Q.
Proof. unfold post, bind. by destruct (m w) as [[a|e] w1]. Qed.

Lemma post_try_catch {A : Type} (m : M A) (h : JsError -> M A) w
    (Q : Res A -> World -> Prop) :
  post m w (fun r w1 =>
    match r with
    | Ok a => Q (Ok a) w1
    | Throw e => post (h e) w1 Q
    end) ->
  post (try_catch m h) w Q.
Proof. unfold post, try_catch. by destruct (m w) as [[a|e] w1]. Qed.

Lemma post_mono {A : Type} (m : M A) w (Q Q' : Res A -> World -> Prop) :
  post m w Q -> (forall r w', Q r w' -> Q' r w') -> post m w Q'.
Proof. unfold post. auto. Qed.

Lemma post_run {A : Type} (m : M A) w r w' (Q : Res A -> World -> Prop) :
  post m w Q -> m w = (r, w') -> Q r w'.
Proof. unfold post. intros H E. by rewrite E in H. Qed.

Lemma post_get key w (Q : Res (option CacheVal) -> World -> Prop) :
  (forall e, cache w !! key = Some e -> NodeCache.expired e (now w) = false ->
     Q (Ok (Some (v e))) w) ->
  (cache w !! key = None -> Q (Ok None) w) ->
  (forall e, cache w !! key = Some e -> NodeCache.expired e (now w) = true ->
     Q (Ok None) (set_cache (delete key (cache w)) w)) ->
  post (NodeCache.get key) w Q.
Proof.
  intros H1 H2 H3. unfold post, NodeCache.get.
  destruct (cache w !! key) as [e|] eqn:E; [|by apply H2].
  destruct (NodeCache.expired e (now w)) eqn:Ex; simpl; eauto.
Qed.

Lemma post_set key val ttl w (Q : Res unit -> World -> Prop) :
  Q (Ok tt)
    (set_cache
       (<[key := mkEntry val (NodeCache.livetime ttl (now w))]> (cache w)) w) ->
  post (NodeCache.set key val ttl) w Q.
Proof. done. Qed.

Lemma post_axios req w (Q : Res Json -> World -> Prop) :
  (forall d, result (upstream w (length (calls w)) req) = HttpOk d ->
     Q (Ok d) (after_call req w)) ->
  (forall m, result (upstream w (length (calls w)) req) = HttpFail m ->
     Q (Throw (AxiosError m)) (after_call req w)) ->
  post (axios_get req) w Q.
Proof.
  intros H1 H2. unfold post, axios_get.
  destruct (result _) eqn:E; simpl; eauto.
Qed.

(** ** Requests without a date (C2) *)

(** C2: a request to [/api/teetimes] that omits [date] is answered with
    status 400 and a body with an [error] field, and the world is left as it
    was: no call to the upstream is made (the log of calls is the same). *)
Theorem missing_date_400 (players courses : option QVal) (w : World) :
  let out := handler (mkQuery None players courses) w in
  status_of out.1 = Some 400
  /\ has_error_field out.1
  /\ out.2 = w
  /\ calls out.2 = calls w.
Proof. simpl. done. Qed.

(** ** Keys inherited from [Object.prototype] (C3, C4) *)

(** C4: [fetchTeeTimes] raises for a course key that names a member of
    [Object.prototype]: on the registry as written,
    [fetchTeeTimes('constructor', date, players)] throws a [TypeError]. *)
Theorem fetchTeeTimes_constructor_throws (date : QVal) (players : option Z)
    clock upstream localeCompare :
  let w := boot clock upstream localeCompare in
  fetchTeeTimes "constructor" date players w
  = (Throw (TypeError "course.schedules is not iterable"), w).
Proof. reflexivity. Qed.

(** C3: a request whose [courses] names the unknown key [constructor] is
    answered with status 500 instead of an empty result. *)
Theorem unknown_key_constructor_500 (players : option QVal)
    clock upstream localeCompare :
  let w := boot clock upstream localeCompare in
  handler (mkQuery (Some (QStr "06-15-2025")) players (Some (QStr "constructor"))) w
  = (Response 500 (ErrorBody "Failed to fetch tee times"), w).
Proof. reflexivity. Qed.

(** ** The order of the response (C1) *)


Lemma compare_time_untimed lc a b :
  untimed a = true \/ untimed b = true -> compare_time lc a b = Ok 0.
Proof.
  unfold untimed, compare_time. intros [->| ->]; simpl; [done|].
  by rewrite orb_true_r.
Qed.

Lemma timed_truthy r : timed r -> truthy (time r) = true.
Proof.
  intros (s & -> & Hs). simpl. destruct s; [done|]. done.
Qed.

Lemma compare_time_timed lc a b :
  timed a -> timed b -> compare_time lc a b = Ok (time_compare lc a b).
Proof.
  intros Ha Hb. unfold compare_time, time_compare, time_string.
  rewrite (timed_truthy a Ha), (timed_truthy b Hb). simpl.
  destruct Ha as (sa & -> & _), Hb as (sb & -> & _). done.
Qed.

Lemma scenario_response :
  (handler scenario_query scenario_world).1
  = Response 200
      (TeeTimesBody (QStr "06-15-2025") (Some 2) 2
         [ mkTeeTime "Battle Creek" "battlecreek" "Battle Creek"
             (Some (JStr "2025-06-15T07:30:00")) (Some (JNum "2"))
             (Some (JNum "30")) None (Some (JArr [])) None
             "https://foreupsoftware.com/index.php/booking/index/22756#teetimes";
           mkTeeTime "LaFortune Park" "lafortune" "Championship (18 holes)"
             (Some (JStr "2025-06-15T08:00:00")) (Some (JNum "4"))
             (Some (JNum "45")) None (Some (JArr [])) None
             "https://foreupsoftware.com/index.php/booking/20922/6194#teetimes" ]).
Proof. vm_compute. reflexivity. Qed.

Lemma handler_courses w date players s :
  q_truthy (Some date) = true -> s <> "" ->
  handler (mkQuery (Some date) players (Some (QStr s))) w
  = match gather date (parse_players players) (Str.split "," s) w with
    | (Ok allTimes, w') =>
        match ArraySort.sort (compare_time (localeCompare w')) allTimes with
        | Ok sorted =>
            (Response 200
               (TeeTimesBody date (parse_players players) (length sorted) sorted),
             w')
        | Throw _ => (Response 500 (ErrorBody "Failed to fetch tee times"), w')
        end
    | (Throw _, w') => (Response 500 (ErrorBody "Failed to fetch tee times"), w')
    end.
Proof.
  intros Hd Hs. unfold handler. cbn [q_date q_players q_courses]. rewrite Hd.
  assert (courseKeys (Some (QStr s)) (registry w) = Ok (Str.split "," s)) as ->.
  { unfold courseKeys. simpl. destruct s; [done|]. done. }
  unfold aggregate, bind.
  destruct (gather date (parse_players players) (Str.split "," s) w) as [[allTimes|e] w'];
    [|done].
  unfold lift, ret.
  by destruct (ArraySort.sort (compare_time (localeCompare w')) allTimes).
Qed.




(** ** The registry only gains ids (C9) *)

Lemma schedule_evolves_refl new cid s : schedule_evolves new cid s s.
Proof. split; [done|by left]. Qed.

Lemma schedule_evolves_mono new new' cid s s' :
  new ⊆ new' -> schedule_evolves new cid s s' -> schedule_evolves new' cid s s'.
Proof.
  intros Hsub [Hl [He|(Hk & n & cl & Hn & Hkn & Hin & Hreq & Hres)]];
    (split; [done|]); [by left|right].
  split; [done|]. exists n, cl. split_and!; try done. by apply Hsub.
Qed.

Lemma schedule_evolves_trans new1 new2 cid s1 s2 s3 :
  schedule_evolves new1 cid s1 s2 -> schedule_evolves new2 cid s2 s3 ->
  schedule_evolves (new1 ++ new2) cid s1 s3.
Proof.
  intros [Hl1 H1] [Hl2 H2]. split; [congruence|].
  destruct H1 as [E1|(Hk1 & n1 & cl1 & Hn1 & Hkn1 & Hin1 & Hreq1 & Hres1)].
  - destruct H2 as [E2|(Hk2 & n2 & cl2 & Hn2 & Hkn2 & Hin2 & Hreq2 & Hres2)].
    + left. congruence.
    + right. rewrite <- E1. split; [done|]. exists n2, cl2.
      split_and!; try done. apply elem_of_app. by right.
  - destruct H2 as [E2|(Hk2 & _)].
    + right. split; [done|]. exists n1, cl1.
      split_and!; try done; [congruence|]. apply elem_of_app. by left.
    + rewrite Hn1 in Hk2. congruence.
Qed.

Lemma course_evolves_refl new c : course_evolves new c c.
Proof.
  split_and!; try done. apply Forall2_same_length_lookup. split; [done|].
  intros i x y Hx Hy. assert (x = y) as -> by congruence.
  apply schedule_evolves_refl.
Qed.

Lemma course_evolves_mono new new' c c' :
  new ⊆ new' -> course_evolves new c c' -> course_evolves new' c c'.
Proof.
  intros Hsub (?&?&?&H). split_and!; try done.
  eapply Forall2_impl; [exact H|]. intros s s'. by apply schedule_evolves_mono.
Qed.

Lemma course_evolves_trans new1 new2 c1 c2 c3 :
  course_evolves new1 c1 c2 -> course_evolves new2 c2 c3 ->
  course_evolves (new1 ++ new2) c1 c3.
Proof.
  intros (Hn1&Hc1&Hb1&H1) (Hn2&Hc2&Hb2&H2). split_and!; try congruence.
  rewrite Hc1 in H2. clear -H1 H2.
  revert H2. generalize (schedules c3). induction H1 as [|s1 s2 l1 l2 Hs H1 IH];
    intros l3 H2; inversion H2; subst; constructor; eauto using schedule_evolves_trans.
Qed.

Lemma registry_evolves_refl new r : registry_evolves new r r.
Proof.
  induction r as [|[k c] r IH]; constructor; [|done].
  split; [done|apply course_evolves_refl].
Qed.

Lemma registry_evolves_mono new new' r r' :
  new ⊆ new' -> registry_evolves new r r' -> registry_evolves new' r r'.
Proof.
  intros Hsub H. eapply Forall2_impl; [exact H|].
  intros kc kc' [? ?]. split; [done|]. by eapply course_evolves_mono.
Qed.

Lemma registry_evolves_trans new1 new2 r1 r2 r3 :
  registry_evolves new1 r1 r2 -> registry_evolves new2 r2 r3 ->
  registry_evolves (new1 ++ new2) r1 r3.
Proof.
  intros H1. revert r3. induction H1 as [|kc1 kc2 l1 l2 [Hk Hc] H1 IH];
    intros r3 H2; inversion H2 as [|? kc3 ? l3 [Hk' Hc'] H2']; subst; constructor.
  - split; [congruence|]. by eapply course_evolves_trans.
  - by apply IH.
Qed.

Lemma world_evolves_refl w : world_evolves w w.
Proof.
  exists []. rewrite app_nil_r. split_and!; try done.
  apply registry_evolves_refl.
Qed.

Lemma world_evolves_trans w1 w2 w3 :
  world_evolves w1 w2 -> world_evolves w2 w3 -> world_evolves w1 w3.
Proof.
  intros (n1&Hc1&Ht1&Hu1&Hl1&Hr1) (n2&Hc2&Ht2&Hu2&Hl2&Hr2).
  exists (n1 ++ n2). split_and!; try congruence; [|lia|].
  - by rewrite Hc2, Hc1, app_assoc.
  - by eapply registry_evolves_trans.
Qed.

(** A step that leaves the registry alone. *)
Lemma world_evolves_frame w w' new :
  registry w' = registry w -> calls w' = calls w ++ new -> now w <= now w' ->
  upstream w' = upstream w -> localeCompare w' = localeCompare w ->
  world_evolves w w'.
Proof.
  intros Hr Hc Ht Hu Hl. exists new. split_and!; try done.
  rewrite Hr. apply registry_evolves_refl.
Qed.

Lemma after_call_evolves req w : world_evolves w (after_call req w).
Proof. eapply world_evolves_frame; simpl; try done. lia. Qed.

Lemma set_cache_evolves c w : world_evolves w (set_cache c w).
Proof.
  eapply world_evolves_frame with (new := []); simpl; try done.
  by rewrite app_nil_r.
Qed.


Lemma evolving_get key : evolving (NodeCache.get key).
Proof.
  intros w. apply post_get; intros; (split; [|done]);
    auto using world_evolves_refl, set_cache_evolves.
Qed.

Lemma evolving_set key val ttl : evolving (NodeCache.set key val ttl).
Proof. intros w. apply post_set. split; [apply set_cache_evolves|done]. Qed.

Lemma evolving_axios req : evolving (axios_get req).
Proof.
  intros w. apply post_axios; intros; (split; [apply after_call_evolves|done]).
Qed.

Lemma evolving_ret {A : Type} (a : A) : evolving (ret a).
Proof. intros w. apply post_ret. split; [apply world_evolves_refl|done]. Qed.

Lemma evolving_throw {A : Type} e : evolving (@throw A e).
Proof. intros w. apply post_throw. split; [apply world_evolves_refl|done]. Qed.

Lemma evolving_lift {A : Type} (r : Res A) : evolving (lift r).
Proof. intros w. apply post_lift. split; [apply world_evolves_refl|done]. Qed.

Lemma evolving_bind {A B : Type} (m : M A) (k : A -> M B) :
  evolving m -> (forall a, evolving (k a)) -> evolving (bind m k).
Proof.
  intros Hm Hk w. apply post_bind. eapply post_mono; [apply Hm|].
  intros [a|e] w1 [H1 Hr1]; [|done].
  eapply post_mono; [apply Hk|]. intros r w2 [H2 Hr2].
  split; [by eapply world_evolves_trans|congruence].
Qed.

Lemma evolving_try_catch {A : Type} (m : M A) (h : JsError -> M A) :
  evolving m -> (forall e, evolving (h e)) -> evolving (try_catch m h).
Proof.
  intros Hm Hh w. apply post_try_catch. eapply post_mono; [apply Hm|].
  intros [a|e] w1 [H1 Hr1]; [done|].
  eapply post_mono; [apply Hh|]. intros r w2 [H2 Hr2].
  split; [by eapply world_evolves_trans|congruence].
Qed.

Lemma evolving_discover cid : evolving (discoverScheduleId cid).
Proof.
  apply evolving_try_catch; [|intros; apply evolving_ret].
  apply evolving_bind; [apply evolving_axios|intros; apply evolving_lift].
Qed.

Lemma evolving_cached_or_fetched key c date players sch sid results :
  evolving (cached_or_fetched key c date players sch sid results).
Proof.
  apply evolving_bind; [apply evolving_get|]. intros cached.
  destruct (sid_truthy cached).
  - destruct cached as [[n|l]|]; auto using evolving_ret, evolving_throw.
  - apply evolving_try_catch; [|intros; apply evolving_ret].
    repeat (apply evolving_bind; [|intros]);
      auto using evolving_axios, evolving_lift, evolving_set, evolving_ret.
Qed.

Lemma discoverScheduleId_run cid w :
  discoverScheduleId cid w
  = (Ok (discover_result (result (upstream w (length (calls w)) (ReqDiscover cid)))),
     after_call (ReqDiscover cid) w).
Proof.
  unfold discoverScheduleId, try_catch, bind, axios_get, lift, ret, discover_result.
  destruct (result _) as [html|msg]; [|done].
  by destruct (discover_parse html).
Qed.

Lemma discover_result_resolves cl n :
  discover_result (result (c_reply cl)) = Some n -> n <> 0 -> resolves cl n.
Proof.
  unfold discover_result, resolves. intros H Hn.
  destruct (result (c_reply cl)) as [html|]; [|done].
  destruct (discover_parse html) as [found|] eqn:E; [|done].
  exists html. by subst.
Qed.

Lemma assoc_update_course key f reg c :
  assoc key reg = Some c -> assoc key (update_course key f reg) = Some (f c).
Proof.
  induction reg as [|[k c'] reg IH]; simpl; [done|].
  destruct (String.eqb key k) eqn:E; simpl; rewrite E; [congruence|done].
Qed.

Lemma with_schedule_id_evolves new key i n reg creg sch cl :
  assoc key reg = Some creg -> schedules creg !! i = Some sch ->
  known (id sch) = false -> n <> 0 -> cl ∈ new ->
  c_req cl = ReqDiscover (courseId creg) -> resolves cl n ->
  registry_evolves new reg (with_schedule_id key i n reg).
Proof.
  intros Ha Hi Hk Hn Hin Hreq Hres. unfold with_schedule_id.
  induction reg as [|[k c'] reg IH]; simpl in *; [done|].
  destruct (String.eqb key k) eqn:E.
  - injection Ha as ->. constructor; [|apply registry_evolves_refl].
    split; [done|]. split_and!; try done. simpl.
    apply Forall2_same_length_lookup. split; [by rewrite length_alter|].
    intros j x y Hx Hy. destruct (decide (i = j)) as [<-|Hne].
    + rewrite list_lookup_alter_eq, Hi in Hy. simpl in Hy.
      injection Hy as <-. assert (x = sch) as -> by congruence.
      split; [done|]. right. split; [done|]. exists n, cl.
      split_and!; try done. unfold known. simpl. by apply negb_true_iff, Z.eqb_neq.
    + rewrite list_lookup_alter_ne in Hy by done.
      assert (x = y) as -> by congruence. apply schedule_evolves_refl.
  - constructor; [|by apply IH]. split; [done|apply course_evolves_refl].
Qed.

Lemma drop_S_eq {A : Type} (i : nat) (l l' : list A) :
  drop i l = drop i l' -> drop (S i) l = drop (S i) l'.
Proof.
  intros H. replace (S i) with (i + 1)%nat by lia.
  by rewrite <- !drop_drop, H.
Qed.

(** The discovery branch: either the registry is as before, or the
    schedule at hand has received the id that the branch returns. *)
Lemma resolve_schedule_id_evolves key c i sch w :
  aligned key c i w -> schedules c !! i = Some sch -> known (id sch) = false ->
  post (resolve_schedule_id key c i) w (fun _ w' =>
    world_evolves w w' /\ aligned key c (S i) w').
Proof.
  intros (creg & Ha & Hnm & Hcid & Hbk & Hlen & Hlab & Hdrop) Hi Hk.
  assert (schedules creg !! i = Some sch) as Hi'.
  { rewrite <- (Nat.add_0_r i), <- lookup_drop, Hdrop, lookup_drop, Nat.add_0_r. done. }
  assert (Hal : forall w', registry w' = registry w -> aligned key c (S i) w').
  { intros w' Hr. exists creg. rewrite Hr. split_and!; try done.
    by apply drop_S_eq. }
  unfold resolve_schedule_id. apply post_bind.
  assert (Hrest : forall scheduleId w1,
    world_evolves w w1 -> registry w1 = registry w ->
    post (if sid_truthy scheduleId then ret scheduleId
          else
            let* found := discoverScheduleId (courseId c) in
            match found with
            | Some n =>
                if negb (n =? 0) then
                  let* _ := NodeCache.set (schedule_key (courseId c)) (CNum n) 86400 in
                  let* _ := assign_schedule_id key i n in
                  ret (Some (CNum n))
                else ret (Some (CNum n))
            | None => ret None
            end) w1 (fun _ w' => world_evolves w w' /\ aligned key c (S i) w')).
  { intros scheduleId w1 Hev Hr1. destruct (sid_truthy scheduleId).
    { apply post_ret. split; [done|]. by apply Hal. }
    apply post_bind. unfold post at 1. rewrite discoverScheduleId_run. simpl.
    set (rp := upstream w1 (length (calls w1)) (ReqDiscover (courseId c))).
    assert (Hev2 : world_evolves w (after_call (ReqDiscover (courseId c)) w1)).
    { eapply world_evolves_trans; [exact Hev|apply after_call_evolves]. }
    destruct (discover_result (result rp)) as [n|] eqn:Ed.
    2:{ apply post_ret. split; [done|]. apply Hal. by rewrite <- Hr1. }
    destruct (n =? 0) eqn:En; simpl.
    { apply post_ret. split; [done|]. apply Hal. by rewrite <- Hr1. }
    apply Z.eqb_neq in En.
    apply post_bind, post_set, post_bind. unfold post, assign_schedule_id. simpl.
    split.
    - eapply world_evolves_trans; [exact Hev|].
      exists [mkCall (ReqDiscover (courseId c)) (now w1) rp]. simpl.
      split_and!; try done; [lia|]. fold (with_schedule_id key i n (registry w1)).
      rewrite Hr1.
      eapply with_schedule_id_evolves; try done.
      + apply list_elem_of_singleton. reflexivity.
      + simpl. by rewrite Hcid.
      + by apply discover_result_resolves.
    - rewrite Hr1. eexists. split; [by apply assoc_update_course|].
      simpl. split_and!; try done.
      + by rewrite length_alter.
      + rewrite <- Hlab. apply list_eq. intros j.
        rewrite !list_lookup_fmap. destruct (decide (i = j)) as [<-|Hne].
        * rewrite list_lookup_alter_eq. by destruct (schedules creg !! i).
        * by rewrite list_lookup_alter_ne.
      + rewrite drop_alter_lt by lia. by apply drop_S_eq. }
  apply post_get; intros; apply Hrest; auto using world_evolves_refl, set_cache_evolves.
Qed.

Lemma aligned_registry_eq key c i w w' :
  aligned key c i w -> registry w' = registry w -> aligned key c i w'.
Proof. intros (creg & H) Hr. exists creg. by rewrite Hr. Qed.

Lemma aligned_S key c i w : aligned key c i w -> aligned key c (S i) w.
Proof.
  intros (creg & ?&?&?&?&?&?&?). exists creg. split_and!; try done.
  by apply drop_S_eq.
Qed.

Lemma fetch_schedule_evolves key c date players i sch results w :
  aligned key c i w -> schedules c !! i = Some sch ->
  post (fetch_schedule key c date players i sch results) w (fun _ w' =>
    world_evolves w w' /\ aligned key c (S i) w').
Proof.
  intros Hal Hi. unfold fetch_schedule. apply post_bind.
  assert (Hrest : forall (r : Res (option CacheVal)) w1,
    world_evolves w w1 /\ aligned key c (S i) w1 ->
    match r with
    | Ok scheduleId =>
        post (match scheduleId with
              | Some sid =>
                  if sid_truthy (Some sid) then
                    cached_or_fetched key c date players sch sid results
                  else ret results
              | None => ret results
              end) w1 (fun _ w' => world_evolves w w' /\ aligned key c (S i) w')
    | Throw e => world_evolves w w1 /\ aligned key c (S i) w1
    end).
  { intros [[sid|]|e] w1 [Hev Hal1]; try done.
    destruct (sid_truthy (Some sid)); [|done].
    eapply post_mono; [apply evolving_cached_or_fetched|].
    intros r w2 [Hev2 Hr2]. split; [by eapply world_evolves_trans|].
    by eapply aligned_registry_eq. }
  destruct (sid_truthy (CNum <$> id sch)) eqn:Hk.
  - apply post_ret. apply (Hrest (Ok _) w).
    split; [apply world_evolves_refl|by apply aligned_S].
  - eapply post_mono; [by eapply resolve_schedule_id_evolves|]. apply Hrest.
Qed.

Lemma fetch_loop_evolves key c date players scheds : forall i results w,
  aligned key c i w -> drop i (schedules c) = scheds ->
  post (fetch_loop key c date players i scheds results) w (fun _ w' =>
    world_evolves w w').
Proof.
  induction scheds as [|sch scheds IH]; intros i results w Hal Hdrop; simpl.
  - apply post_ret, world_evolves_refl.
  - apply post_bind. eapply post_mono.
    + apply fetch_schedule_evolves; [done|].
      rewrite <- (Nat.add_0_r i), <- lookup_drop, Hdrop. done.
    + intros [results'|e] w1 [Hev Hal1]; [|done].
      eapply post_mono; [apply IH; [done|]|].
      * rewrite <- Nat.add_1_r, <- drop_drop, Hdrop. done.
      * intros r w2 Hev2. by eapply world_evolves_trans.
Qed.

Lemma assoc_get_course reg key c : get_course reg key = Own c -> assoc key reg = Some c.
Proof.
  unfold get_course. destruct (assoc key reg); [congruence|]. by case_bool_decide.
Qed.

Lemma fetchTeeTimes_evolves key date players w :
  post (fetchTeeTimes key date players) w (fun _ w' => world_evolves w w').
Proof.
  unfold post, fetchTeeTimes.
  destruct (get_course (registry w) key) as [c| |] eqn:E;
    try apply world_evolves_refl.
  apply fetch_loop_evolves; [|done].
  exists c. split_and!; try done. by apply assoc_get_course.
Qed.

Lemma run_all_evolves {A : Type} (ms : list (M A)) :
  Forall (fun m => forall w, world_evolves w (m w).2) ms ->
  forall w, world_evolves w (run_all ms w).2.
Proof.
  induction 1 as [|m ms Hm _ IH]; intros w; simpl; [apply world_evolves_refl|].
  specialize (Hm w). destruct (m w) as [r w1]. specialize (IH w1).
  destruct (run_all ms w1) as [rs w2]. simpl in *.
  by eapply world_evolves_trans.
Qed.

Lemma gather_evolves date players keys w :
  world_evolves w (gather date players keys w).2.
Proof.
  unfold gather, bind, Promise_all, ret.
  pose proof (run_all_evolves
    (map (fun key => fetchTeeTimes (Str.trim key) date players) keys)) as H.
  destruct (run_all _ w) as [rs w1] eqn:E.
  assert (world_evolves w w1) as Hev.
  { replace w1 with (run_all (map (fun key => fetchTeeTimes (Str.trim key) date players) keys) w).2
      by (by rewrite E).
    apply H. apply Forall_forall. intros m (key & -> & _)%list_elem_of_fmap w0.
    apply fetchTeeTimes_evolves. }
  by destruct (settle rs).
Qed.

Lemma handler_evolves q w : world_evolves w (handler q w).2.
Proof.
  unfold handler. destruct (q_date q) as [date|]; [|apply world_evolves_refl].
  destruct (q_truthy (Some date)); [|apply world_evolves_refl].
  destruct (courseKeys (q_courses q) (registry w)) as [keys|e];
    [|apply world_evolves_refl].
  unfold aggregate, bind.
  pose proof (gather_evolves date (parse_players (q_players q)) keys w) as H.
  destruct (gather date (parse_players (q_players q)) keys w) as [[allTimes|e] w1];
    [|done].
  unfold lift, ret. simpl in *.
  by destruct (ArraySort.sort (compare_time (localeCompare w1)) allTimes).
Qed.

Lemma step_evolves w e : world_evolves w (step w e).
Proof.
  destruct e as [dt|q]; simpl; [|apply handler_evolves].
  eapply world_evolves_frame with (new := []); simpl; try done.
  - by rewrite app_nil_r.
  - lia.
Qed.

Lemma run_evolves es : forall w, world_evolves w (run es w).
Proof.
  induction es as [|e es IH]; intros w; simpl; [apply world_evolves_refl|].
  eapply world_evolves_trans; [apply step_evolves|apply IH].
Qed.

Lemma registry_evolves_assoc new r r' key c :
  registry_evolves new r r' -> assoc key r = Some c ->
  exists c', assoc key r' = Some c' /\ course_evolves new c c'.
Proof.
  induction 1 as [|[k c0] [k' c0'] r r' [Hk Hc] _ IH]; simpl in *; [done|].
  subst k'. destruct (String.eqb key k); [|done].
  intros [= ->]. by exists c0'.
Qed.

Lemma registry_evolves_keys new r r' :
  registry_evolves new r r' -> Object_keys r' = Object_keys r.
Proof.
  unfold Object_keys. induction 1 as [|kc kc' r r' [Hk _] _ IH]; simpl; congruence.
Qed.

Lemma course_evolves_known new c c' :
  course_evolves new c c' ->
  Forall (fun s => known (id s) = true) (schedules c) -> c' = c.
Proof.
  intros (Hn & Hc & Hb & Hs) Hk.
  assert (schedules c' = schedules c) as Hsch.
  { clear -Hs Hk. induction Hs as [|s s' l l' [Hl Hi] _ IH]; [done|].
    apply Forall_cons in Hk as [Hks Hk]. rewrite (IH Hk). f_equal.
    destruct Hi as [Hi|[Hf _]]; [|congruence].
    destruct s, s'; simpl in *; congruence. }
  destruct c, c'; simpl in *; congruence.
Qed.


(** ** The course keys of a request (C10) *)







(** ** Records belong to registered courses (C8) *)

Lemma rec_ok_evolves new r r' x :
  registry_evolves new r r' -> rec_ok r x -> rec_ok r' x.
Proof.
  intros Hr (c & sch & Ha & Hn & Hb & Hin & Hl).
  destruct (registry_evolves_assoc _ _ _ _ _ Hr Ha) as (c' & Ha' & Hn' & _ & Hb' & Hs).
  apply list_elem_of_lookup in Hin as [i Hi].
  destruct (Forall2_lookup_l _ _ _ _ _ Hs Hi) as (sch' & Hi' & Hl' & _).
  exists c', sch'. split_and!; try congruence.
  by eapply list_elem_of_lookup_2.
Qed.

Lemma cache_consistent_evolves w w' :
  world_evolves w w' -> cache_narrows w w' -> cache_consistent w ->
  cache_consistent w'.
Proof.
  intros (new & _ & _ & _ & _ & Hr) Hn Hc key e l He Hv.
  eapply Forall_impl; [by eapply Hc; [eapply Hn|]|].
  intros x. by eapply rec_ok_evolves.
Qed.

Lemma cache_narrows_refl w : cache_narrows w w.
Proof. by intros key e l. Qed.

Lemma cache_narrows_trans w1 w2 w3 :
  cache_narrows w1 w2 -> cache_narrows w2 w3 -> cache_narrows w1 w3.
Proof. intros H1 H2 key e l He Hv. eauto. Qed.

Lemma cache_narrows_delete key w :
  cache_narrows w (set_cache (delete key (cache w)) w).
Proof.
  intros k e l He _. cbn [cache set_cache] in He.
  by apply lookup_delete_Some in He as [_ He].
Qed.

Lemma cache_narrows_eq w w' : cache w' = cache w -> cache_narrows w w'.
Proof. intros E key e l. by rewrite E. Qed.

Lemma resolve_schedule_id_narrows key c i w :
  post (resolve_schedule_id key c i) w (fun _ w' => cache_narrows w w').
Proof.
  unfold resolve_schedule_id. apply post_bind.
  assert (Hrest : forall scheduleId w1, cache_narrows w w1 ->
    post (if sid_truthy scheduleId then ret scheduleId
          else
            let* found := discoverScheduleId (courseId c) in
            match found with
            | Some n =>
                if negb (n =? 0) then
                  let* _ := NodeCache.set (schedule_key (courseId c)) (CNum n) 86400 in
                  let* _ := assign_schedule_id key i n in
                  ret (Some (CNum n))
                else ret (Some (CNum n))
            | None => ret None
            end) w1 (fun _ w' => cache_narrows w w')).
  { intros scheduleId w1 Hn. destruct (sid_truthy scheduleId); [done|].
    apply post_bind. unfold post at 1. rewrite discoverScheduleId_run. simpl.
    destruct (discover_result _) as [n|]; [|done].
    destruct (n =? 0); simpl; [done|].
    apply post_bind, post_set, post_bind. unfold post, assign_schedule_id. simpl.
    intros k e l He Hv. apply Hn with l; [|done]. simpl in He.
    apply lookup_insert_Some in He as [[_ <-]|[_ He]]; [done|done]. }
  apply post_get; intros; apply Hrest;
    auto using cache_narrows_refl, cache_narrows_delete.
Qed.

Lemma normalize_ok c key sch slot r :
  normalize c key sch slot = Ok r ->
  courseKey r = key /\ course r = name c /\ scheduleLabel r = label sch
  /\ bookingUrl r = c_bookingUrl c.
Proof.
  unfold normalize. destruct (slot_field slot "time"); simpl; [|done].
  destruct (slot_field slot "available_spots"); simpl; [|done].
  destruct (slot_field slot "green_fee"); simpl; [|done].
  destruct (slot_field slot "cart_fee"); simpl; [|done].
  destruct (slot_field slot "players"); simpl; [|done].
  destruct (slot_field slot "holes"); simpl; [|done].
  by intros [= <-].
Qed.

Lemma res_mapM_Forall {A B : Type} (f : A -> Res B) (P : B -> Prop) l l' :
  (forall x y, f x = Ok y -> P y) -> res_mapM f l = Ok l' -> Forall P l'.
Proof.
  intros Hf. revert l'. induction l as [|x l IH]; intros l'; simpl.
  - by intros [= <-].
  - destruct (f x) as [y|] eqn:E; simpl; [|done].
    destruct (res_mapM f l) as [ys|]; simpl; [|done].
    intros [= <-]. constructor; eauto.
Qed.

Lemma normalize_all_rec_ok key c i sch data times w :
  aligned key c i w -> sch ∈ schedules c ->
  normalize_all c key sch data = Ok times ->
  Forall (rec_ok (registry w)) times.
Proof.
  intros (creg & Ha & Hn & _ & Hb & _ & Hlab & _) Hin.
  apply res_mapM_Forall. intros slot r (Hk & Hc & Hl & Hu)%normalize_ok.
  apply list_elem_of_lookup in Hin as [j Hj].
  assert (exists sch', schedules creg !! j = Some sch' /\ label sch' = label sch)
    as (sch' & Hj' & Hl').
  { assert (map label (schedules creg) !! j = Some (label sch)) as H.
    { rewrite Hlab. by rewrite list_lookup_fmap, Hj. }
    rewrite list_lookup_fmap in H. destruct (schedules creg !! j) as [sch'|]; [|done].
    exists sch'. split; [done|]. by injection H. }
  exists creg, sch'. rewrite Hk. split_and!; try congruence.
  by eapply list_elem_of_lookup_2.
Qed.

Lemma cached_or_fetched_consistent key c date players i sch sid results w :
  aligned key c i w -> sch ∈ schedules c ->
  cache_consistent w -> Forall (rec_ok (registry w)) results ->
  post (cached_or_fetched key c date players sch sid results) w (fun r w' =>
    cache_consistent w'
    /\ forall rs, r = Ok rs -> Forall (rec_ok (registry w')) rs).
Proof.
  intros Hal Hin Hc Hres. unfold cached_or_fetched. apply post_bind.
  assert (Hfetch : forall w1, registry w1 = registry w -> cache_consistent w1 ->
    post (try_catch
            (let* data := axios_get (ReqTimes date players sid (c_bookingUrl c)) in
             let* times := lift (normalize_all c key sch data) in
             let* _ := NodeCache.set (times_key key sid date players) (CArr times)
                         NodeCache.stdTTL in
             ret (results ++ times))
            (fun _ => ret results)) w1 (fun r w' =>
      cache_consistent w'
      /\ forall rs, r = Ok rs -> Forall (rec_ok (registry w')) rs)).
  { intros w1 Hr1 Hc1.
    assert (Hres1 : Forall (rec_ok (registry w1)) results) by (by rewrite Hr1).
    apply post_try_catch, post_bind, post_axios.
    - intros data _. apply post_bind. unfold post at 1. unfold lift at 1. simpl.
      destruct (normalize_all c key sch data) as [times|e] eqn:En.
      + assert (Forall (rec_ok (registry w1)) times) as Ht.
        { rewrite Hr1. by eapply normalize_all_rec_ok. }
        apply post_bind, post_set, post_ret. split.
        * intros k e l He Hv. simpl in He.
          apply lookup_insert_Some in He as [[_ <-]|[_ He]]; simpl in *.
          -- by injection Hv as <-.
          -- by eapply Hc1.
        * intros rs [= <-]. simpl. by apply Forall_app.
      + apply post_ret. split; [done|]. by intros rs [= <-].
    - intros m _. apply post_ret. split; [done|]. by intros rs [= <-]. }
  apply post_get.
  - intros e He Hex. destruct (sid_truthy (Some (v e))) eqn:Ht.
    + destruct (v e) as [n|l] eqn:Hv.
      * apply post_throw. split; [done|]. done.
      * apply post_ret. split; [done|]. intros rs [= <-].
        apply Forall_app. split; [done|]. by eapply Hc.
    + by apply Hfetch.
  - intros _. by apply Hfetch.
  - intros e He Hex. simpl. apply Hfetch; [done|].
    intros k e' l He' Hv. cbn [cache set_cache] in He'.
    apply lookup_delete_Some in He' as [_ He']. by eapply Hc.
Qed.

Lemma post_and {A : Type} (m : M A) w (Q1 Q2 : Res A -> World -> Prop) :
  post m w Q1 -> post m w Q2 -> post m w (fun r w' => Q1 r w' /\ Q2 r w').
Proof. unfold post. auto. Qed.

Lemma Forall_rec_ok_evolves w w' l :
  world_evolves w w' -> Forall (rec_ok (registry w)) l ->
  Forall (rec_ok (registry w')) l.
Proof.
  intros (new & _ & _ & _ & _ & Hr) H. eapply Forall_impl; [exact H|].
  intros x. by eapply rec_ok_evolves.
Qed.

Lemma fetch_schedule_consistent key c date players i sch results w :
  aligned key c i w -> schedules c !! i = Some sch ->
  cache_consistent w -> Forall (rec_ok (registry w)) results ->
  post (fetch_schedule key c date players i sch results) w (fun r w' =>
    cache_consistent w'
    /\ forall rs, r = Ok rs -> Forall (rec_ok (registry w')) rs).
Proof.
  intros Hal Hi Hc Hres. unfold fetch_schedule. apply post_bind.
  assert (Hin : sch ∈ schedules c) by (by eapply list_elem_of_lookup_2).
  assert (Hrest : forall (r : Res (option CacheVal)) w1,
    (world_evolves w w1 /\ aligned key c (S i) w1) /\ cache_narrows w w1 ->
    match r with
    | Ok scheduleId =>
        post (match scheduleId with
              | Some sid =>
                  if sid_truthy (Some sid) then
                    cached_or_fetched key c date players sch sid results
                  else ret results
              | None => ret results
              end) w1 (fun r w' =>
          cache_consistent w'
          /\ forall rs, r = Ok rs -> Forall (rec_ok (registry w')) rs)
    | Throw e =>
        cache_consistent w1
        /\ forall rs, @Throw (list TeeTime) e = Ok rs ->
             Forall (rec_ok (registry w1)) rs
    end).
  { intros r w1 [[Hev Hal1] Hn].
    assert (Hc1 : cache_consistent w1) by (by eapply cache_consistent_evolves).
    assert (Hres1 : Forall (rec_ok (registry w1)) results)
      by (by eapply Forall_rec_ok_evolves).
    destruct r as [[sid|]|e].
    - destruct (sid_truthy (Some sid)).
      + by eapply cached_or_fetched_consistent.
      + apply post_ret. split; [done|]. by intros rs [= <-].
    - apply post_ret. split; [done|]. by intros rs [= <-].
    - split; [done|]. done. }
  destruct (sid_truthy (CNum <$> id sch)) eqn:Hk.
  - apply post_ret. apply (Hrest (Ok _) w). split_and!.
    + apply world_evolves_refl.
    + by apply aligned_S.
    + apply cache_narrows_refl.
  - eapply post_mono; [|apply Hrest]. apply post_and.
    + by eapply resolve_schedule_id_evolves.
    + apply resolve_schedule_id_narrows.
Qed.

Lemma fetch_loop_consistent key c date players scheds : forall i results w,
  aligned key c i w -> drop i (schedules c) = scheds ->
  cache_consistent w -> Forall (rec_ok (registry w)) results ->
  post (fetch_loop key c date players i scheds results) w (fun r w' =>
    cache_consistent w'
    /\ forall rs, r = Ok rs -> Forall (rec_ok (registry w')) rs).
Proof.
  induction scheds as [|sch scheds IH]; intros i results w Hal Hdrop Hc Hres; simpl.
  - apply post_ret. split; [done|]. by intros rs [= <-].
  - assert (Hi : schedules c !! i = Some sch).
    { rewrite <- (Nat.add_0_r i), <- lookup_drop, Hdrop. done. }
    apply post_bind. eapply post_mono.
    + apply post_and; [by apply fetch_schedule_evolves|by apply fetch_schedule_consistent].
    + intros [results'|e] w1 [[Hev Hal1] [Hc1 Hres1]]; [|split; [done|done]].
      apply IH; try done; [|by apply Hres1].
      replace (S i) with (i + 1)%nat by lia. by rewrite <- drop_drop, Hdrop.
Qed.

Lemma fetchTeeTimes_consistent key date players w :
  cache_consistent w ->
  post (fetchTeeTimes key date players) w (fun r w' =>
    cache_consistent w'
    /\ forall rs, r = Ok rs -> Forall (rec_ok (registry w')) rs).
Proof.
  intros Hc. unfold post, fetchTeeTimes.
  destruct (get_course (registry w) key) as [c| |] eqn:E.
  - apply fetch_loop_consistent; try done.
    exists c. split_and!; try done. by apply assoc_get_course.
  - split; [done|done].
  - split; [done|]. by intros rs [= <-].
Qed.

Lemma run_all_consistent date players keys : forall w,
  cache_consistent w ->
  let out := run_all (map (fun key => fetchTeeTimes (Str.trim key) date players) keys) w in
  cache_consistent out.2
  /\ Forall (fun r => forall rs, r = Ok rs -> Forall (rec_ok (registry out.2)) rs) out.1.
Proof.
  induction keys as [|key keys IH]; intros w Hc; simpl; [by split|].
  pose proof (fetchTeeTimes_consistent (Str.trim key) date players w Hc) as H.
  unfold post in H.
  destruct (fetchTeeTimes (Str.trim key) date players w) as [r w1]. simpl in H.
  destruct H as [Hc1 Hr]. specialize (IH w1 Hc1). simpl in IH.
  pose proof (run_all_evolves
    (map (fun key => fetchTeeTimes (Str.trim key) date players) keys)) as Hev.
  specialize (Hev ltac:(apply Forall_forall; intros m (k & -> & _)%list_elem_of_fmap w0;
                        apply fetchTeeTimes_evolves) w1).
  destruct (run_all _ w1) as [rs w2]. simpl in *. destruct IH as [Hc2 Hrs].
  split; [done|]. constructor; [|done].
  intros l Hl. eapply Forall_rec_ok_evolves; [exact Hev|by apply Hr].
Qed.

Lemma settle_Forall {A : Type} (P : A -> Prop) (rs : list (Res A)) l :
  Forall (fun r => forall a, r = Ok a -> P a) rs -> settle rs = Ok l -> Forall P l.
Proof.
  intros H. revert l. induction H as [|r rs Hr _ IH]; intros l; simpl.
  - by intros [= <-].
  - destruct r as [a|]; simpl; [|done].
    destruct (settle rs) as [l'|]; simpl; [|done].
    intros [= <-]. constructor; auto.
Qed.

Lemma gather_consistent date players keys w :
  cache_consistent w ->
  post (gather date players keys) w (fun r w' =>
    cache_consistent w'
    /\ forall rs, r = Ok rs -> Forall (rec_ok (registry w')) rs).
Proof.
  intros Hc. unfold post, gather, bind, Promise_all, ret.
  pose proof (run_all_consistent date players keys w Hc) as H. simpl in H.
  destruct (run_all _ w) as [rs w1]. simpl in H. destruct H as [Hc1 Hrs].
  destruct (settle rs) as [ls|e] eqn:Es; simpl; (split; [done|]); [|done].
  intros l [= <-]. apply Forall_concat.
  by eapply settle_Forall.
Qed.

Lemma handler_consistent q w :
  cache_consistent w ->
  cache_consistent (handler q w).2
  /\ Forall (rec_ok (registry (handler q w).2)) (teetimes_of (handler q w).1).
Proof.
  intros Hc. unfold handler.
  destruct (q_date q) as [date|]; [|by split].
  destruct (q_truthy (Some date)); [|by split].
  destruct (courseKeys (q_courses q) (registry w)) as [keys|e]; [|by split].
  unfold aggregate, bind.
  pose proof (gather_consistent date (parse_players (q_players q)) keys w Hc) as H.
  unfold post in H.
  destruct (gather date (parse_players (q_players q)) keys w) as [[allTimes|e] w1];
    simpl in H; destruct H as [Hc1 Hr]; [|by split].
  unfold lift, ret.
  destruct (ArraySort.sort (compare_time (localeCompare w1)) allTimes) as [sorted|e] eqn:Es;
    simpl; (split; [done|]); [|done].
  apply ArraySortFacts.sort_perm in Es. rewrite Es. by apply Hr.
Qed.

Lemma run_consistent es : forall w,
  cache_consistent w -> cache_consistent (run es w).
Proof.
  induction es as [|e es IH]; intros w Hc; simpl; [done|].
  apply IH. destruct e as [dt|q]; simpl; [done|].
  by apply handler_consistent.
Qed.

(** C8: whatever the process has gone through since its start, every
    record of a response belongs to a course of the registry: its
    [courseKey] is a key of the registry, and its course name, booking link
    and schedule label are those of the entry under that key. *)
Theorem records_match_registry reg clock upstream localeCompare
    (es : list Event) (q : Query) :
  let w := run es (start reg clock upstream localeCompare) in
  Forall (rec_ok (registry (handler q w).2)) (teetimes_of (handler q w).1).
Proof.
  intros w. apply handler_consistent, run_consistent.
  intros key e l He. done.
Qed.

(** ** Discovery is not repeated within 24 hours (C7) *)

Lemma lazy_discovery :
  let w1 := (handler lazy_query lazy_world).2 in
  let w2 := (handler lazy_query (tick 3600000 w1)).2 in
  map c_req (calls w1)
  = [ReqDiscover 555;
     ReqTimes (QStr "06-15-2025") (Some 2) (CNum 777) "https://example.test/555"]
  /\ registry w1
     = [("muni", mkCourse "Muni" 555 [mkSchedule (Some 777) "Main"]
                   "https://example.test/555")]
  /\ map c_req (calls w2)
     = [ReqDiscover 555;
        ReqTimes (QStr "06-15-2025") (Some 2) (CNum 777) "https://example.test/555";
        ReqTimes (QStr "06-15-2025") (Some 2) (CNum 777) "https://example.test/555"].
Proof. vm_compute. done. Qed.






Lemma expired_mono e t1 t2 :
  NodeCache.expired e t1 = true -> t1 <= t2 -> NodeCache.expired e t2 = true.
Proof.
  unfold NodeCache.expired. intros [H1 H2]%andb_true_iff Hle.
  apply andb_true_iff. split; [done|]. apply Z.ltb_lt in H2. apply Z.ltb_lt. lia.
Qed.




Lemma times_key_not_schedule_key key sid date players cid :
  times_key key sid date players <> schedule_key cid.
Proof. unfold times_key, schedule_key. simpl. discriminate. Qed.




















(** ** Repeated queries and the times cache (C6) *)


Lemma fetch_schedule_known key c date players i sch results w :
  known (id sch) = true ->
  fetch_schedule key c date players i sch results w
  = cached_or_fetched key c date players sch (sched_sid sch) results w.
Proof.
  unfold known, fetch_schedule, sched_sid, bind. intros Hk. rewrite Hk.
  unfold ret. destruct (id sch) as [n|]; [|done]. simpl in *. by rewrite Hk.
Qed.



Lemma cached_or_fetched_unfold key c date players sch sid results w :
  let K := times_key key sid date players in
  let fetched :=
    try_catch
      (let* data := axios_get (ReqTimes date players sid (c_bookingUrl c)) in
       let* times := lift (normalize_all c key sch data) in
       let* _ := NodeCache.set K (CArr times) NodeCache.stdTTL in
       ret (results ++ times))
      (fun _ => ret results) in
  cached_or_fetched key c date players sch sid results w
  = match cache w !! K with
    | Some e =>
        if NodeCache.expired e (now w) then
          fetched (set_cache (delete K (cache w)) w)
        else if sid_truthy (Some (v e)) then
          match v e with
          | CArr l => (Ok (results ++ l), w)
          | CNum _ => (Throw (TypeError "cached is not iterable"), w)
          end
        else fetched w
    | None => fetched w
    end.
Proof.
  intros K fetched. unfold cached_or_fetched. fold K. fold fetched.
  unfold bind, NodeCache.get.
  destruct (cache w !! K) as [e|]; [|done].
  destruct (NodeCache.expired e (now w)); [done|].
  destruct (sid_truthy (Some (v e))) eqn:Htr; [|done].
  by destruct (v e).
Qed.

(** What [cached_or_fetched] does: it answers from a live list in the
    cache and leaves the world alone (or throws on a cached number), or
    else it makes one call, and caches the records when the call succeeded
    and the slot mapping accepted the reply. *)
Lemma cached_or_fetched_spec key c date players sch sid results w :
  let K := times_key key sid date players in
  let req := ReqTimes date players sid (c_bookingUrl c) in
  let rp := upstream w (length (calls w)) req in
  let out := cached_or_fetched key c date players sch sid results w in
  (out.2 = w
   /\ ((exists e l, cache w !! K = Some e
          /\ NodeCache.expired e (now w) = false /\ v e = CArr l
          /\ out.1 = Ok (results ++ l))
       \/ exists e, out.1 = Throw e))
  \/ (calls out.2 = calls w ++ [mkCall req (now w) rp]
      /\ now out.2 = now w + Z.of_N (elapsed rp)
      /\ registry out.2 = registry w
      /\ (forall e l, cache w !! K = Some e -> v e = CArr l ->
            NodeCache.expired e (now w) = true)
      /\ exists c0, (forall k, k <> K -> c0 !! k = cache w !! k)
         /\ (forall k e, c0 !! k = Some e -> cache w !! k = Some e)
         /\ match result rp with
            | HttpOk data =>
                match normalize_all c key sch data with
                | Ok times =>
                    out.1 = Ok (results ++ times)
                    /\ cache out.2
                       = <[K := mkEntry (CArr times)
                                   (NodeCache.livetime NodeCache.stdTTL (now out.2))]> c0
                | Throw _ => out.1 = Ok results /\ cache out.2 = c0
                end
            | HttpFail _ => out.1 = Ok results /\ cache out.2 = c0
            end).
Proof.
  intros K req rp out. subst out.
  assert (Hmiss : forall w0, calls w0 = calls w -> now w0 = now w ->
            registry w0 = registry w -> upstream w0 = upstream w ->
            (forall k, k <> K -> cache w0 !! k = cache w !! k) ->
            (forall k e, cache w0 !! k = Some e -> cache w !! k = Some e) ->
            let out := try_catch
              (let* data := axios_get req in
               let* times := lift (normalize_all c key sch data) in
               let* _ := NodeCache.set K (CArr times) NodeCache.stdTTL in
               ret (results ++ times))
              (fun _ => ret results) w0 in
            calls out.2 = calls w ++ [mkCall req (now w) rp]
            /\ now out.2 = now w + Z.of_N (elapsed rp)
            /\ registry out.2 = registry w
            /\ exists c0, (forall k, k <> K -> c0 !! k = cache w !! k)
               /\ (forall k e, c0 !! k = Some e -> cache w !! k = Some e)
               /\ match result rp with
                  | HttpOk data =>
                      match normalize_all c key sch data with
                      | Ok times =>
                          out.1 = Ok (results ++ times)
                          /\ cache out.2
                             = <[K := mkEntry (CArr times)
                                   (NodeCache.livetime NodeCache.stdTTL (now out.2))]> c0
                      | Throw _ => out.1 = Ok results /\ cache out.2 = c0
                      end
                  | HttpFail _ => out.1 = Ok results /\ cache out.2 = c0
                  end).
  { intros w0 Hc Ht Hr Hu Hk Hsub.
    unfold try_catch, bind, axios_get, lift, NodeCache.set, ret, after_call.
    rewrite Hu, Hc, Ht, Hr. fold rp.
    destruct (result rp) as [data|msg]; simpl.
    - destruct (normalize_all c key sch data) as [times|e]; simpl.
      + split_and!; try done. by exists (cache w0).
      + split_and!; try done. by exists (cache w0).
    - split_and!; try done. by exists (cache w0). }
  rewrite cached_or_fetched_unfold. fold K. fold req.
  destruct (cache w !! K) as [e|] eqn:He.
  - destruct (NodeCache.expired e (now w)) eqn:Hex.
    + right. simpl.
      destruct (Hmiss (set_cache (delete K (cache w)) w)) as (H1 & H2 & H3 & H4);
        try done.
      { intros k Hk. simpl. by rewrite lookup_delete_ne. }
      { intros k e' He'. simpl in He'. by apply lookup_delete_Some in He' as [_ ?]. }
      split_and!; [done|done|done| |done]. intros e' l [= <-] _. done.
    + destruct (sid_truthy (Some (v e))) eqn:Htr.
      * left. destruct (v e) as [n|l] eqn:Hv; simpl.
        -- split; [done|]. right. by eexists.
        -- split; [done|]. left. by exists e, l.
      * right. destruct (Hmiss w) as (H1 & H2 & H3 & H4); try done.
        split_and!; [done|done|done| |done].
        intros e' l [= <-] Hv. rewrite Hv in Htr. done.
  - right. simpl. destruct (Hmiss w) as (H1 & H2 & H3 & H4); try done.
Qed.





(** ** The patterns of the discovery (C5) *)

Module PatternFacts.
Import Pattern Regex.







Lemma app_cons x (a b : string) : String x a +:+ b = String x (a +:+ b).
Proof. reflexivity. Qed.

Lemma app_nil (b : string) : "" +:+ b = b.
Proof. reflexivity. Qed.



Lemma length_app_string (a b : string) :
  String.length (a +:+ b) = (String.length a + String.length b)%nat.
Proof. induction a as [|x a IH]; [done|]. rewrite app_cons. simpl. by rewrite IH. Qed.









(** The matcher on each kind of atom. *)




















(** [String.prototype.match] finds the first match in the sense of the
    specification. *)
Section Search.
Context (r : list Atom) (at_start : string -> string -> Prop).
Hypothesis exec_at : forall s ds, exec r s None = Some (Some ds) <-> at_start s ds.
Hypothesis exec_capture : forall s, exec r s None <> Some None.





End Search.

End PatternFacts.






Lemma discover_examples :
  discover_result (HttpOk (JStr booking_page)) = Some 777
  /\ discover_result
       (HttpOk (JStr ("SCHEDULES = [{" +:+ Pattern.quoted_text "id" +:+ ": 4242 , "
                        +:+ Pattern.quoted_text "facility_id" +:+ ": 9}]")))
     = Some 4242
  /\ discover_result (HttpOk (JStr "<html>no configuration here</html>")) = None
  /\ discover_result (HttpOk (JObj [])) = None
  /\ discover_result (HttpFail "Network Error") = None.
Proof. vm_compute. done. Qed.


(** ** [parseInt] on examples *)

Lemma parse_tests :
  parseInt " -0x1F" = Some (-31) /\ parseInt "12px" = Some 12 /\ parseInt "" = None
  /\ parseInt "007" = Some 7 /\ parseInt "+5" = Some 5 /\ parseInt "x" = None
  /\ parseInt "0x" = None /\ parseInt "-" = None /\ parseInt "2" = Some 2
  /\ parseInt "0" = Some 0 /\ parseInt "0X10" = Some 16.
Proof. vm_compute. done. Qed.

(** ** Keys that are not registered, and the isolation of failures *)

(** A key that is neither registered nor a member of [Object.prototype]
    yields no record, no error and no effect. *)
Lemma unknown_key_skipped key date players w :
  get_course (registry w) key = Undefined ->
  fetchTeeTimes key date players w = (Ok [], w).
Proof. intros H. unfold fetchTeeTimes. by rewrite H. Qed.

Lemma assoc_None_keys {A : Type} key (r r' : list (string * A)) :
  map fst r' = map fst r -> assoc key r = None -> assoc key r' = None.
Proof.
  revert r'. induction r as [|[k c] r IH]; intros [|[k' c'] r'] Hk; try done.
  simpl in *. injection Hk as -> Hk. destruct (String.eqb key k); [done|]. by apply IH.
Qed.

Lemma get_course_Undefined_evolves w w' key :
  world_evolves w w' -> get_course (registry w) key = Undefined ->
  get_course (registry w') key = Undefined.
Proof.
  intros (new & _ & _ & _ & _ & Hr) H. apply registry_evolves_keys in Hr.
  unfold get_course in *. destruct (assoc key (registry w)) eqn:E; [done|].
  by rewrite (assoc_None_keys key (registry w) (registry w') Hr E).
Qed.

Lemma run_all_app {A : Type} (ms1 ms2 : list (M A)) : forall w,
  run_all (ms1 ++ ms2) w
  = ((run_all ms1 w).1 ++ (run_all ms2 (run_all ms1 w).2).1,
     (run_all ms2 (run_all ms1 w).2).2).
Proof.
  induction ms1 as [|m ms1 IH]; intros w; simpl.
  - by destruct (run_all ms2 w).
  - destruct (m w) as [r w1]. rewrite IH.
    destruct (run_all ms1 w1) as [rs1 w2]. simpl.
    by destruct (run_all ms2 w2).
Qed.

Lemma settle_skip_empty {A : Type} (rs1 rs2 : list (Res (list A))) :
  res_bind (settle (rs1 ++ Ok [] :: rs2)) (fun ls => Ok (concat ls))
  = res_bind (settle (rs1 ++ rs2)) (fun ls => Ok (concat ls)).
Proof.
  induction rs1 as [|r rs1 IH]; simpl.
  - by destruct (settle rs2).
  - destruct r as [l|e]; [|done]. simpl.
    destruct (settle (rs1 ++ Ok [] :: rs2)) as [ls|e],
      (settle (rs1 ++ rs2)) as [ls'|e']; simpl in *; try done.
    by injection IH as ->.
Qed.

(** In the fan-out an unknown key contributes nothing: the request is
    answered as if the key had not been listed. *)
Lemma unknown_key_excluded date players keys1 key keys2 w :
  get_course (registry w) (Str.trim key) = Undefined ->
  gather date players (keys1 ++ key :: keys2) w
  = gather date players (keys1 ++ keys2) w.
Proof.
  intros Hu. unfold gather, bind, Promise_all, ret.
  set (f := fun key => fetchTeeTimes (Str.trim key) date players).
  rewrite !map_app, !run_all_app. cbn [map run_all].
  pose proof (run_all_evolves (map f keys1)) as Hev.
  specialize (Hev ltac:(apply Forall_forall; intros m (k & -> & _)%list_elem_of_fmap w0;
                        apply fetchTeeTimes_evolves) w).
  destruct (run_all (map f keys1) w) as [rs1 w1]. cbn [fst snd] in *.
  assert (f key w1 = (Ok [], w1)) as Hk
    by (apply unknown_key_skipped; by eapply get_course_Undefined_evolves).
  rewrite !Hk.
  destruct (run_all (map f keys2) w1) as [rs2 w2]. cbn [fst snd].
  pose proof (settle_skip_empty rs1 rs2) as H. unfold res_bind in H.
  destruct (settle (rs1 ++ Ok [] :: rs2)), (settle (rs1 ++ rs2));
    simpl in *; congruence.
Qed.

Lemma fetched_typed key c date players sch sid results w :
  cache_typed w ->
  let out :=
    try_catch
      (let* data := axios_get (ReqTimes date players sid (c_bookingUrl c)) in
       let* times := lift (normalize_all c key sch data) in
       let* _ := NodeCache.set (times_key key sid date players) (CArr times)
                   NodeCache.stdTTL in
       ret (results ++ times))
      (fun _ => ret results) w in
  cache_typed out.2 /\ exists extra, out.1 = Ok (results ++ extra).
Proof.
  intros Hty. unfold try_catch, bind, axios_get, lift, NodeCache.set, ret.
  destruct (result _) as [data|msg]; simpl.
  - destruct (normalize_all c key sch data) as [times|e]; simpl.
    + split; [|by exists times].
      intros key' sid' date' players' e He. simpl in He.
      apply lookup_insert_Some in He as [[_ <-]|[_ He]]; [by eexists|by eapply Hty].
    + split; [done|]. exists []. by rewrite app_nil_r.
  - split; [done|]. exists []. by rewrite app_nil_r.
Qed.

(** With a well-typed cache an iteration never raises and never loses
    the records gathered so far: a schedule that fails adds nothing. *)
Lemma cached_or_fetched_typed key c date players sch sid results w :
  cache_typed w ->
  post (cached_or_fetched key c date players sch sid results) w (fun r w' =>
    cache_typed w' /\ exists extra, r = Ok (results ++ extra)).
Proof.
  intros Hty. unfold post. rewrite cached_or_fetched_unfold. cbv zeta.
  destruct (cache w !! times_key key sid date players) as [e0|] eqn:E0;
    [|by apply fetched_typed].
  destruct (NodeCache.expired e0 (now w)).
  - apply fetched_typed. intros key' sid' date' players' e He. simpl in He.
    apply lookup_delete_Some in He as [_ He]. by eapply Hty.
  - destruct (Hty _ _ _ _ _ E0) as [l Hl]. rewrite Hl. simpl.
    split; [done|]. by exists l.
Qed.

Lemma resolve_schedule_id_typed key c i w :
  cache_typed w ->
  post (resolve_schedule_id key c i) w (fun r w' =>
    cache_typed w' /\ exists sid, r = Ok sid).
Proof.
  intros Hty. unfold resolve_schedule_id. apply post_bind.
  assert (Hrest : forall scheduleId w1, cache_typed w1 ->
    post (if sid_truthy scheduleId then ret scheduleId
          else
            let* found := discoverScheduleId (courseId c) in
            match found with
            | Some n =>
                if negb (n =? 0) then
                  let* _ := NodeCache.set (schedule_key (courseId c)) (CNum n) 86400 in
                  let* _ := assign_schedule_id key i n in
                  ret (Some (CNum n))
                else ret (Some (CNum n))
            | None => ret None
            end) w1 (fun r w' => cache_typed w' /\ exists sid, r = Ok sid)).
  { intros scheduleId w1 Hty1. destruct (sid_truthy scheduleId).
    { apply post_ret. split; [done|by eexists]. }
    apply post_bind. unfold post at 1. rewrite discoverScheduleId_run. simpl.
    destruct (discover_result _) as [n|]; [|split; [done|by eexists]].
    destruct (n =? 0); simpl; [split; [done|by eexists]|].
    apply post_bind, post_set, post_bind. unfold post, assign_schedule_id. simpl.
    split; [|by eexists].
    intros key' sid' date' players' e He. simpl in He.
    rewrite lookup_insert_ne in He
      by (intros Heq; symmetry in Heq; by apply times_key_not_schedule_key in Heq).
    by eapply Hty1. }
  apply post_get; intros; apply Hrest; try done.
  intros key' sid' date' players' e' He'. simpl in He'.
  apply lookup_delete_Some in He' as [_ He']. by eapply Hty.
Qed.

Lemma fetch_schedule_typed key c date players i sch results w :
  cache_typed w ->
  post (fetch_schedule key c date players i sch results) w (fun r w' =>
    cache_typed w' /\ exists extra, r = Ok (results ++ extra)).
Proof.
  intros Hty. unfold fetch_schedule. apply post_bind.
  assert (Hrest : forall (r : Res (option CacheVal)) w1,
    cache_typed w1 /\ (exists sid, r = Ok sid) ->
    match r with
    | Ok scheduleId =>
        post (match scheduleId with
              | Some sid =>
                  if sid_truthy (Some sid) then
                    cached_or_fetched key c date players sch sid results
                  else ret results
              | None => ret results
              end) w1 (fun r w' =>
          cache_typed w' /\ exists extra, r = Ok (results ++ extra))
    | Throw e =>
        cache_typed w1 /\ exists extra, @Throw (list TeeTime) e = Ok (results ++ extra)
    end).
  { intros r w1 [Hty1 [sid ->]].
    assert (post (ret results) w1 (fun r w' =>
      cache_typed w' /\ exists extra, r = Ok (results ++ extra))) as Hret.
    { apply post_ret. split; [done|]. exists []. by rewrite app_nil_r. }
    destruct sid as [sid|]; [|done].
    destruct (sid_truthy (Some sid)); [|done].
    by apply cached_or_fetched_typed. }
  destruct (sid_truthy (CNum <$> id sch)).
  - apply post_ret. apply (Hrest (Ok _) w). split; [done|by eexists].
  - eapply post_mono; [by apply resolve_schedule_id_typed|]. apply Hrest.
Qed.

Lemma fetch_loop_typed key c date players scheds : forall i results w,
  cache_typed w ->
  post (fetch_loop key c date players i scheds results) w (fun r w' =>
    cache_typed w' /\ exists extra, r = Ok (results ++ extra)).
Proof.
  induction scheds as [|sch scheds IH]; intros i results w Hty; simpl.
  - apply post_ret. split; [done|]. exists []. by rewrite app_nil_r.
  - apply post_bind. eapply post_mono; [by apply fetch_schedule_typed|].
    intros r w1 [Hty1 [extra ->]]. eapply post_mono; [by apply IH|].
    intros r w2 [Hty2 [extra' ->]]. split; [done|].
    exists (extra ++ extra'). by rewrite app_assoc.
Qed.

(** [fetchTeeTimes] preserves the typing of the cache, and raises only
    for a key inherited from [Object.prototype]. *)
Lemma fetchTeeTimes_typed key date players w :
  cache_typed w ->
  cache_typed (fetchTeeTimes key date players w).2
  /\ (get_course (registry w) key <> Inherited ->
      exists rs, (fetchTeeTimes key date players w).1 = Ok rs).
Proof.
  intros Hty. unfold fetchTeeTimes.
  destruct (get_course (registry w) key) as [c| |].
  - pose proof (fetch_loop_typed key c date players (schedules c) 0%nat [] w Hty) as H.
    unfold post in H. destruct H as [H1 [extra H2]]. split; [done|].
    intros _. by eexists.
  - split; [done|]. by intros [].
  - split; [done|]. intros _. by eexists.
Qed.

Lemma run_all_typed date players keys : forall w,
  cache_typed w ->
  cache_typed
    (run_all (map (fun key => fetchTeeTimes (Str.trim key) date players) keys) w).2.
Proof.
  induction keys as [|key keys IH]; intros w Hty; simpl; [done|].
  destruct (fetchTeeTimes_typed (Str.trim key) date players w Hty) as [H _].
  destruct (fetchTeeTimes (Str.trim key) date players w) as [r w1]. simpl in H.
  specialize (IH w1 H). by destruct (run_all _ w1).
Qed.

Lemma handler_typed q w : cache_typed w -> cache_typed (handler q w).2.
Proof.
  intros Hty. unfold handler. destruct (q_date q) as [date|]; [|done].
  destruct (q_truthy (Some date)); [|done].
  destruct (courseKeys (q_courses q) (registry w)) as [keys|e]; [|done].
  unfold aggregate, bind.
  assert (cache_typed (gather date (parse_players (q_players q)) keys w).2) as H.
  { unfold gather, bind, Promise_all, ret.
    pose proof (run_all_typed date (parse_players (q_players q)) keys w Hty) as H.
    destruct (run_all _ w) as [rs w1]. simpl in H. by destruct (settle rs). }
  destruct (gather date (parse_players (q_players q)) keys w) as [[allTimes|e] w1];
    [|done].
  unfold lift, ret. simpl in *.
  by destruct (ArraySort.sort (compare_time (localeCompare w1)) allTimes).
Qed.

Lemma run_typed es : forall w, cache_typed w -> cache_typed (run es w).
Proof.
  induction es as [|e es IH]; intros w Hty; simpl; [done|].
  apply IH. destruct e as [dt|q]; simpl; [done|by apply handler_typed].
Qed.

(** In every world that the process reaches, [fetchTeeTimes] returns
    normally for every key that is not inherited from [Object.prototype]:
    what fails inside stays inside. *)
Lemma fetchTeeTimes_returns reg clock upstream localeCompare (es : list Event)
    key date players :
  let w := run es (start reg clock upstream localeCompare) in
  get_course (registry w) key <> Inherited ->
  exists rs, (fetchTeeTimes key date players w).1 = Ok rs.
Proof.
  intros w. apply fetchTeeTimes_typed, run_typed.
  intros key' sid' date' players' e He. done.
Qed.

(** ** Cached records are kept until they expire *)





Lemma kept_axios D req : stepwise (kept D) (axios_get req).
Proof.
  intros w.
  assert (kept D w (after_call req w)).
  { split; [simpl; lia|]. intros _ k e l He _ _. done. }
  by apply post_axios.
Qed.











(** ** The course list *)

Lemma registry_evolves_entries new r r' :
  registry_evolves new r r' ->
  map (fun kc : string * Course => mkCourseInfo kc.1 (name kc.2) (c_bookingUrl kc.2)) r'
  = map (fun kc : string * Course => mkCourseInfo kc.1 (name kc.2) (c_bookingUrl kc.2)) r.
Proof.
  induction 1 as [|[k c] [k' c'] r r' [Hk (Hn & _ & Hb & _)] _ IH]; [done|].
  simpl in *. by rewrite Hk, Hn, Hb, IH.
Qed.

Lemma courses_handler_evolves w w' :
  world_evolves w w' -> courses_handler w' = courses_handler w.
Proof.
  intros (new & _ & _ & _ & _ & Hr). by eapply registry_evolves_entries.
Qed.

Lemma assoc_elem_of {A : Type} key (l : list (string * A)) a :
  assoc key l = Some a -> (key, a) ∈ l.
Proof.
  induction l as [|[k x] l IH]; simpl; [done|].
  destruct (String.eqb key k) eqn:E.
  - apply String.eqb_eq in E as ->. intros [= ->]. apply list_elem_of_here.
  - intros H. apply list_elem_of_further. auto.
Qed.

Lemma run_snoc es e w : run (es ++ [e]) w = step (run es w) e.
Proof. unfold run. by rewrite foldl_app. Qed.

(** X1: the answer of [/api/courses] is the same at every moment of the
    life of the process, whatever it has served; its keys are the keys over
    which [/api/teetimes] fans out when [courses] is omitted; and every
    record of a tee-time response carries the key, the name and the booking
    link of one of its elements. *)
Theorem course_list_stable reg clock upstream localeCompare
    (es : list Event) (q : Query) :
  let w0 := start reg clock upstream localeCompare in
  let w := run es w0 in
  courses_handler w = courses_handler w0
  /\ courseKeys None (registry w) = Ok (map ci_key (courses_handler w0))
  /\ Forall (fun r => mkCourseInfo (courseKey r) (course r) (bookingUrl r)
                        ∈ courses_handler w0)
       (teetimes_of (handler q w).1).
Proof.
  intros w0 w.
  assert (H1 : forall es', courses_handler (run es' w0) = courses_handler w0).
  { intros es'. apply courses_handler_evolves, run_evolves. }
  split_and!.
  - apply H1.
  - unfold courseKeys. simpl. f_equal. rewrite <- (H1 es).
    unfold courses_handler, Object_keys, Object_entries.
    rewrite map_map. done.
  - assert (Hc : cache_consistent w).
    { apply run_consistent. intros key e l He. done. }
    destruct (handler_consistent q w Hc) as [_ Hr].
    eapply Forall_impl; [exact Hr|].
    intros r (c & sch & Ha & Hn & Hb & _). simpl.
    rewrite <- (H1 (es ++ [Get q])), run_snoc. simpl. fold w.
    unfold courses_handler, Object_entries.
    apply list_elem_of_fmap. exists (courseKey r, c). split.
    + simpl. by rewrite Hn, Hb.
    + by apply assoc_elem_of.
Qed.

(** ** The keys of the cache are unambiguous *)

Lemma all_in_app cls a b :
  Pattern.all_in cls (a +:+ b) = Pattern.all_in cls a && Pattern.all_in cls b.
Proof.
  induction a as [|x a IH]; [done|].
  rewrite PatternFacts.app_cons. simpl. rewrite IH. by rewrite andb_assoc.
Qed.

(** Two texts that are cut at the first occurrence of [c]. *)
Lemma cut_first cls c a a' r r' :
  cls c = false -> Pattern.all_in cls a = true -> Pattern.all_in cls a' = true ->
  a +:+ String c r = a' +:+ String c r' -> a = a' /\ r = r'.
Proof.
  intros Hc. revert a'. induction a as [|x a IH]; intros [|x' a'] Ha Ha'.
  - rewrite !PatternFacts.app_nil. by intros [= ->].
  - rewrite PatternFacts.app_nil, PatternFacts.app_cons. intros [= <- _].
    simpl in Ha'. rewrite Hc in Ha'. done.
  - rewrite PatternFacts.app_nil, PatternFacts.app_cons. intros [= -> _].
    simpl in Ha. rewrite Hc in Ha. done.
  - rewrite !PatternFacts.app_cons. intros [= -> H].
    simpl in Ha, Ha'. apply andb_true_iff in Ha as [_ Ha].
    apply andb_true_iff in Ha' as [_ Ha'].
    destruct (IH a' Ha Ha' H) as [-> ->]. done.
Qed.

(** Two texts that are cut at the last occurrence of [c]. *)
Lemma cut_last cls c a a' r r' :
  cls c = false -> Pattern.all_in cls r = true -> Pattern.all_in cls r' = true ->
  a +:+ String c r = a' +:+ String c r' -> a = a' /\ r = r'.
Proof.
  intros Hc Hr Hr'. revert a'. induction a as [|x a IH]; intros [|x' a'].
  - rewrite !PatternFacts.app_nil. by intros [= ->].
  - rewrite PatternFacts.app_nil, PatternFacts.app_cons. intros [= _ ->].
    rewrite all_in_app in Hr. simpl in Hr. rewrite Hc in Hr.
    by rewrite andb_false_r in Hr.
  - rewrite PatternFacts.app_nil, PatternFacts.app_cons. intros [= _ <-].
    rewrite all_in_app in Hr'. simpl in Hr'. rewrite Hc in Hr'.
    by rewrite andb_false_r in Hr'.
  - rewrite !PatternFacts.app_cons. intros [= -> H].
    destruct (IH a' H) as [-> ->]. done.
Qed.

Lemma pretty_N_char_digit x : Str.is_digit (pretty_N_char x) = true.
Proof. unfold pretty_N_char. repeat case_match; reflexivity. Qed.

Lemma pretty_N_go_numeral x : forall s,
  Pattern.all_in is_numeral s = true ->
  Pattern.all_in is_numeral (pretty_N_go x s) = true.
Proof.
  induction (N.lt_wf_0 x) as [x _ IH]; intros s Hs.
  assert (x = 0 \/ 0 < x)%N as [->|Hx] by lia.
  - by rewrite pretty_N_go_0.
  - rewrite pretty_N_go_step by done. apply IH.
    + by apply N.div_lt.
    + simpl. rewrite Hs, andb_true_r. unfold is_numeral.
      by rewrite pretty_N_char_digit.
Qed.

Lemma pretty_N_numeral (x : N) : Pattern.all_in is_numeral (pretty x) = true.
Proof.
  unfold pretty, pretty_N. case_decide; [done|]. by apply pretty_N_go_numeral.
Qed.

(** A rendered integer is made of digits and a sign. *)
Lemma pretty_Z_numeral (z : Z) : Pattern.all_in is_numeral (pretty z) = true.
Proof.
  destruct z as [|p|p]; [done|apply pretty_N_numeral|].
  change (pretty (Z.neg p)) with ("-" +:+ pretty (N.pos p)).
  rewrite all_in_app, pretty_N_numeral. done.
Qed.

Lemma all_in_impl (cls cls' : ascii -> bool) s :
  (forall c, cls c = true -> cls' c = true) ->
  Pattern.all_in cls s = true -> Pattern.all_in cls' s = true.
Proof.
  intros H. induction s as [|x s IH]; simpl; [done|].
  intros [Hx Hs]%andb_true_iff. by rewrite (H x Hx), IH.
Qed.

Lemma numeral_not_underscore c :
  is_numeral c = true -> negb (Ascii.eqb c "_") = true.
Proof. destruct c as [[] [] [] [] [] [] [] []]; vm_compute; done. Qed.

Lemma num_string_numeral_or_NaN p :
  Pattern.all_in (fun c => negb (Ascii.eqb c "_")) (num_string p) = true.
Proof.
  destruct p as [z|]; [|done]. simpl.
  eapply all_in_impl; [apply numeral_not_underscore|apply pretty_Z_numeral].
Qed.

Lemma num_string_inj p p' : num_string p = num_string p' -> p = p'.
Proof.
  destruct p as [z|], p' as [z'|]; simpl; intros H.
  - f_equal. by apply (inj pretty).
  - pose proof (pretty_Z_numeral z) as Hz. rewrite H in Hz. done.
  - pose proof (pretty_Z_numeral z') as Hz. rewrite <- H in Hz. done.
  - done.
Qed.

(** The four parts of a key of the times cache can be read off it, when
    the first two hold no underscore and the last is a rendered number. *)
Lemma times_key_cut k k' s s' d d' p p' :
  no_underscore k -> no_underscore k' -> no_underscore s -> no_underscore s' ->
  "times_" +:+ k +:+ "_" +:+ s +:+ "_" +:+ d +:+ "_" +:+ num_string p
  = "times_" +:+ k' +:+ "_" +:+ s' +:+ "_" +:+ d' +:+ "_" +:+ num_string p' ->
  k = k' /\ s = s' /\ d = d' /\ p = p'.
Proof.
  intros Hk Hk' Hs Hs' H. apply (inj (String.app "times_")) in H.
  change ("_" +:+ ?x) with (String "_" x) in H.
  apply (cut_first (fun c => negb (Ascii.eqb c "_"))) in H as [-> H]; try done.
  change ("_" +:+ ?x) with (String "_" x) in H.
  apply (cut_first (fun c => negb (Ascii.eqb c "_"))) in H as [-> H]; try done.
  change ("_" +:+ ?x) with (String "_" x) in H.
  apply (cut_last (fun c => negb (Ascii.eqb c "_"))) in H as [-> Hp]; try done;
    try apply num_string_numeral_or_NaN.
  split_and!; try done. by apply num_string_inj.
Qed.

Lemma pretty_Z_no_underscore (n : Z) : no_underscore (pretty n).
Proof.
  eapply all_in_impl; [apply numeral_not_underscore|apply pretty_Z_numeral].
Qed.

(** X2: the keys of the times cache are unambiguous.  For course keys
    without an underscore (the six registered keys have none) and numeric
    schedule ids, two keys coincide only for the same course key, the same
    schedule id, the same date text and the same party size: a fetch is
    never answered with the records cached for another course, schedule,
    date or party size. *)
Theorem cache_keys_unambiguous k k' n n' d d' p p' :
  no_underscore k -> no_underscore k' ->
  times_key k (CNum n) d p = times_key k' (CNum n') d' p' ->
  k = k' /\ n = n' /\ qstr d = qstr d' /\ p = p'.
Proof.
  intros Hk Hk'. unfold times_key, sid_string. intros H.
  assert (Hn : no_underscore (pretty n) /\ no_underscore (pretty n')).
  { split; apply pretty_Z_no_underscore. }
  destruct Hn as [Hn Hn'].
  destruct (times_key_cut _ _ _ _ _ _ _ _ Hk Hk' Hn Hn' H) as (Ek & En & Ed & Ep).
  split_and!; [exact Ek| |exact Ed|exact Ep].
  by apply (inj pretty) in En.
Qed.

Lemma cache_keys_unambiguous_witness :
  Forall no_underscore (Object_keys COURSES)
  /\ times_key "lafortune" (CNum 6194) (QStr "06-15-2025") (Some 2)
     = times_key "lafortune" (CNum 6194) (QOther "06-15-2025") (Some 2)
  /\ ("lafortune" = "lafortune" /\ 6194 = 6194
      /\ qstr (QStr "06-15-2025") = qstr (QOther "06-15-2025") /\ Some 2 = Some 2).
Proof.
  split; [repeat constructor|]. split; [reflexivity|].
  apply (cache_keys_unambiguous "lafortune" "lafortune" 6194 6194
           (QStr "06-15-2025") (QOther "06-15-2025") (Some 2) (Some 2));
    reflexivity.
Defined.

(** Without the condition on the course keys the keys of the cache can
    clash: the course [a] with the date [2_x] and the course [a_1] with
    the date [x]. *)
Lemma cache_keys_clash :
  times_key "a" (CNum 1) (QStr "2_x") (Some 2)
  = times_key "a_1" (CNum 2) (QStr "x") (Some 2).
Proof. reflexivity. Qed.

(** ** Keys that are not registered are ignored *)

Lemma gather_unknown date players keys w :
  Forall (fun key => get_course (registry w) (Str.trim key) = Undefined) keys ->
  gather date players keys w = (Ok [], w).
Proof.
  intros H. unfold gather, bind, Promise_all.
  assert (run_all (map (fun key => fetchTeeTimes (Str.trim key) date players) keys) w
          = (map (fun _ => Ok []) keys, w)) as ->.
  { induction H as [|key keys Hk _ IH]; [done|]. simpl.
    rewrite unknown_key_skipped by done. by rewrite IH. }
  assert (forall l : list string,
            settle (map (fun _ => @Ok (list TeeTime) []) l)
            = Ok (map (fun _ => []) l)) as ->.
  { intros l. induction l as [|x l IH]; [done|]. simpl. by rewrite IH. }
  unfold ret. f_equal. f_equal. clear H. induction keys; [done|]. done.
Qed.

(** X3: a course key that is neither registered nor a member of
    [Object.prototype] is ignored.  The request is answered, and the world
    is left, exactly as for the [courses] text without that key; and a
    request that lists only such keys is answered with status 200, count 0
    and no record, without any call to the upstream. *)
Theorem unregistered_key_ignored date players s s' ks1 key ks2 w :
  q_truthy (Some date) = true -> s <> "" ->
  Str.split "," s = ks1 ++ key :: ks2 ->
  get_course (registry w) (Str.trim key) = Undefined ->
  (Str.split "," s' = ks1 ++ ks2 -> s' <> "" ->
   handler (mkQuery (Some date) players (Some (QStr s))) w
   = handler (mkQuery (Some date) players (Some (QStr s'))) w)
  /\ (Forall (fun k => get_course (registry w) (Str.trim k) = Undefined) (ks1 ++ ks2) ->
      handler (mkQuery (Some date) players (Some (QStr s))) w
      = (Response 200 (TeeTimesBody date (parse_players players) 0 []), w)).
Proof.
  intros Hd Hne Hs Hu. split.
  - intros Hs' Hne'. rewrite !handler_courses by done.
    rewrite Hs, Hs'. by rewrite unknown_key_excluded.
  - intros Hall. rewrite handler_courses by done. rewrite Hs.
    rewrite unknown_key_excluded by done. by rewrite gather_unknown.
Qed.

Lemma unregistered_key_ignored_witness :
  let date := QStr "06-15-2025" in
  handler (mkQuery (Some date) None (Some (QStr "lafortune, pebblebeach ,battlecreek")))
    scenario_world
  = handler (mkQuery (Some date) None (Some (QStr "lafortune,battlecreek")))
      scenario_world
  /\ handler (mkQuery (Some date) None (Some (QStr "pebblebeach"))) scenario_world
     = (Response 200 (TeeTimesBody date (Some 2) 0 []), scenario_world).
Proof.
  split.
  - apply (unregistered_key_ignored (QStr "06-15-2025") None
             "lafortune, pebblebeach ,battlecreek" "lafortune,battlecreek"
             ["lafortune"] " pebblebeach " ["battlecreek"] scenario_world);
      [reflexivity|discriminate|reflexivity|reflexivity|reflexivity|discriminate].
  - apply (unregistered_key_ignored (QStr "06-15-2025") None
             "pebblebeach" "" [] "pebblebeach" [] scenario_world);
      [reflexivity|discriminate|reflexivity|reflexivity|constructor].
Defined.

(** ** The discovery branch, step by step *)

(** [resolve_schedule_id] answers from a live, truthy entry of the
    schedule-id cache and leaves the world alone; or else, after an expired
    entry has been dropped, it makes the discovery call. *)
Lemma resolve_schedule_id_spec key c i w :
  let K := schedule_key (courseId c) in
  (exists e, cache w !! K = Some e /\ NodeCache.expired e (now w) = false
     /\ sid_truthy (Some (v e)) = true
     /\ resolve_schedule_id key c i w = (Ok (Some (v e)), w))
  \/ (exists w0, (w0 = w \/ w0 = set_cache (delete K (cache w)) w)
        /\ (forall e, cache w !! K = Some e ->
              NodeCache.expired e (now w) = true \/ sid_truthy (Some (v e)) = false)
        /\ resolve_schedule_id key c i w = discovered key c i w0).
Proof.
  intros K. unfold resolve_schedule_id, bind, NodeCache.get. fold K.
  destruct (cache w !! K) as [e|] eqn:He.
  - destruct (NodeCache.expired e (now w)) eqn:Hex.
    + right. exists (set_cache (delete K (cache w)) w). split; [by right|].
      split; [intros e' [= <-]; by left|].
      cbn [sid_truthy]. rewrite discoverScheduleId_run. unfold discovered.
      destruct (discover_result _) as [n|]; [|done].
      destruct (n =? 0); done.
    + destruct (sid_truthy (Some (v e))) eqn:Ht.
      * left. exists e. done.
      * right. exists w. split; [by left|].
        split; [intros e' [= <-]; by right|].
        rewrite discoverScheduleId_run. unfold discovered.
        destruct (discover_result _) as [n|]; [|done].
        destruct (n =? 0); done.
  - right. exists w. split; [by left|]. split; [done|].
    cbn [sid_truthy]. rewrite discoverScheduleId_run. unfold discovered.
    destruct (discover_result _) as [n|]; [|done].
    destruct (n =? 0); done.
Qed.

Lemma discovered_calls key c i w0 :
  calls (discovered key c i w0).2
  = calls w0 ++ [mkCall (ReqDiscover (courseId c)) (now w0)
                   (upstream w0 (length (calls w0)) (ReqDiscover (courseId c)))].
Proof.
  unfold discovered. destruct (discover_result _) as [n|]; [|done].
  destruct (n =? 0); done.
Qed.

Lemma fetch_schedule_unknown key c date players i sch results w :
  known (id sch) = false ->
  fetch_schedule key c date players i sch results w
  = match resolve_schedule_id key c i w with
    | (Ok (Some sid), w1) =>
        if sid_truthy (Some sid) then
          cached_or_fetched key c date players sch sid results w1
        else (Ok results, w1)
    | (Ok None, w1) => (Ok results, w1)
    | (Throw e, w1) => (Throw e, w1)
    end.
Proof.
  intros Hk. unfold fetch_schedule, bind. unfold known in Hk. rewrite Hk.
  destruct (resolve_schedule_id key c i w) as [[[sid|]|e] w1]; try done.
  by destruct (sid_truthy (Some sid)).
Qed.

Lemma cached_or_fetched_calls key c date players sch sid results w :
  let w' := (cached_or_fetched key c date players sch sid results w).2 in
  exists new, calls w' = calls w ++ new /\ (length new <= 1)%nat
    /\ Forall (fun cl => c_req cl = ReqTimes date players sid (c_bookingUrl c)) new.
Proof.
  pose proof (cached_or_fetched_spec key c date players sch sid results w) as H.
  simpl in H. simpl. destruct H as [[-> _]|(Hc & _)].
  - exists []. rewrite app_nil_r. split_and!; [done|simpl; lia|constructor].
  - eexists. split; [exact Hc|]. split; [simpl; lia|]. by repeat constructor.
Qed.

(** The calls of one iteration: at most a discovery call, made only for
    a schedule without a known id, and then at most a times call. *)
Lemma fetch_schedule_calls key c date players i sch results w :
  let w' := (fetch_schedule key c date players i sch results w).2 in
  exists new, calls w' = calls w ++ new
    /\ (length new <= 2)%nat
    /\ (known (id sch) = true -> (length new <= 1)%nat)
    /\ Forall (fun cl =>
         (exists sid, c_req cl = ReqTimes date players sid (c_bookingUrl c))
         \/ (known (id sch) = false /\ c_req cl = ReqDiscover (courseId c))) new.
Proof.
  simpl. destruct (known (id sch)) eqn:Hk.
  - rewrite fetch_schedule_known by done.
    destruct (cached_or_fetched_calls key c date players sch (sched_sid sch) results w)
      as (new & Hc & Hl & Hf).
    exists new. split_and!; [done|lia|done|].
    eapply Forall_impl; [exact Hf|]. intros cl H. left. eexists. exact H.
  - rewrite fetch_schedule_unknown by done.
    destruct (resolve_schedule_id_spec key c i w) as [(e & _ & _ & _ & ->)|(w0 & Hw0 & _ & ->)].
    + destruct (sid_truthy (Some (v e))).
      * destruct (cached_or_fetched_calls key c date players sch (v e) results w)
          as (new & Hc & Hl & Hf).
        exists new. split_and!; [done|lia|done|].
        eapply Forall_impl; [exact Hf|]. intros cl H. left. eexists. exact H.
      * exists []. rewrite app_nil_r. split_and!; [done|simpl; lia|done|constructor].
    + pose proof (discovered_calls key c i w0) as Hd.
      assert (Hc0 : calls w0 = calls w) by (by destruct Hw0 as [->| ->]).
      rewrite Hc0 in Hd.
      destruct (discovered key c i w0) as [[[sid|]|e] w1]; simpl in Hd.
      * destruct (sid_truthy (Some sid)).
        -- destruct (cached_or_fetched_calls key c date players sch sid results w1)
             as (new & Hc & Hl & Hf).
           eexists. rewrite Hc, Hd, <- app_assoc. split; [done|].
           split; [simpl; lia|]. split; [done|]. constructor; [by right|].
           eapply Forall_impl; [exact Hf|]. intros cl H. left. eexists. exact H.
        -- eexists. split; [exact Hd|]. split; [simpl; lia|]. split; [done|].
           constructor; [by right|constructor].
      * eexists. split; [exact Hd|]. split; [simpl; lia|]. split; [done|].
        constructor; [by right|constructor].
      * eexists. split; [exact Hd|]. split; [simpl; lia|]. split; [done|].
        constructor; [by right|constructor].
Qed.

(** ** Invariants of the request handler

    An invariant [I] of the world and a property [P] of the records of a
    course key that every iteration of the loop of [fetchTeeTimes]
    maintains are maintained by the handler: every record of the response
    has the property [P] for one of the keys of the request. *)

Lemma settle_Forall2 {A B : Type} (Q : B -> A -> Prop) (keys : list B)
    (rs : list (Res A)) l :
  Forall2 (fun key r => forall a, r = Ok a -> Q key a) keys rs ->
  settle rs = Ok l -> Forall2 Q keys l.
Proof.
  intros H. revert l. induction H as [|key r keys rs Hr _ IH]; intros l; simpl.
  - by intros [= <-].
  - destruct r as [a|]; simpl; [|done].
    destruct (settle rs) as [l'|]; simpl; [|done].
    intros [= <-]. constructor; auto.
Qed.

Lemma Forall2_concat_keys {A B : Type} (Q : B -> A -> Prop) (keys : list B)
    (ls : list (list A)) :
  Forall2 (fun key l => Forall (Q key) l) keys ls ->
  Forall (fun x => exists key, key ∈ keys /\ Q key x) (concat ls).
Proof.
  induction 1 as [|key l keys ls Hl _ IH]; simpl; [constructor|].
  apply Forall_app. split.
  - eapply Forall_impl; [exact Hl|]. intros x Hx. exists key. split; [|done].
    apply list_elem_of_here.
  - eapply Forall_impl; [exact IH|]. intros x (k & Hk & Hx). exists k. split; [|done].
    by apply list_elem_of_further.
Qed.

Section Lift.
Context (I : World -> Prop) (P : string -> World -> TeeTime -> Prop).
Context (date : QVal) (players : option Z).

Hypothesis P_evolves :
  forall key w w' r, world_evolves w w' -> P key w r -> P key w' r.
Hypothesis step : forall key c i sch results w,
  I w -> aligned key c i w -> schedules c !! i = Some sch ->
  Forall (P key w) results ->
  post (fetch_schedule key c date players i sch results) w (fun r w' =>
    I w' /\ forall rs, r = Ok rs -> Forall (P key w') rs).

Lemma lift_fetch_loop key c scheds : forall i results w,
  I w -> aligned key c i w -> drop i (schedules c) = scheds ->
  Forall (P key w) results ->
  post (fetch_loop key c date players i scheds results) w (fun r w' =>
    I w' /\ forall rs, r = Ok rs -> Forall (P key w') rs).
Proof.
  induction scheds as [|sch scheds IH]; intros i results w HI Hal Hdrop Hres; simpl.
  - apply post_ret. split; [done|]. by intros rs [= <-].
  - assert (Hi : schedules c !! i = Some sch).
    { rewrite <- (Nat.add_0_r i), <- lookup_drop, Hdrop. done. }
    apply post_bind. eapply post_mono.
    + apply post_and; [by apply fetch_schedule_evolves|by apply step].
    + intros [results'|e] w1 [[Hev Hal1] [HI1 Hres1]]; [|split; [done|done]].
      apply IH; try done; [|by apply Hres1].
      replace (S i) with (i + 1)%nat by lia. by rewrite <- drop_drop, Hdrop.
Qed.

Lemma lift_fetchTeeTimes key w :
  I w ->
  post (fetchTeeTimes key date players) w (fun r w' =>
    I w' /\ forall rs, r = Ok rs -> Forall (P key w') rs).
Proof.
  intros HI. unfold post, fetchTeeTimes.
  destruct (get_course (registry w) key) as [c| |] eqn:E.
  - apply lift_fetch_loop; try done.
    exists c. split_and!; try done. by apply assoc_get_course.
  - split; [done|done].
  - split; [done|]. by intros rs [= <-].
Qed.

Lemma lift_run_all keys : forall w,
  I w ->
  let out := run_all (map (fun key => fetchTeeTimes (Str.trim key) date players) keys) w in
  I out.2
  /\ Forall2 (fun key r => forall rs, r = Ok rs -> Forall (P (Str.trim key) out.2) rs)
       keys out.1.
Proof.
  induction keys as [|key keys IH]; intros w HI; simpl; [by split|].
  pose proof (lift_fetchTeeTimes (Str.trim key) w HI) as H.
  unfold post in H.
  destruct (fetchTeeTimes (Str.trim key) date players w) as [r w1]. simpl in H.
  destruct H as [HI1 Hr]. specialize (IH w1 HI1). simpl in IH.
  pose proof (run_all_evolves
    (map (fun key => fetchTeeTimes (Str.trim key) date players) keys)) as Hev.
  specialize (Hev ltac:(apply Forall_forall; intros m (k & -> & _)%list_elem_of_fmap w0;
                        apply fetchTeeTimes_evolves) w1).
  destruct (run_all _ w1) as [rs w2]. simpl in *. destruct IH as [HI2 Hrs].
  split; [done|]. constructor; [|done].
  intros l Hl. eapply Forall_impl; [by apply Hr|].
  intros x. by apply P_evolves.
Qed.

Lemma lift_gather keys w :
  I w ->
  post (gather date players keys) w (fun r w' =>
    I w'
    /\ forall rs, r = Ok rs ->
         Forall (fun x => exists key, key ∈ keys /\ P (Str.trim key) w' x) rs).
Proof.
  intros HI. unfold post, gather, bind, Promise_all, ret.
  pose proof (lift_run_all keys w HI) as H. simpl in H.
  destruct (run_all _ w) as [rs w1]. simpl in H. destruct H as [HI1 Hrs].
  destruct (settle rs) as [ls|e] eqn:Es; simpl; (split; [done|]); [|done].
  intros l [= <-].
  apply (Forall2_concat_keys (fun key x => P (Str.trim key) w1 x)).
  by eapply (settle_Forall2 (fun key l => Forall (P (Str.trim key) w1) l)).
Qed.

Lemma lift_handler q w :
  q_date q = Some date -> parse_players (q_players q) = players ->
  I w ->
  I (handler q w).2
  /\ Forall (fun x => exists keys key,
               courseKeys (q_courses q) (registry w) = Ok keys
               /\ key ∈ keys /\ P (Str.trim key) (handler q w).2 x)
       (teetimes_of (handler q w).1).
Proof.
  intros Hd Hp HI. unfold handler. rewrite Hd.
  destruct (q_truthy (Some date)); [|by split].
  destruct (courseKeys (q_courses q) (registry w)) as [keys|e]; [|by split].
  unfold aggregate, bind. rewrite Hp.
  pose proof (lift_gather keys w HI) as H.
  unfold post in H.
  destruct (gather date players keys w) as [[allTimes|e] w1];
    simpl in H; destruct H as [HI1 Hr]; [|by split].
  unfold lift, ret.
  destruct (ArraySort.sort (compare_time (localeCompare w1)) allTimes) as [sorted|e] eqn:Es;
    simpl; (split; [done|]); [|done].
  apply ArraySortFacts.sort_perm in Es. rewrite Es.
  eapply Forall_impl; [by apply Hr|].
  intros x (key & Hk & Hx). by exists keys, key.
Qed.

End Lift.

(** An invariant of every iteration that the clock maintains is an
    invariant of every run. *)
Lemma lift_run (I : World -> Prop) :
  (forall dt w, I w -> I (tick dt w)) ->
  (forall date players key c i sch results w,
     I w -> aligned key c i w -> schedules c !! i = Some sch ->
     I (fetch_schedule key c date players i sch results w).2) ->
  forall es w, I w -> I (run es w).
Proof.
  intros Htick Hstep es. induction es as [|e es IH]; intros w HI; simpl; [done|].
  apply IH. destruct e as [dt|q]; simpl; [by apply Htick|].
  destruct (q_date q) as [date|] eqn:Hd.
  - eapply (lift_handler I (fun _ _ _ => True) date (parse_players (q_players q)));
      try done.
    intros key c i sch results w0 HI0 Hal Hi _. unfold post. split; [by apply Hstep|].
    intros rs _. apply Forall_forall. done.
  - unfold handler. by rewrite Hd.
Qed.

(** ** Facilities whose schedule ids are known are never discovered *)

Lemma all_known_evolves new cid r r' :
  registry_evolves new r r' -> all_known cid r -> all_known cid r'.
Proof.
  unfold all_known. induction 1 as [|[k c] [k' c'] r r' [Hk Hc] _ IH]; [done|].
  intros [Hkc Hr]%Forall_cons. constructor; [|by apply IH].
  simpl in *. intros Hcid.
  assert (Hcid' : courseId c = cid).
  { destruct Hc as (_ & <- & _). done. }
  by rewrite (course_evolves_known _ _ _ Hc (Hkc Hcid')); auto.
Qed.

Lemma aligned_schedule key c i w sch :
  aligned key c i w -> schedules c !! i = Some sch ->
  exists creg, (key, creg) ∈ registry w /\ courseId creg = courseId c
    /\ schedules creg !! i = Some sch.
Proof.
  intros (creg & Ha & _ & Hcid & _ & _ & _ & Hdrop) Hi.
  exists creg. split_and!; [by apply assoc_elem_of|done|].
  rewrite <- (Nat.add_0_r i), <- lookup_drop, Hdrop, lookup_drop, Nat.add_0_r. done.
Qed.

Lemma run_undiscovered cid n0 es w :
  all_known cid (registry w) -> (n0 <= length (calls w))%nat ->
  Forall (fun cl => c_req cl <> ReqDiscover cid) (drop n0 (calls w)) ->
  Forall (fun cl => c_req cl <> ReqDiscover cid) (drop n0 (calls (run es w))).
Proof.
  intros Hk Hn Hf.
  enough (all_known cid (registry (run es w))
          /\ (n0 <= length (calls (run es w)))%nat
          /\ Forall (fun cl => c_req cl <> ReqDiscover cid) (drop n0 (calls (run es w))))
    as (_ & _ & H) by done.
  apply (lift_run (fun w => all_known cid (registry w)
                            /\ (n0 <= length (calls w))%nat
                            /\ Forall (fun cl => c_req cl <> ReqDiscover cid)
                                 (drop n0 (calls w)))); [done| |done].
  clear. intros date players key c i sch results w (Hk & Hn & Hf) Hal Hi.
  pose proof (fetch_schedule_evolves key c date players i sch results w Hal Hi) as Hev.
  unfold post in Hev. destruct Hev as [(new' & _ & _ & _ & _ & Hreg) _].
  destruct (fetch_schedule_calls key c date players i sch results w)
    as (new & Hc & _ & _ & Hnew). simpl in Hc.
  split_and!.
  - by eapply all_known_evolves.
  - rewrite Hc, length_app. lia.
  - rewrite Hc, drop_app_le by done. apply Forall_app. split; [done|].
    eapply Forall_impl; [exact Hnew|]. intros cl [[sid ->]|[Hunk ->]]; [done|].
    intros [= Hcid].
    destruct (aligned_schedule key c i w sch Hal Hi) as (creg & Hin & Hcid' & Hi').
    unfold all_known in Hk. rewrite Forall_forall in Hk.
    specialize (Hk _ Hin ltac:(simpl; congruence)). simpl in Hk.
    rewrite Forall_forall in Hk.
    rewrite (Hk sch) in Hunk; [done|]. by eapply list_elem_of_lookup_2.
Qed.

(** X4: once every schedule of a facility has a known id, however the id
    came to be known, the process never fetches the booking page of that
    facility again, whatever it serves and however long it runs: the
    discovery call is made only on behalf of a schedule without an id.  In
    particular the registry as written, where every id is known, makes no
    discovery call at all. *)
Theorem known_ids_never_discovered (w : World) (es : list Event) (cid : Z) :
  all_known cid (registry w) ->
  Forall (fun cl => c_req cl <> ReqDiscover cid)
    (drop (length (calls w)) (calls (run es w))).
Proof.
  intros Hk. apply run_undiscovered; [done|done|].
  rewrite drop_all. constructor.
Qed.

Lemma known_ids_never_discovered_witness :
  all_known 20922 COURSES
  /\ Forall (fun cl => c_req cl <> ReqDiscover 20922)
       (calls (run [Get scenario_query; Tick 400000; Get gap_query] scenario_world)).
Proof.
  assert (H : all_known 20922 COURSES).
  { repeat constructor. }
  split; [exact H|].
  exact (known_ids_never_discovered scenario_world
           [Get scenario_query; Tick 400000; Get gap_query] 20922 H).
Defined.

(** ** The number of calls of a request *)

Lemma fetch_loop_budget key c date players scheds : forall i results w,
  let w' := (fetch_loop key c date players i scheds results w).2 in
  exists new, calls w' = calls w ++ new
    /\ (length new
        <= length scheds
           + length (List.filter (fun s => negb (known (id s))) scheds))%nat.
Proof.
  induction scheds as [|sch scheds IH]; intros i results w; simpl.
  - exists []. by rewrite app_nil_r.
  - unfold bind.
    destruct (fetch_schedule_calls key c date players i sch results w)
      as (new1 & Hc1 & Hl2 & Hl1 & _). simpl in Hc1.
    destruct (fetch_schedule key c date players i sch results w) as [[results'|e] w1];
      simpl in Hc1.
    + destruct (IH (S i) results' w1) as (new2 & Hc2 & Hl). simpl in Hc2.
      exists (new1 ++ new2). rewrite Hc2, Hc1, <- app_assoc. split; [done|].
      rewrite length_app. destruct (known (id sch)); simpl.
      * specialize (Hl1 eq_refl). lia.
      * lia.
    + simpl. exists new1. split; [done|].
      destruct (known (id sch)); simpl; [specialize (Hl1 eq_refl)|]; lia.
Qed.

Lemma fetchTeeTimes_budget key date players w :
  let w' := (fetchTeeTimes key date players w).2 in
  exists new, calls w' = calls w ++ new
    /\ (length new
        <= schedule_count (registry w) key + unknown_count (registry w) key)%nat.
Proof.
  simpl. unfold fetchTeeTimes, schedule_count, unknown_count.
  destruct (get_course (registry w) key) as [c| |].
  - apply fetch_loop_budget.
  - exists []. by rewrite app_nil_r.
  - exists []. by rewrite app_nil_r.
Qed.

Lemma get_course_evolves new r r' key :
  registry_evolves new r r' ->
  match get_course r key with
  | Own c => exists c', get_course r' key = Own c' /\ course_evolves new c c'
  | p => get_course r' key = p
  end.
Proof.
  intros Hr. unfold get_course.
  destruct (assoc key r) as [c|] eqn:Ha.
  - destruct (registry_evolves_assoc _ _ _ _ _ Hr Ha) as (c' & -> & Hc). by exists c'.
  - assert (assoc key r' = None) as ->.
    { eapply assoc_None_keys; [|exact Ha].
      apply registry_evolves_keys in Hr. exact Hr. }
    by destruct (bool_decide _).
Qed.

Lemma unknown_shrinks new cid (l l' : list Schedule) :
  Forall2 (schedule_evolves new cid) l l' ->
  length l' = length l
  /\ (length (List.filter (fun s => negb (known (id s))) l')
      <= length (List.filter (fun s => negb (known (id s))) l))%nat.
Proof.
  induction 1 as [|s s' l l' [_ Hs] _ [IH1 IH2]]; [done|]. simpl.
  split; [lia|].
  destruct Hs as [->|(Hu & n & cl & -> & Hn & _)].
  - destruct (negb (known (id s))); simpl; lia.
  - rewrite Hu, Hn. simpl. lia.
Qed.

Lemma budget_evolves new r r' key :
  registry_evolves new r r' ->
  (schedule_count r' key + unknown_count r' key
   <= schedule_count r key + unknown_count r key)%nat.
Proof.
  intros Hr. pose proof (get_course_evolves new r r' key Hr) as H.
  unfold schedule_count, unknown_count.
  destruct (get_course r key) as [c| |].
  - destruct H as (c' & -> & (_ & _ & _ & Hs)).
    apply unknown_shrinks in Hs as [-> Hs]. lia.
  - by rewrite H.
  - by rewrite H.
Qed.

Lemma call_budget_evolves new r r' keys :
  registry_evolves new r r' -> (call_budget r' keys <= call_budget r keys)%nat.
Proof.
  intros Hr. unfold call_budget. induction keys as [|key keys IH]; simpl; [done|].
  pose proof (budget_evolves new r r' (Str.trim key) Hr). lia.
Qed.

Lemma run_all_budget date players keys : forall w,
  let out := run_all (map (fun key => fetchTeeTimes (Str.trim key) date players) keys) w in
  exists new, calls out.2 = calls w ++ new
    /\ (length new <= call_budget (registry w) keys)%nat.
Proof.
  induction keys as [|key keys IH]; intros w; simpl.
  - exists []. by rewrite app_nil_r.
  - destruct (fetchTeeTimes_budget (Str.trim key) date players w) as (new1 & Hc1 & Hl1).
    pose proof (fetchTeeTimes_evolves (Str.trim key) date players w) as Hev.
    unfold post in Hev. simpl in Hc1.
    destruct (fetchTeeTimes (Str.trim key) date players w) as [r w1]. simpl in *.
    destruct (IH w1) as (new2 & Hc2 & Hl2). simpl in Hc2.
    destruct (run_all _ w1) as [rs w2]. simpl in *.
    exists (new1 ++ new2). rewrite Hc2, Hc1, <- app_assoc. split; [done|].
    destruct Hev as (new' & _ & _ & _ & _ & Hreg).
    pose proof (call_budget_evolves _ _ _ keys Hreg).
    rewrite length_app. unfold call_budget in *. simpl. lia.
Qed.

Lemma gather_budget date players keys w :
  exists new, calls (gather date players keys w).2 = calls w ++ new
    /\ (length new <= call_budget (registry w) keys)%nat.
Proof.
  unfold gather, bind, Promise_all, ret.
  destruct (run_all_budget date players keys w) as (new & Hc & Hl). simpl in Hc.
  destruct (run_all _ w) as [rs w1]. simpl in Hc.
  exists new. split; [|done]. by destruct (settle rs).
Qed.

(** X5: a request makes a bounded number of calls to the upstream: at
    most one times call for every schedule of every listed course and one
    discovery call for every schedule without a known id; nothing is
    retried, and a request that is refused (no date, [courses] not a text)
    makes no call.  With the registry as written that is at most one call
    per listed key, and six when [courses] is omitted. *)
Theorem upstream_calls_bounded (q : Query) (w : World) :
  exists new, calls (handler q w).2 = calls w ++ new
    /\ (length new
        <= match courseKeys (q_courses q) (registry w) with
           | Ok keys => if q_truthy (q_date q) then call_budget (registry w) keys else 0
           | Throw _ => 0
           end)%nat
    /\ (registry w = COURSES ->
        forall keys, courseKeys (q_courses q) COURSES = Ok keys ->
          (length new <= length keys)%nat).
Proof.
  assert (Hnone : exists new : list Call, calls w = calls w ++ new
            /\ (length new <= 0)%nat) by (exists []; by rewrite app_nil_r).
  assert (H : exists new, calls (handler q w).2 = calls w ++ new
    /\ (length new
        <= match courseKeys (q_courses q) (registry w) with
           | Ok keys => if q_truthy (q_date q) then call_budget (registry w) keys else 0
           | Throw _ => 0
           end)%nat).
  { unfold handler. destruct (q_date q) as [date|] eqn:Hd.
    - destruct (q_truthy (Some date)).
      + destruct (courseKeys (q_courses q) (registry w)) as [keys|e]; [|done].
        unfold aggregate, bind.
        destruct (gather_budget date (parse_players (q_players q)) keys w)
          as (new & Hc & Hl).
        destruct (gather date (parse_players (q_players q)) keys w)
          as [[allTimes|e] w1]; simpl in Hc; exists new; (split; [|done]); [|done].
        unfold lift, ret.
        by destruct (ArraySort.sort _ _).
      + destruct (courseKeys _ _); done.
    - simpl. destruct (courseKeys _ _); done. }
  destruct H as (new & Hc & Hl). exists new. split; [done|]. split; [done|].
  intros Hreg keys Hkeys. rewrite Hreg, Hkeys in Hl.
  etrans; [exact Hl|]. destruct (q_truthy (q_date q)); [|lia].
  clear. unfold call_budget. induction keys as [|key keys IH]; simpl; [done|].
  assert (schedule_count COURSES (Str.trim key) + unknown_count COURSES (Str.trim key)
          <= 1)%nat; [|lia].
  unfold schedule_count, unknown_count, get_course.
  generalize (Str.trim key). intros k. simpl.
  repeat (destruct (String.eqb k _); [simpl; lia|]).
  destruct (bool_decide _); simpl; lia.
Qed.

(** ** A schedule that is not in the cache *)

(** Without a live entry in the times cache the iteration makes one times
    call and adds what the reply contributes. *)
Lemma cached_or_fetched_miss key c date players sch sid results w :
  let K := times_key key sid date players in
  let req := ReqTimes date players sid (c_bookingUrl c) in
  let rp := upstream w (length (calls w)) req in
  let out := cached_or_fetched key c date players sch sid results w in
  (forall e, cache w !! K = Some e -> NodeCache.expired e (now w) = true) ->
  out.1 = Ok (results ++ contribution c key sch (result rp))
  /\ calls out.2 = calls w ++ [mkCall req (now w) rp]
  /\ now out.2 = now w + Z.of_N (elapsed rp)
  /\ registry out.2 = registry w
  /\ upstream out.2 = upstream w
  /\ (forall k, k <> K -> cache out.2 !! k = cache w !! k).
Proof.
  intros K req rp out Hmiss. subst out.
  assert (Hfetch : forall w0,
    calls w0 = calls w -> now w0 = now w -> registry w0 = registry w ->
    upstream w0 = upstream w -> (forall k, k <> K -> cache w0 !! k = cache w !! k) ->
    let out := try_catch
      (let* data := axios_get req in
       let* times := lift (normalize_all c key sch data) in
       let* _ := NodeCache.set K (CArr times) NodeCache.stdTTL in
       ret (results ++ times))
      (fun _ => ret results) w0 in
    out.1 = Ok (results ++ contribution c key sch (result rp))
    /\ calls out.2 = calls w ++ [mkCall req (now w) rp]
    /\ now out.2 = now w + Z.of_N (elapsed rp)
    /\ registry out.2 = registry w
    /\ upstream out.2 = upstream w
    /\ (forall k, k <> K -> cache out.2 !! k = cache w !! k)).
  { intros w0 Hc Hn Hr Hu Hk. unfold try_catch, bind, axios_get, lift, ret.
    unfold rp. rewrite Hc, Hu.
    destruct (result (upstream w (length (calls w)) req)) as [data|m] eqn:Er; simpl.
    - destruct (normalize_all c key sch data) as [times|e] eqn:En; simpl.
      + unfold after_call. simpl. rewrite Hc, Hn, Hu, Hr.
        split_and!; try done.
        intros k Hne. rewrite lookup_insert_ne by done. by apply Hk.
      + rewrite app_nil_r. unfold after_call. simpl. rewrite Hc, Hn, Hu, Hr.
        split_and!; done.
    - rewrite app_nil_r. unfold after_call. simpl. rewrite Hc, Hn, Hu, Hr.
      split_and!; done. }
  unfold cached_or_fetched, bind, NodeCache.get. fold K. fold req.
  destruct (cache w !! K) as [e|] eqn:He.
  - rewrite (Hmiss e eq_refl). cbn [sid_truthy].
    apply Hfetch; try done. intros k Hne. simpl. by rewrite lookup_delete_ne.
  - cbn [sid_truthy]. by apply Hfetch.
Qed.

Lemma string_app_inv_tail (a a' s : string) : a +:+ s = a' +:+ s -> a = a'.
Proof.
  intros H.
  assert (Hlen : String.length a = String.length a').
  { apply (f_equal String.length) in H.
    rewrite !PatternFacts.length_app_string in H. lia. }
  revert a' H Hlen. induction a as [|x a IH]; intros [|x' a'] H Hlen; try done.
  rewrite !PatternFacts.app_cons in H. injection H as -> H.
  f_equal. apply IH; [done|]. simpl in Hlen. lia.
Qed.

Lemma times_key_sid_inj key n n' date players :
  times_key key (CNum n) date players = times_key key (CNum n') date players ->
  n = n'.
Proof.
  unfold times_key. simpl. intros H.
  apply (inj (String.app "times_")), (inj (String.app key)) in H.
  apply (inj (String.app "_")) in H.
  apply string_app_inv_tail in H. by apply (inj pretty).
Qed.

Lemma fetch_loop_uncached key c date players : forall scheds i results w,
  Forall (fun s => known (id s) = true) scheds ->
  NoDup (map id scheds) ->
  (forall sch e, sch ∈ scheds ->
     cache w !! times_key key (sched_sid sch) date players = Some e ->
     NodeCache.expired e (now w) = true) ->
  let request sch := ReqTimes date players (sched_sid sch) (c_bookingUrl c) in
  let out := fetch_loop key c date players i scheds results w in
  out.1 = Ok (results
              ++ concat (imap (fun j sch =>
                   contribution c key sch
                     (result (upstream w (length (calls w) + j) (request sch)))) scheds))
  /\ map c_req (drop (length (calls w)) (calls out.2)) = map request scheds.
Proof.
  induction scheds as [|sch scheds IH]; intros i results w Hk Hnd Hmiss; simpl.
  - rewrite app_nil_r, drop_all. done.
  - apply Forall_cons in Hk as [Hks Hk].
    change (map id (sch :: scheds)) with (id sch :: map id scheds) in Hnd.
    apply NoDup_cons in Hnd as [Hnin Hnd].
    unfold bind. rewrite fetch_schedule_known by done.
    destruct (cached_or_fetched_miss key c date players sch (sched_sid sch) results w)
      as (Hres & Hc & Hn & Hr & Hu & Hcache).
    { intros e. apply Hmiss. apply list_elem_of_here. }
    destruct (cached_or_fetched key c date players sch (sched_sid sch) results w)
      as [r w1]. cbn [fst snd] in Hres, Hc, Hn, Hr, Hu, Hcache. subst r.
    specialize (IH (S i)
      (results ++ contribution c key sch
         (result (upstream w (length (calls w))
                    (ReqTimes date players (sched_sid sch) (c_bookingUrl c))))) w1 Hk Hnd).
    simpl in IH. destruct IH as [IH1 IH2].
    { intros sch' e Hin He.
      assert (Hne : times_key key (sched_sid sch') date players
                    <> times_key key (sched_sid sch) date players).
      { intros Heq. apply times_key_sid_inj in Heq.
        apply Hnin. rewrite Forall_forall in Hk. specialize (Hk _ Hin).
        unfold known in Hk, Hks.
        destruct (id sch') as [n'|] eqn:E', (id sch) as [n|] eqn:E; try done.
        simpl in Heq. subst n'. rewrite <- E'. apply list_elem_of_fmap. by exists sch'. }
      rewrite Hcache in He by done.
      eapply expired_mono; [eapply Hmiss; [by apply list_elem_of_further|exact He]|].
      lia. }
    rewrite Nat.add_0_r. split.
    + rewrite IH1, <- app_assoc. f_equal. f_equal. f_equal.
      rewrite Hc, length_app, Hu. simpl. f_equal.
      apply imap_ext. intros j x _. simpl. do 3 f_equal. lia.
    + destruct (fetch_loop_budget key c date players scheds (S i)
        (results ++ contribution c key sch
           (result (upstream w (length (calls w))
              (ReqTimes date players (sched_sid sch) (c_bookingUrl c))))) w1)
        as (new & Hcn & _). cbn zeta in Hcn.
      rewrite Hcn in IH2 |- *. rewrite drop_app_length in IH2.
      rewrite Hc, <- app_assoc, drop_app_length. simpl. by rewrite IH2.
Qed.

(** X6: the fetch of a course whose schedule ids are known and distinct,
    when the times cache holds no live entry for it, makes exactly one
    times call per schedule, in the order of the schedules, and returns
    the concatenation of what each reply contributes.  A call that fails,
    or a reply that the slot mapping rejects, contributes nothing for its
    own schedule only: the records of the other schedules are what they
    would be without it, and the fetch does not raise. *)
Theorem fetch_isolates_failures key c date players w :
  get_course (registry w) key = Own c ->
  Forall (fun s => known (id s) = true) (schedules c) ->
  NoDup (map id (schedules c)) ->
  (forall sch e, sch ∈ schedules c ->
     cache w !! times_key key (sched_sid sch) date players = Some e ->
     NodeCache.expired e (now w) = true) ->
  let request sch := ReqTimes date players (sched_sid sch) (c_bookingUrl c) in
  let out := fetchTeeTimes key date players w in
  out.1 = Ok (concat (imap (fun j sch =>
                 contribution c key sch
                   (result (upstream w (length (calls w) + j) (request sch))))
               (schedules c)))
  /\ map c_req (drop (length (calls w)) (calls out.2)) = map request (schedules c).
Proof.
  intros Hg Hk Hnd Hmiss. simpl. unfold fetchTeeTimes. rewrite Hg.
  by apply (fetch_loop_uncached key c date players (schedules c) 0%nat [] w).
Qed.

Lemma fetch_isolates_failures_witness :
  let out := fetchTeeTimes "twin" (QStr "06-15-2025") (Some 2) twin_world in
  map scheduleLabel (match out.1 with Ok rs => rs | Throw _ => [] end) = ["South"]
  /\ map c_req (calls out.2)
     = [ReqTimes (QStr "06-15-2025") (Some 2) (CNum 101) "https://example.test/31";
        ReqTimes (QStr "06-15-2025") (Some 2) (CNum 102) "https://example.test/31"].
Proof.
  assert (Hk : Forall (fun s => known (id s) = true)
                 [mkSchedule (Some 101) "North"; mkSchedule (Some 102) "South"])
    by (repeat constructor).
  assert (Hnd : NoDup (map id [mkSchedule (Some 101) "North"; mkSchedule (Some 102) "South"])).
  { apply (bool_decide_unpack _). vm_compute. exact I. }
  destruct (fetch_isolates_failures "twin"
              (mkCourse "Twin Hills" 31 [mkSchedule (Some 101) "North";
                                          mkSchedule (Some 102) "South"]
                 "https://example.test/31")
              (QStr "06-15-2025") (Some 2) twin_world eq_refl Hk Hnd) as [H1 H2].
  { intros sch e _ He. vm_compute in He. discriminate. }
  cbv zeta in H1, H2 |- *. rewrite H1. split; [reflexivity|exact H2].
Defined.

(** ** A discovery that resolves nothing *)

Lemma set_cache_same w : set_cache (cache w) w = w.
Proof. by destruct w. Qed.

Lemma fetch_schedule_unresolved key c date players i sch results w :
  known (id sch) = false ->
  cache w !! schedule_key (courseId c) = None ->
  unresolved (result (upstream w (length (calls w)) (ReqDiscover (courseId c)))) ->
  fetch_schedule key c date players i sch results w
  = (Ok results, after_call (ReqDiscover (courseId c)) w).
Proof.
  intros Hk Hc Hu. rewrite fetch_schedule_unknown by done.
  destruct (resolve_schedule_id_spec key c i w)
    as [(e & He & _)|(w0 & Hw0 & _ & ->)]; [congruence|].
  assert (w0 = w) as ->.
  { destruct Hw0 as [->| ->]; [done|].
    rewrite delete_id by done. apply set_cache_same. }
  unfold discovered. unfold unresolved in Hu.
  destruct (discover_result _) as [n|]; [|done]. subst n. done.
Qed.

Lemma fetch_loop_unresolved key c date players : forall scheds i results w,
  Forall (fun s => known (id s) = false) scheds ->
  cache w !! schedule_key (courseId c) = None ->
  (forall n, unresolved (result (upstream w n (ReqDiscover (courseId c))))) ->
  let out := fetch_loop key c date players i scheds results w in
  out.1 = Ok results /\ registry out.2 = registry w /\ cache out.2 = cache w
  /\ upstream out.2 = upstream w
  /\ map c_req (drop (length (calls w)) (calls out.2))
     = replicate (length scheds) (ReqDiscover (courseId c)).
Proof.
  induction scheds as [|sch scheds IH]; intros i results w Hk Hc Hu; simpl.
  - rewrite drop_all. done.
  - apply Forall_cons in Hk as [Hks Hk]. unfold bind.
    rewrite fetch_schedule_unresolved by done.
    destruct (IH (S i) results (after_call (ReqDiscover (courseId c)) w) Hk Hc Hu)
      as (H1 & H2 & H3 & H4 & H5).
    cbn zeta in H1, H2, H3, H4, H5. split_and!; try done.
    destruct (fetch_loop_budget key c date players scheds (S i) results
                (after_call (ReqDiscover (courseId c)) w)) as (new & Hcn & _).
    cbn zeta in Hcn. rewrite Hcn in H5 |- *.
    rewrite drop_app_length in H5. simpl.
    rewrite <- app_assoc, drop_app_length. simpl. by rewrite H5.
Qed.

(** X7: a discovery that resolves nothing is not remembered.  When the
    schedules of a course have no id, the schedule-id cache has no entry
    for the facility and the booking page resolves no id (the call fails,
    the page shows no pattern, or the id it shows is 0), the fetch makes
    one discovery call per schedule and nothing else: no times call, no
    record, no error, nothing cached, the registry as before.  The next
    fetch of the course does the same again. *)
Theorem failed_discovery_retried key c date players date' players' w :
  get_course (registry w) key = Own c ->
  Forall (fun s => known (id s) = false) (schedules c) ->
  cache w !! schedule_key (courseId c) = None ->
  (forall n, unresolved (result (upstream w n (ReqDiscover (courseId c))))) ->
  let out := fetchTeeTimes key date players w in
  let again := fetchTeeTimes key date' players' out.2 in
  out.1 = Ok [] /\ registry out.2 = registry w /\ cache out.2 = cache w
  /\ map c_req (drop (length (calls w)) (calls out.2))
     = replicate (length (schedules c)) (ReqDiscover (courseId c))
  /\ again.1 = Ok []
  /\ map c_req (drop (length (calls out.2)) (calls again.2))
     = replicate (length (schedules c)) (ReqDiscover (courseId c)).
Proof.
  intros Hg Hk Hc Hu. cbv zeta.
  assert (Hone : forall d p w1, registry w1 = registry w -> cache w1 = cache w ->
            upstream w1 = upstream w ->
            let out := fetchTeeTimes key d p w1 in
            out.1 = Ok [] /\ registry out.2 = registry w /\ cache out.2 = cache w
            /\ upstream out.2 = upstream w
            /\ map c_req (drop (length (calls w1)) (calls out.2))
               = replicate (length (schedules c)) (ReqDiscover (courseId c))).
  { intros d p w1 Hr1 Hc1 Hu1. cbv zeta. unfold fetchTeeTimes. rewrite Hr1, Hg.
    destruct (fetch_loop_unresolved key c d p (schedules c) 0%nat [] w1)
      as (H1 & H2 & H3 & H4 & H5); try done.
    - by rewrite Hc1.
    - by rewrite Hu1.
    - cbv zeta in H1, H2, H3, H4, H5. split_and!; congruence. }
  destruct (Hone date players w eq_refl eq_refl eq_refl) as (H1 & H2 & H3 & H4 & H5).
  cbv zeta in H1, H2, H3, H4, H5.
  destruct (Hone date' players' (fetchTeeTimes key date players w).2 H2 H3 H4)
    as (H1' & _ & _ & _ & H5').
  cbv zeta in H1', H5'. split_and!; done.
Qed.

Lemma failed_discovery_retried_witness :
  let d := QStr "06-15-2025" in
  discover_result (HttpOk (JStr zero_page)) = Some 0
  /\ let out := fetchTeeTimes "muni" d (Some 2) zero_world in
     out.1 = Ok []
     /\ map c_req (calls (fetchTeeTimes "muni" d (Some 4) out.2).2)
        = [ReqDiscover 555; ReqDiscover 555].
Proof.
  split; [vm_compute; reflexivity|].
  destruct (failed_discovery_retried "muni"
              (mkCourse "Muni" 555 [mkSchedule None "Main"] "https://example.test/555")
              (QStr "06-15-2025") (Some 2) (QStr "06-15-2025") (Some 4) zero_world
              eq_refl)
    as (H1 & _ & _ & H4 & _ & H6).
  - repeat constructor.
  - reflexivity.
  - intros n. vm_compute. reflexivity.
  - cbv zeta in H1, H4, H6 |- *. split; [exact H1|].
    vm_compute. reflexivity.
Defined.

(** ** Where the records of a response come from *)

Lemma served_later T0 date players w w' r :
  (exists new, calls w' = calls w ++ new) ->
  served T0 date players w r -> served T0 date players w' r.
Proof.
  intros (new & Hc) (cl & n & date' & l & Hin & H).
  exists cl, n, date', l. split; [|done]. rewrite Hc. apply elem_of_app. by left.
Qed.

Lemma served_evolves T0 date players w w' r :
  world_evolves w w' -> served T0 date players w r -> served T0 date players w' r.
Proof. intros (new & Hc & _). apply served_later. by exists new. Qed.

Lemma normalize_all_courseKey c key sch data l r :
  normalize_all c key sch data = Ok l -> r ∈ l -> courseKey r = key.
Proof.
  intros Hn Hin.
  assert (Forall (fun r => courseKey r = key) l) as H.
  { eapply res_mapM_Forall; [|exact Hn]. intros slot r' Hr.
    by apply normalize_ok in Hr as [? _]. }
  rewrite Forall_forall in H. by apply H.
Qed.

Lemma update_course_keys key f reg :
  Object_keys (update_course key f reg) = Object_keys reg.
Proof.
  unfold Object_keys. induction reg as [|[k c] reg IH]; [done|]. simpl.
  destruct (String.eqb key k); simpl; [done|]. by rewrite IH.
Qed.

Lemma assoc_Object_keys {A : Type} key (reg : list (string * A)) a :
  assoc key reg = Some a -> key ∈ map fst reg.
Proof.
  intros H. apply assoc_elem_of in H. apply list_elem_of_fmap. by exists (key, a).
Qed.

Lemma sourced_cached_or_fetched T0 date players key c sch n results w :
  sourced_inv w -> T0 <= now w -> no_underscore key ->
  post (cached_or_fetched key c date players sch (CNum n) results) w (fun r w' =>
    (sourced_inv w' /\ T0 <= now w')
    /\ (Forall (fun x => served T0 date players w x /\ courseKey x = key) results ->
        forall rs, r = Ok rs ->
        Forall (fun x => served T0 date players w' x /\ courseKey x = key) rs)).
Proof.
  intros (Hcs & Hid & Hnow & Hkeys) HT Hkey. unfold post.
  pose proof (cached_or_fetched_spec key c date players sch (CNum n) results w) as H.
  cbv zeta in H.
  destruct H as [[Hw H]|(Hc & Hn & Hr & _ & c0 & Hc0 & Hsub & H)].
  - rewrite Hw. split; [done|].
    destruct H as [(e & l & He & Hex & Hv & ->)|[e ->]]; [|done].
    intros Hres rs [= <-]. apply Forall_app. split; [done|].
    destruct (Hcs _ _ _ He Hv)
      as (cl & key' & n' & date' & players' & Hin & Hans & Hk' & HK & Ht & H0).
    unfold times_key, sid_string in HK.
    apply times_key_cut in HK as (Ek & En & Hd & Ep);
      try done; try apply pretty_Z_no_underscore.
    apply (inj pretty) in En. subst key' n' players'.
    apply Forall_forall. intros r Hr.
    destruct Hans as (c' & sch' & data & Hans).
    split; [|by eapply normalize_all_courseKey; [apply Hans|]].
    exists cl, n, date', l. split_and!; try done.
    + rewrite (normalize_all_courseKey c' key sch' data l r); [|by apply Hans|done].
      by exists c', sch', data.
    + unfold NodeCache.expired in Hex. unfold ttl_ms, NodeCache.stdTTL in *.
      apply andb_false_iff in Hex as [Hex|Hex].
      * apply negb_false_iff, Z.eqb_eq in Hex. lia.
      * apply Z.ltb_ge in Hex. lia.
  - set (req := ReqTimes date players (CNum n) (c_bookingUrl c)) in *.
    set (rp := upstream w (length (calls w)) req) in *.
    set (out := cached_or_fetched key c date players sch (CNum n) results w) in *.
    assert (Hold : Forall (fun x => served T0 date players w x /\ courseKey x = key) results ->
                   Forall (fun x => served T0 date players out.2 x /\ courseKey x = key) results).
    { intros Hres. eapply Forall_impl; [exact Hres|]. intros r [Hs Hk]. split; [|done].
      eapply served_later; [|exact Hs]. eexists. exact Hc. }
    assert (Hbase : forall K e l, c0 !! K = Some e -> v e = CArr l ->
      exists cl key n date players,
        cl ∈ calls out.2 /\ answers cl key (CNum n) date players l
        /\ no_underscore key /\ K = times_key key (CNum n) date players
        /\ t e = done_at cl + ttl_ms /\ 0 <= done_at cl).
    { intros K e l He Hv.
      destruct (Hcs _ _ _ (Hsub _ _ He) Hv)
        as (cl & key' & n' & date' & players' & Hin & Hrest).
      exists cl, key', n', date', players'. split; [|done].
      rewrite Hc. apply elem_of_app. by left. }
    assert (Hidb : forall cid e, c0 !! schedule_key cid = Some e ->
              exists n, v e = CNum n).
    { intros cid e He. by apply (Hid cid), Hsub. }
    assert (Hkeys' : Forall no_underscore (Object_keys (registry out.2)))
      by (by rewrite Hr).
    assert (Hnow' : 0 <= now out.2 /\ T0 <= now out.2) by lia.
    assert (Hfail : cache out.2 = c0 -> sourced_inv out.2).
    { intros Hcache. split_and!; [| |lia|done].
      - intros K e l He Hv. rewrite Hcache in He. by eapply Hbase.
      - intros cid e He. rewrite Hcache in He. by eapply Hidb. }
    destruct (result rp) as [data|m] eqn:Er.
    + destruct (normalize_all c key sch data) as [times|err] eqn:En.
      * destruct H as [-> Hcache]. split.
        -- split; [|lia]. split_and!; try done; try lia.
           ++ intros K e l He Hv. rewrite Hcache in He.
              apply lookup_insert_Some in He as [[<- <-]|[_ He]]; [|by eapply Hbase].
              simpl in Hv. injection Hv as <-.
              exists (mkCall req (now w) rp), key, n, date, players.
              split_and!; try done.
              ** rewrite Hc. apply elem_of_app. right. apply list_elem_of_here.
              ** by exists c, sch, data.
              ** simpl. rewrite Hn. unfold done_at, ttl_ms, NodeCache.livetime. simpl.
                 done.
              ** unfold done_at. simpl. lia.
           ++ intros cid e He. rewrite Hcache in He.
              rewrite lookup_insert_ne in He; [by eapply Hidb|].
              apply times_key_not_schedule_key.
        -- intros Hres rs [= <-]. apply Forall_app. split; [by apply Hold|].
           apply Forall_forall. intros r Hr'.
           split; [|by eapply normalize_all_courseKey].
           exists (mkCall req (now w) rp), n, date, times. split_and!; try done.
           ++ rewrite Hc. apply elem_of_app. right. apply list_elem_of_here.
           ++ rewrite (normalize_all_courseKey c key sch data times r) by done.
              by exists c, sch, data.
           ++ unfold done_at, ttl_ms, NodeCache.stdTTL. simpl. lia.
      * destruct H as [-> Hcache]. split; [|intros Hres rs [= <-]; by apply Hold].
        split; [by apply Hfail|lia].
    + destruct H as [-> Hcache]. split; [|intros Hres rs [= <-]; by apply Hold].
      split; [by apply Hfail|lia].
Qed.

Lemma sourced_inv_weaken w w' :
  (forall K e, cache w' !! K = Some e ->
     cache w !! K = Some e \/ ((exists n, v e = CNum n) /\ exists cid, K = schedule_key cid)) ->
  (exists new, calls w' = calls w ++ new) -> now w <= now w' ->
  Object_keys (registry w') = Object_keys (registry w) ->
  sourced_inv w -> sourced_inv w'.
Proof.
  intros Hcache (new & Hc) Hnow Hkeys (Hcs & Hid & H0 & Hk). split_and!.
  - intros K e l He Hv. destruct (Hcache K e He) as [Hold|[[n Hn] _]]; [|congruence].
    destruct (Hcs _ _ _ Hold Hv) as (cl & key & n & date & players & Hin & Hrest).
    exists cl, key, n, date, players. split; [|done].
    rewrite Hc. apply elem_of_app. by left.
  - intros cid e He. destruct (Hcache _ e He) as [Hold|[Hn _]]; [by eapply Hid|done].
  - lia.
  - by rewrite Hkeys.
Qed.

Lemma sourced_resolve key c i w :
  sourced_inv w ->
  let out := resolve_schedule_id key c i w in
  sourced_inv out.2 /\ now w <= now out.2
  /\ (exists new, calls out.2 = calls w ++ new)
  /\ exists sid, out.1 = Ok sid /\ forall s, sid = Some s -> exists n, s = CNum n.
Proof.
  intros Hinv. cbv zeta.
  destruct (resolve_schedule_id_spec key c i w)
    as [(e & He & _ & _ & ->)|(w0 & Hw0 & _ & ->)].
  - simpl. split_and!; [done|lia|exists []; by rewrite app_nil_r|].
    exists (Some (v e)). split; [done|]. intros s [= <-].
    destruct Hinv as (_ & Hid & _). by eapply Hid.
  - assert (H0 : (forall K e, cache w0 !! K = Some e -> cache w !! K = Some e)
                 /\ calls w0 = calls w /\ now w0 = now w /\ registry w0 = registry w).
    { destruct Hw0 as [->| ->]; [done|]. simpl. split; [|done].
      intros K e [_ H]%lookup_delete_Some. done. }
    destruct H0 as (Hsub & Hc0 & Hn0 & Hr0).
    unfold discovered.
    destruct (discover_result _) as [n|].
    + destruct (n =? 0).
      * simpl. split_and!.
        -- eapply sourced_inv_weaken; [| | | |exact Hinv]; simpl.
           ++ intros K e He. left. by apply Hsub.
           ++ rewrite Hc0. by eexists.
           ++ lia.
           ++ by rewrite Hr0.
        -- lia.
        -- rewrite Hc0. by eexists.
        -- exists (Some (CNum n)). split; [done|]. intros s [= <-]. by exists n.
      * simpl. split_and!.
        -- eapply sourced_inv_weaken; [| | | |exact Hinv]; simpl.
           ++ intros K e He.
              apply lookup_insert_Some in He as [[<- <-]|[_ He]].
              ** right. split; [by exists n|by eexists].
              ** left. by apply Hsub.
           ++ rewrite Hc0. by eexists.
           ++ lia.
           ++ unfold with_schedule_id. by rewrite update_course_keys, Hr0.
        -- lia.
        -- rewrite Hc0. by eexists.
        -- exists (Some (CNum n)). split; [done|]. intros s [= <-]. by exists n.
    + simpl. split_and!.
      * eapply sourced_inv_weaken; [| | | |exact Hinv]; simpl.
        -- intros K e He. left. by apply Hsub.
        -- rewrite Hc0. by eexists.
        -- lia.
        -- by rewrite Hr0.
      * lia.
      * rewrite Hc0. by eexists.
      * exists None. split; [done|]. done.
Qed.

Lemma sourced_step T0 date players key c i sch results w :
  sourced_inv w -> T0 <= now w -> aligned key c i w ->
  post (fetch_schedule key c date players i sch results) w (fun r w' =>
    (sourced_inv w' /\ T0 <= now w')
    /\ (Forall (fun x => served T0 date players w x /\ courseKey x = key) results ->
        forall rs, r = Ok rs ->
        Forall (fun x => served T0 date players w' x /\ courseKey x = key) rs)).
Proof.
  intros Hinv HT Hal.
  assert (Hkey : no_underscore key).
  { destruct Hal as (creg & Ha & _). destruct Hinv as (_ & _ & _ & Hk).
    rewrite Forall_forall in Hk. apply Hk. unfold Object_keys.
    by eapply assoc_Object_keys. }
  unfold post. destruct (known (id sch)) eqn:Hk.
  - rewrite fetch_schedule_known by done.
    by apply sourced_cached_or_fetched.
  - rewrite fetch_schedule_unknown by done.
    destruct (sourced_resolve key c i w Hinv) as (Hinv1 & Hn1 & Hc1 & sid & Hsid & Hnum).
    cbv zeta in Hinv1, Hn1, Hc1, Hsid.
    destruct (resolve_schedule_id key c i w) as [r1 w1]. cbn [fst snd] in *. subst r1.
    assert (Hold : Forall (fun x => served T0 date players w x /\ courseKey x = key) results ->
                   Forall (fun x => served T0 date players w1 x /\ courseKey x = key) results).
    { intros Hres. eapply Forall_impl; [exact Hres|]. intros r [Hs Hck]. split; [|done].
      by eapply served_later. }
    destruct sid as [s|].
    + destruct (Hnum s eq_refl) as [n ->].
      destruct (sid_truthy (Some (CNum n))).
      * pose proof (sourced_cached_or_fetched T0 date players key c sch n results w1
                      Hinv1 ltac:(lia) Hkey) as H.
        unfold post in H. destruct H as [H1 H2]. split; [done|].
        intros Hres. by apply H2, Hold.
      * simpl. split; [split; [done|lia]|]. intros Hres rs [= <-]. by apply Hold.
    + simpl. split; [split; [done|lia]|]. intros Hres rs [= <-]. by apply Hold.
Qed.

Lemma sourced_run es : forall w, sourced_inv w -> sourced_inv (run es w).
Proof.
  apply lift_run.
  - intros dt w. apply sourced_inv_weaken; simpl; try done.
    + intros K e He. by left.
    + exists []. by rewrite app_nil_r.
    + lia.
  - intros date players key c i sch results w Hinv Hal _.
    pose proof (sourced_step (now w) date players key c i sch results w Hinv
                  ltac:(lia) Hal) as H.
    unfold post in H. by destruct H as [[H _] _].
Qed.

Lemma handler_served q date w :
  sourced_inv w -> q_date q = Some date ->
  Forall (fun r =>
            served (now w) date (parse_players (q_players q)) (handler q w).2 r
            /\ exists keys key, courseKeys (q_courses q) (registry w) = Ok keys
                 /\ key ∈ keys /\ courseKey r = Str.trim key)
    (teetimes_of (handler q w).1).
Proof.
  intros Hinv Hd. eapply Forall_impl.
  - apply (lift_handler (fun w' => sourced_inv w' /\ now w <= now w')
             (fun key w' x => served (now w) date (parse_players (q_players q)) w' x
                              /\ courseKey x = key)
             date (parse_players (q_players q))); try done.
    + intros key w1 w2 r Hev [Hs Hk]. split; [|done]. by eapply served_evolves.
    + intros key c i sch results w1 [Hinv1 HT1] Hal Hi Hres.
      eapply post_mono; [by apply sourced_step|].
      intros r w2 [H1 H2]. split; [done|]. by apply H2.
  - intros r (keys & key & Hk & Hin & Hs & Hck). split; [done|]. by exists keys, key.
Qed.

Lemma sourced_inv_start reg clock up lc :
  0 <= clock -> Forall no_underscore (Object_keys reg) ->
  sourced_inv (start reg clock up lc).
Proof. intros Hc Hk. split_and!; simpl; done. Qed.

(** X8: every record of a response was made of a slot of an upstream
    reply that the process received no more than 5 minutes before the
    request arrived; that reply answered a times request for the same
    party size and the same date text as the request served, issued for
    the course key of the record; and that course key is one of the keys
    of the request, trimmed.  (Course keys are taken to be free of
    underscores, as the six registered keys are, and the clock to count
    from the epoch.) *)
Theorem records_fresh reg clock upstream localeCompare (es : list Event)
    (q : Query) (date : QVal) :
  0 <= clock -> Forall no_underscore (Object_keys reg) ->
  q_date q = Some date ->
  let w := run es (start reg clock upstream localeCompare) in
  Forall (fun r =>
            served (now w) date (parse_players (q_players q)) (handler q w).2 r
            /\ exists keys key, courseKeys (q_courses q) (registry w) = Ok keys
                 /\ key ∈ keys /\ courseKey r = Str.trim key)
    (teetimes_of (handler q w).1).
Proof.
  intros Hclock Hkeys Hd w.
  assert (Hinv : sourced_inv w).
  { apply sourced_run. by apply sourced_inv_start. }
  destruct Hinv as (Hcs & Hid & Hnow & Hk).
  apply handler_served; [|exact Hd].
  split; [exact Hcs|]. split; [exact Hid|]. split; [exact Hnow|exact Hk].
Qed.

Lemma records_fresh_witness :
  Forall (fun r =>
            served (now scenario_world) (QStr "06-15-2025") (Some 2)
              (handler scenario_query scenario_world).2 r
            /\ exists keys key,
                 courseKeys (q_courses scenario_query) (registry scenario_world) = Ok keys
                 /\ key ∈ keys /\ courseKey r = Str.trim key)
    (teetimes_of (handler scenario_query scenario_world).1).
Proof.
  apply (records_fresh COURSES 0 scenario_upstream Str.lex_compare [] scenario_query
           (QStr "06-15-2025")); [lia|repeat constructor|reflexivity].
Defined.

(** ** Properties of every record *)

Section Records.
Context (P0 : TeeTime -> Prop).

Lemma records_inv_weaken w w' :
  (forall K e l, cache w' !! K = Some e -> v e = CArr l -> cache w !! K = Some e) ->
  upstream w' = upstream w -> records_inv P0 w -> records_inv P0 w'.
Proof.
  intros Hsub Hu [Hc Hr]. split.
  - intros K e l He Hv. eapply Hc; [by eapply Hsub|done].
  - by rewrite Hu.
Qed.

Lemma records_cached_or_fetched key c date players sch sid results w :
  records_inv P0 w ->
  post (cached_or_fetched key c date players sch sid results) w (fun r w' =>
    records_inv P0 w'
    /\ (Forall P0 results -> forall rs, r = Ok rs -> Forall P0 rs)).
Proof.
  intros [Hca Hre]. unfold post.
  pose proof (evolving_cached_or_fetched key c date players sch sid results w) as Hev.
  unfold post in Hev. destruct Hev as [(_ & _ & _ & Hu & _) _].
  pose proof (cached_or_fetched_spec key c date players sch sid results w) as H.
  cbv zeta in H.
  destruct H as [[Hw H]|(Hc & Hn & Hr & _ & c0 & Hc0 & Hsub & H)].
  - rewrite Hw. split; [done|].
    destruct H as [(e & l & He & Hex & Hv & ->)|[e ->]]; [|done].
    intros Hres rs [= <-]. apply Forall_app. split; [done|]. by eapply Hca.
  - set (out := cached_or_fetched key c date players sch sid results w) in *.
    assert (Hfail : cache out.2 = c0 -> records_inv P0 out.2).
    { intros Hcache. apply (records_inv_weaken w); [|done|done].
      intros K e l He _. rewrite Hcache in He. by apply Hsub. }
    destruct (result _) as [data|m] eqn:Er.
    + destruct (normalize_all c key sch data) as [times|err] eqn:En.
      * destruct H as [-> Hcache].
        assert (Ht : Forall P0 times) by (by eapply Hre).
        split.
        -- split; [|by rewrite Hu]. intros K e l He Hv. rewrite Hcache in He.
           apply lookup_insert_Some in He as [[_ <-]|[_ He]].
           ++ simpl in Hv. by injection Hv as <-.
           ++ eapply Hca; [by apply Hsub|done].
        -- intros Hres rs [= <-]. by apply Forall_app.
      * destruct H as [-> Hcache]. split; [by apply Hfail|]. by intros Hres rs [= <-].
    + destruct H as [-> Hcache]. split; [by apply Hfail|]. by intros Hres rs [= <-].
Qed.

Lemma records_resolve key c i w :
  records_inv P0 w -> records_inv P0 (resolve_schedule_id key c i w).2.
Proof.
  intros Hinv.
  destruct (resolve_schedule_id_spec key c i w)
    as [(e & _ & _ & _ & ->)|(w0 & Hw0 & _ & ->)]; [done|].
  assert (H0 : (forall K e, cache w0 !! K = Some e -> cache w !! K = Some e)
               /\ upstream w0 = upstream w).
  { destruct Hw0 as [->| ->]; [done|]. simpl. split; [|done].
    intros K e [_ H]%lookup_delete_Some. done. }
  destruct H0 as [Hsub Hu0].
  apply (records_inv_weaken w); [| |done].
  - intros K e l. unfold discovered.
    destruct (discover_result _) as [n|]; [destruct (n =? 0)|]; simpl;
      try (intros He _; by apply Hsub).
    intros He Hv. apply lookup_insert_Some in He as [[_ <-]|[_ He]]; [done|].
    by apply Hsub.
  - unfold discovered.
    destruct (discover_result _) as [n|]; [destruct (n =? 0)|]; simpl; done.
Qed.

Lemma records_step key c date players i sch results w :
  records_inv P0 w ->
  post (fetch_schedule key c date players i sch results) w (fun r w' =>
    records_inv P0 w'
    /\ (Forall P0 results -> forall rs, r = Ok rs -> Forall P0 rs)).
Proof.
  intros Hinv. unfold post. destruct (known (id sch)) eqn:Hk.
  - rewrite fetch_schedule_known by done. by apply records_cached_or_fetched.
  - rewrite fetch_schedule_unknown by done.
    pose proof (records_resolve key c i w Hinv) as Hinv1.
    destruct (resolve_schedule_id key c i w) as [[[sid|]|e] w1]; cbn [fst snd] in *.
    + destruct (sid_truthy (Some sid)).
      * by apply records_cached_or_fetched.
      * split; [done|]. by intros Hres rs [= <-].
    + split; [done|]. by intros Hres rs [= <-].
    + split; [done|]. done.
Qed.

Lemma records_run es : forall w, records_inv P0 w -> records_inv P0 (run es w).
Proof.
  apply (lift_run (records_inv P0)).
  - intros dt w. by apply records_inv_weaken.
  - intros date players key c i sch results w Hinv _ _.
    pose proof (records_step key c date players i sch results w Hinv) as H.
    unfold post in H. by destruct H.
Qed.

Lemma records_gather date players keys w :
  records_inv P0 w ->
  forall rs, (gather date players keys w).1 = Ok rs -> Forall P0 rs.
Proof.
  intros Hinv rs Hrs.
  pose proof (lift_gather (records_inv P0) (fun _ _ => P0) date players) as H.
  unfold post in H. eapply Forall_impl.
  - eapply H; [done| |exact Hinv|exact Hrs].
    intros key c i sch results w1 Hinv1 _ _ Hres.
    eapply post_mono; [by apply records_step|].
    intros r w2 [H1 H2]. split; [done|]. by apply H2.
  - intros x (_ & _ & Hx). exact Hx.
Qed.

End Records.

(** ** When the answer is a 200 *)

Lemma normalize_time c key sch slot r :
  normalize c key sch slot = Ok r ->
  time r = match slot with JObj fields => assoc "time" fields | _ => None end.
Proof.
  unfold normalize. destruct slot as [| | | | |fields]; simpl; try done;
    by intros [= <-].
Qed.

Lemma times_are_text_orderable u :
  times_are_text u -> replies_all orderable u.
Proof.
  intros Hu n req data c key sch l Hr Hn. unfold normalize_all in Hn.
  destruct data as [| | | |slots|]; try (by injection Hn as <-).
  specialize (Hu n req slots Hr). clear Hr.
  revert l Hn. induction Hu as [|slot slots Hs _ IH]; intros l; simpl.
  - by intros [= <-].
  - destruct (normalize c key sch slot) as [r|] eqn:Er; simpl; [|done].
    destruct (res_mapM (normalize c key sch) slots) as [rs|]; simpl; [|done].
    intros [= <-]. constructor; [|by apply IH].
    apply normalize_time in Er. unfold orderable, untimed, timed. rewrite Er.
    unfold time_is_text in Hs. destruct slot as [| | | | |fields]; try (by left).
    destruct (assoc "time" fields) as [tm|]; [|by left].
    destruct tm as [| | |s| |]; try (left; by rewrite Hs).
    destruct (String.eqb s "") eqn:Es.
    + left. simpl. by rewrite Es.
    + right. exists s. split; [done|]. intros ->. done.
Qed.

Lemma compare_time_orderable lc a b :
  orderable a -> orderable b -> exists z, compare_time lc a b = Ok z.
Proof.
  intros [Ha|Ha] [Hb|Hb].
  - exists 0. apply compare_time_untimed. by left.
  - exists 0. apply compare_time_untimed. by left.
  - exists 0. apply compare_time_untimed. by right.
  - eexists. by apply compare_time_timed.
Qed.

Lemma run_all_returns date players keys : forall w,
  cache_typed w ->
  Forall (fun k => get_course (registry w) (Str.trim k) <> Inherited) keys ->
  exists ls,
    settle (run_all (map (fun key => fetchTeeTimes (Str.trim key) date players) keys) w).1
    = Ok ls.
Proof.
  induction keys as [|key keys IH]; intros w Hty Hk; simpl; [by eexists|].
  apply Forall_cons in Hk as [Hk Hks].
  destruct (fetchTeeTimes_typed (Str.trim key) date players w Hty) as [Hty1 Hok].
  destruct (Hok Hk) as [rs Hrs].
  pose proof (fetchTeeTimes_evolves (Str.trim key) date players w) as Hev.
  unfold post in Hev.
  destruct (fetchTeeTimes (Str.trim key) date players w) as [r w1]. simpl in *.
  subst r. destruct (IH w1 Hty1) as [ls Hls].
  { eapply Forall_impl; [exact Hks|]. intros k Hne Heq. apply Hne.
    destruct Hev as (new & _ & _ & _ & _ & Hreg).
    pose proof (get_course_evolves new _ _ (Str.trim k) Hreg) as H.
    destruct (get_course (registry w) (Str.trim k)) as [c0| |]; [|done|].
    - destruct H as (c' & H & _). congruence.
    - congruence. }
  destruct (run_all _ w1) as [rs' w2]. simpl in *. rewrite Hls. simpl. by eexists.
Qed.

Lemma gather_returns date players keys w :
  cache_typed w ->
  Forall (fun k => get_course (registry w) (Str.trim k) <> Inherited) keys ->
  exists rs, (gather date players keys w).1 = Ok rs.
Proof.
  intros Hty Hk. destruct (run_all_returns date players keys w Hty Hk) as [ls Hls].
  unfold gather, bind, Promise_all, ret.
  destruct (run_all _ w) as [rs w1]. simpl in *. rewrite Hls. by eexists.
Qed.

Lemma cache_typed_start reg clock upstream localeCompare :
  cache_typed (start reg clock upstream localeCompare).
Proof. intros key sid date players e He. simpl in He. by rewrite lookup_empty in He. Qed.

Lemma handler_200 q date keys w :
  cache_typed w -> records_inv orderable w ->
  q_date q = Some date -> q_truthy (Some date) = true ->
  courseKeys (q_courses q) (registry w) = Ok keys ->
  Forall (fun k => get_course (registry w) (Str.trim k) <> Inherited) keys ->
  exists ts,
    (handler q w).1
    = Response 200 (TeeTimesBody date (parse_players (q_players q)) (length ts) ts).
Proof.
  intros Hty Hinv Hd Ht Hkeys Hk.
  unfold handler. rewrite Hd, Ht, Hkeys. unfold aggregate, bind.
  destruct (gather_returns date (parse_players (q_players q)) keys w Hty Hk)
    as [allTimes Hg].
  pose proof (records_gather orderable date (parse_players (q_players q)) keys w Hinv
                allTimes Hg) as Hall.
  destruct (gather date (parse_players (q_players q)) keys w) as [r w1].
  simpl in Hg. subst r. unfold lift, ret.
  destruct (ArraySortFacts.sort_total (compare_time (localeCompare w1)) orderable
              (compare_time_orderable (localeCompare w1)) allTimes Hall) as [sorted ->].
  by exists sorted.
Qed.

Lemma records_inv_start reg clock up lc :
  times_are_text up -> records_inv orderable (start reg clock up lc).
Proof.
  intros Hu. split; [|by apply times_are_text_orderable].
  intros K e l He. simpl in He. by rewrite lookup_empty in He.
Qed.

Lemma not_inherited_evolves new r r' key :
  registry_evolves new r r' ->
  get_course r key <> Inherited -> get_course r' key <> Inherited.
Proof.
  intros Hreg Hne Heq. apply Hne.
  pose proof (get_course_evolves new _ _ key Hreg) as H.
  destruct (get_course r key) as [c0| |]; [|done|].
  - destruct H as (c' & H & _). congruence.
  - congruence.
Qed.

(** X9: when is the answer a 200.  In every state that the process
    reaches, a request with a non-empty date, whose [courses] is absent or
    a text none of whose keys (trimmed) names a member of
    [Object.prototype], is answered with status 200, [count] being the
    number of records, provided the upstream sends slots whose [time] is
    absent, falsy or a text.  No failure of the upstream, of the discovery
    or of the cache turns such a request into an error. *)
Theorem answers_200 reg clock up lc (es : list Event)
    (q : Query) (date : QVal) (keys : list string) :
  times_are_text up ->
  q_date q = Some date -> q_truthy (Some date) = true ->
  courseKeys (q_courses q) reg = Ok keys ->
  Forall (fun k => get_course reg (Str.trim k) <> Inherited) keys ->
  let w := run es (start reg clock up lc) in
  exists ts,
    (handler q w).1
    = Response 200 (TeeTimesBody date (parse_players (q_players q)) (length ts) ts).
Proof.
  intros Hu Hd Ht Hkeys Hk w.
  pose proof (run_evolves es (start reg clock up lc)) as Hev.
  fold w in Hev. destruct Hev as (new & _ & _ & Hup & _ & Hreg). simpl in Hreg.
  apply (handler_200 q date keys w); try done.
  - apply run_typed, cache_typed_start.
  - by apply records_run, records_inv_start.
  - unfold courseKeys in *. destruct (q_truthy (q_courses q)); [done|].
    by rewrite (registry_evolves_keys _ _ _ Hreg).
  - eapply Forall_impl; [exact Hk|]. intros k.
    by apply (not_inherited_evolves new).
Qed.

Lemma answers_200_witness :
  exists ts,
    (handler gap_query (run [Get scenario_query; Tick 1000] (start COURSES 0 gap_upstream Str.lex_compare))).1
    = Response 200 (TeeTimesBody (QStr "06-15-2025") (Some 2) (length ts) ts).
Proof.
  apply (answers_200 COURSES 0 gap_upstream Str.lex_compare
           [Get scenario_query; Tick 1000] gap_query (QStr "06-15-2025") ["lafortune"]).
  - intros n req slots [= <-]. repeat constructor.
  - reflexivity.
  - reflexivity.
  - reflexivity.
  - repeat constructor. discriminate.
Defined.

(** ** The status of the answer *)




(** ** The party size *)







(** * The page *)

(** ** Lists and filters *)

Lemma elem_of_filter_bool {A : Type} (f : A -> bool) (l : list A) x :
  x ∈ List.filter f l <-> x ∈ l /\ f x = true.
Proof.
  induction l as [|y l IH]; simpl.
  - split; [by intros ?%elem_of_nil|by intros [?%elem_of_nil _]].
  - destruct (f y) eqn:E; rewrite ?elem_of_cons, IH.
    + split; [intros [->|[? ?]]; auto|intros [[->|?] ?]; auto].
    + split; [intros [? ?]; auto|intros [[->|?] ?]; [congruence|auto]].
Qed.

Lemma NoDup_filter_bool {A : Type} (f : A -> bool) (l : list A) :
  NoDup l -> NoDup (List.filter f l).
Proof.
  induction 1 as [|x l Hx _ IH]; simpl; [constructor|].
  destruct (f x); [|done]. constructor; [|done].
  rewrite elem_of_filter_bool. tauto.
Qed.



(** ** The date of the request *)






(** What [toAPIDate] makes of a text that is no date. *)
Lemma toAPIDate_examples :
  Client.toAPIDate "" = "undefined-undefined-"
  /\ Client.toAPIDate "2025" = "undefined-undefined-2025"
  /\ Client.toAPIDate "2025-06-15T07:30" = "06-15T07:30-2025".
Proof. done. Qed.

(** ** The selection of courses *)

Lemma toggleCourse_spec key s :
  NoDup s ->
  NoDup (Client.toggleCourse key s)
  /\ forall k, k ∈ Client.toggleCourse key s
       <-> (if String.eqb k key then k ∉ s else k ∈ s).
Proof.
  intros Hnd. unfold Client.toggleCourse, Client.Set_has.
  destruct (bool_decide (key ∈ s)) eqn:Hin.
  - apply bool_decide_eq_true in Hin. split.
    + by apply NoDup_filter_bool.
    + intros k. unfold Client.Set_delete. rewrite elem_of_filter_bool.
      destruct (String.eqb k key) eqn:E.
      * apply String.eqb_eq in E as ->. simpl. split; [by intros [_ ?]|done].
      * simpl. split; [by intros [? _]|done].
  - apply bool_decide_eq_false in Hin.
    unfold Client.Set_add, Client.Set_has. rewrite bool_decide_false by done. split.
    + apply NoDup_app. split; [done|]. split; [|apply NoDup_singleton].
      intros x Hx ->%list_elem_of_singleton. done.
    + intros k. rewrite elem_of_app, list_elem_of_singleton.
      destruct (String.eqb k key) eqn:E.
      * apply String.eqb_eq in E as ->. split; [done|by right].
      * apply String.eqb_neq in E. split; [by intros [?|?]|by left].
Qed.

Lemma clicks_on_cons k c cs :
  Client.clicks_on k (c :: cs)
  = ((if String.eqb k c then 1 else 0) + Client.clicks_on k cs)%nat.
Proof. unfold Client.clicks_on. simpl. by destruct (String.eqb k c). Qed.

Lemma foldl_toggle_spec clicks : forall s0,
  NoDup s0 ->
  let sel := foldl (fun sel key => Client.toggleCourse key sel) s0 clicks in
  NoDup sel
  /\ forall k, k ∈ sel
       <-> Nat.even (Client.clicks_on k clicks) = bool_decide (k ∈ s0).
Proof.
  induction clicks as [|c cs IH]; intros s0 Hnd; simpl.
  - split; [done|]. intros k. split.
    + intros Hk. by rewrite bool_decide_true.
    + intros Hk. symmetry in Hk. by apply bool_decide_eq_true in Hk.
  - destruct (toggleCourse_spec c s0 Hnd) as [Hnd1 Hin1].
    destruct (IH _ Hnd1) as [Hnd2 Hin2]. split; [done|].
    intros k. rewrite Hin2, clicks_on_cons.
    destruct (String.eqb k c) eqn:E.
    + apply String.eqb_eq in E as ->.
      replace (1 + Client.clicks_on c cs)%nat with (S (Client.clicks_on c cs)) by lia.
      rewrite Nat.even_succ, <- Nat.negb_even.
      specialize (Hin1 c). rewrite String.eqb_refl in Hin1.
      destruct (Nat.even (Client.clicks_on c cs)); simpl.
      * destruct (decide (c ∈ s0)) as [H0|H0].
        -- rewrite (bool_decide_true (c ∈ s0)) by done.
           rewrite bool_decide_false; [done|]. rewrite Hin1. tauto.
        -- rewrite (bool_decide_false (c ∈ s0)) by done.
           rewrite bool_decide_true; [done|]. by rewrite Hin1.
      * destruct (decide (c ∈ s0)) as [H0|H0].
        -- rewrite (bool_decide_true (c ∈ s0)) by done.
           rewrite bool_decide_false; [done|]. rewrite Hin1. tauto.
        -- rewrite (bool_decide_false (c ∈ s0)) by done.
           rewrite bool_decide_true; [done|]. by rewrite Hin1.
    + simpl. specialize (Hin1 k). rewrite E in Hin1.
      destruct (decide (k ∈ s0)) as [H0|H0].
      * rewrite !bool_decide_true; [done|done|by rewrite Hin1].
      * rewrite !bool_decide_false; [done|done|by rewrite Hin1].
Qed.

Lemma clicks_on_pos k clicks : (0 < Client.clicks_on k clicks)%nat -> k ∈ clicks.
Proof.
  unfold Client.clicks_on. induction clicks as [|c cs IH]; simpl; [lia|].
  destruct (String.eqb k c) eqn:E.
  - apply String.eqb_eq in E as ->. intros _. apply list_elem_of_here.
  - intros H. apply list_elem_of_further. auto.
Qed.

Lemma NoDup_initial_selection : NoDup Client.initial_selection.
Proof. apply (bool_decide_unpack _). vm_compute. exact I. Qed.

Lemma clicked_offered clicks :
  Forall (fun k => k ∈ Client.initial_selection) clicks ->
  Forall (fun k => k ∈ Client.initial_selection) (Client.clicked clicks).
Proof.
  intros Hclicks. apply Forall_forall. intros k Hk.
  destruct (foldl_toggle_spec clicks _ NoDup_initial_selection) as [_ Hin].
  cbv zeta in Hin. apply Hin in Hk.
  destruct (decide (k ∈ Client.initial_selection)) as [|Hn]; [done|].
  rewrite (bool_decide_false _ Hn) in Hk.
  rewrite Forall_forall in Hclicks. apply Hclicks, clicks_on_pos.
  destruct (Client.clicks_on k clicks); [done|lia].
Qed.

(** X13: the selection of courses.  Whatever chips are clicked, in
    whatever order, the selection holds no course twice, and a course is
    selected exactly when its chip has been clicked an even number of
    times (the page starts with every course selected); clicks on the
    offered chips never select anything else; and a second click on a chip
    undoes the first, up to the order of the selection. *)
Theorem selection_by_parity (clicks : list string) :
  let sel := Client.clicked clicks in
  NoDup sel
  /\ (forall k, k ∈ sel
        <-> Nat.even (Client.clicks_on k clicks)
            = bool_decide (k ∈ Client.initial_selection))
  /\ (Forall (fun k => k ∈ Client.initial_selection) clicks ->
      forall k, k ∈ sel -> k ∈ Client.initial_selection)
  /\ (forall key, Client.toggleCourse key (Client.toggleCourse key sel) ≡ₚ sel).
Proof.
  cbv zeta. unfold Client.clicked.
  destruct (foldl_toggle_spec clicks _ NoDup_initial_selection) as [Hnd Hin].
  cbv zeta in Hnd, Hin. split_and!; [done|done| |].
  - intros Hclicks k Hk.
    pose proof (clicked_offered clicks Hclicks) as H.
    rewrite Forall_forall in H. by apply H.
  - intros key.
    destruct (toggleCourse_spec key _ Hnd) as [Hnd1 Hin1].
    destruct (toggleCourse_spec key _ Hnd1) as [Hnd2 Hin2].
    apply NoDup_Permutation; [done|done|].
    intros k. rewrite Hin2. specialize (Hin1 k).
    destruct (String.eqb k key); [|done].
    rewrite Hin1. split; [|tauto]. intros H. by apply dec_stable.
Qed.

(** ** The filter by time of day *)



(** ** The view by course *)

Lemma push_keys key t m : map fst (Client.push key t m) = map fst m.
Proof.
  induction m as [|[k arr] m IH]; [done|]. simpl.
  destruct (String.eqb key k); simpl; [done|]. by rewrite IH.
Qed.

Lemma assoc_push key t m k :
  assoc k (Client.push key t m)
  = if String.eqb k key then (fun arr => arr ++ [t]) <$> assoc k m else assoc k m.
Proof.
  induction m as [|[k' arr] m IH]; simpl.
  - by destruct (String.eqb k key).
  - destruct (String.eqb key k') eqn:E; simpl.
    + apply String.eqb_eq in E as ->.
      destruct (String.eqb k k') eqn:E'; [done|]. done.
    + destruct (String.eqb k k') eqn:E'.
      * apply String.eqb_eq in E' as ->.
        rewrite String.eqb_sym in E. by rewrite E.
      * exact IH.
Qed.

Lemma push_nonempty key t m :
  Forall (fun kv : string * list TeeTime => kv.2 <> []) m ->
  Forall (fun kv : string * list TeeTime => kv.2 <> []) (Client.push key t m).
Proof.
  induction 1 as [|[k arr] m Hk Hm IH]; simpl; [constructor|].
  destruct (String.eqb key k).
  - constructor; [simpl; by destruct arr|exact Hm].
  - constructor; [exact Hk|exact IH].
Qed.

Lemma push_concat key t m arr :
  assoc key m = Some arr ->
  concat (map snd (Client.push key t m)) ≡ₚ concat (map snd m) ++ [t].
Proof.
  induction m as [|[k a] m IH]; simpl; [done|].
  rewrite String.eqb_sym.
  destruct (String.eqb k key) eqn:E; simpl.
  - intros _. rewrite <- !app_assoc. apply Permutation_app_head.
    apply Permutation_app_comm.
  - intros H. rewrite (IH H). by rewrite app_assoc.
Qed.

Lemma assoc_snoc {A : Type} k key (x : A) m :
  assoc k (m ++ [(key, x)])
  = match assoc k m with
    | Some a => Some a
    | None => if String.eqb k key then Some x else None
    end.
Proof.
  induction m as [|[k' a] m IH]; simpl; [done|].
  by destruct (String.eqb k k').
Qed.

Lemma assoc_None_not_key {A : Type} k (m : list (string * A)) :
  assoc k m = None -> k ∉ map fst m.
Proof.
  induction m as [|[k' a] m IH]; simpl; [intros _; apply not_elem_of_nil|].
  destruct (String.eqb k k') eqn:E; [done|]. apply String.eqb_neq in E.
  intros H. apply not_elem_of_cons. split; [done|auto].
Qed.

Lemma assoc_NoDup {A : Type} k (a : A) (m : list (string * A)) :
  NoDup (map fst m) -> (k, a) ∈ m -> assoc k m = Some a.
Proof.
  induction m as [|[k' a'] m IH]; simpl; [by intros _ ?%elem_of_nil|].
  intros [Hk Hnd]%NoDup_cons [[= -> ->]|Hin]%elem_of_cons.
  - by rewrite String.eqb_refl.
  - destruct (String.eqb k k') eqn:E; [|auto].
    apply String.eqb_eq in E as ->. exfalso. apply Hk.
    apply list_elem_of_fmap. by exists (k', a).
Qed.

Lemma group_from_spec ts : forall m,
  NoDup (map fst m) ->
  Forall (fun kv : string * list TeeTime => kv.2 <> []) m ->
  Forall (fun t => course t ∉ Object_prototype_keys) ts ->
  exists m', Client.group_from m ts = Ok m'
    /\ NoDup (map fst m')
    /\ Forall (fun kv : string * list TeeTime => kv.2 <> []) m'
    /\ (forall k, default [] (assoc k m')
                  = default [] (assoc k m)
                    ++ List.filter (fun t => String.eqb (course t) k) ts)
    /\ concat (map snd m') ≡ₚ concat (map snd m) ++ ts.
Proof.
  induction ts as [|t ts IH]; intros m Hnd Hne Hts; simpl.
  - exists m. split_and!; try done.
    + intros k. by rewrite app_nil_r.
    + by rewrite app_nil_r.
  - apply Forall_cons in Hts as [Ht Hts]. unfold Client.group_step.
    destruct (assoc (course t) m) as [arr|] eqn:Ha; simpl.
    + destruct (IH (Client.push (course t) t m)) as (m' & -> & Hnd' & Hne' & Has & Hp);
        [by rewrite push_keys|by apply push_nonempty|done|].
      exists m'. split_and!; try done.
      * intros k. rewrite Has, assoc_push. rewrite (String.eqb_sym (course t) k).
        destruct (String.eqb k (course t)) eqn:E.
        -- apply String.eqb_eq in E as ->. rewrite Ha. simpl.
           by rewrite <- app_assoc.
        -- done.
      * rewrite Hp, (push_concat _ _ _ arr Ha), <- app_assoc. done.
    + rewrite bool_decide_false by done. simpl.
      destruct (IH (m ++ [(course t, [t])])) as (m' & -> & Hnd' & Hne' & Has & Hp).
      * rewrite map_app. simpl. apply NoDup_app. split; [done|].
        split; [|apply NoDup_singleton].
        intros x Hx ->%list_elem_of_singleton. by apply assoc_None_not_key in Ha.
      * apply Forall_app. split; [done|]. by repeat constructor.
      * done.
      * exists m'. split_and!; try done.
        -- intros k. rewrite Has, assoc_snoc. rewrite (String.eqb_sym (course t) k).
           destruct (String.eqb k (course t)) eqn:E.
           ++ apply String.eqb_eq in E as ->. rewrite Ha. done.
           ++ destruct (assoc k m); simpl; [done|]. done.
        -- rewrite Hp, map_app, concat_app. simpl. by rewrite <- app_assoc.
Qed.

Lemma group_from_throw ts : forall m,
  Forall (fun kv : string * list TeeTime => kv.1 ∉ Object_prototype_keys) m ->
  Exists (fun t => course t ∈ Object_prototype_keys) ts ->
  exists e, Client.group_from m ts = Throw e.
Proof.
  induction ts as [|t ts IH]; intros m Hm Hex; [by apply Exists_nil in Hex|].
  simpl. unfold Client.group_step.
  destruct (decide (course t ∈ Object_prototype_keys)) as [Hin|Hnin].
  - destruct (assoc (course t) m) as [arr|] eqn:Ha.
    + exfalso. apply assoc_elem_of in Ha. rewrite Forall_forall in Hm.
      by apply (Hm _ Ha).
    + rewrite bool_decide_true by done. by eexists.
  - apply Exists_cons in Hex as [Hex|Hex]; [done|].
    destruct (assoc (course t) m) as [arr|] eqn:Ha; simpl.
    + apply IH; [|done]. apply Forall_forall. intros [k a] Hk.
      assert (k ∈ map fst m) as Hk'.
      { rewrite <- (push_keys (course t) t m). apply list_elem_of_fmap. by exists (k, a). }
      apply list_elem_of_fmap in Hk' as ([k0 a0] & -> & Hk0).
      rewrite Forall_forall in Hm. by apply (Hm _ Hk0).
    + rewrite bool_decide_false by done. simpl. apply IH; [|done].
      apply Forall_app. split; [done|]. by repeat constructor.
Qed.

Lemma filter_bool_complement {A : Type} (f : A -> bool) (l : list A) :
  List.filter f l ++ List.filter (fun x => negb (f x)) l ≡ₚ l.
Proof.
  induction l as [|x l IH]; [done|]. simpl. destruct (f x); simpl.
  - by rewrite IH.
  - rewrite <- Permutation_middle. by rewrite IH.
Qed.

Lemma Object_entries_Permutation m : Client.Object_entries m ≡ₚ m.
Proof.
  unfold Client.Object_entries. rewrite merge_sort_Permutation.
  apply filter_bool_complement.
Qed.

(** X15: the view by course.  Grouping succeeds exactly when no tee time
    carries a course name that is a member of [Object.prototype] (the
    names of the registry are none).  The headings are then distinct; the
    tee times under a heading are those of that course, all of them, in
    the order of the list, and there is at least one; every tee time has
    its heading; and the view shows every tee time exactly once.  In the
    view by time there is no grouping. *)
Theorem grouped_partitions (l : list TeeTime) :
  (Forall (fun t => course t ∉ Object_prototype_keys) l
   <-> exists m, Client.grouped "course" l = Ok (Some m))
  /\ (forall m, Client.grouped "course" l = Ok (Some m) ->
        NoDup (map fst m)
        /\ (forall k ts, (k, ts) ∈ m ->
              ts <> [] /\ ts = List.filter (fun t => String.eqb (course t) k) l)
        /\ (forall t, t ∈ l -> exists ts, (course t, ts) ∈ m)
        /\ concat (map snd (Client.Object_entries m)) ≡ₚ l)
  /\ Client.grouped "time" l = Ok None.
Proof.
  assert (Hok : Forall (fun t => course t ∉ Object_prototype_keys) l ->
    exists m, Client.grouped "course" l = Ok (Some m)
      /\ NoDup (map fst m)
      /\ (forall k ts, (k, ts) ∈ m ->
            ts <> [] /\ ts = List.filter (fun t => String.eqb (course t) k) l)
      /\ (forall t, t ∈ l -> exists ts, (course t, ts) ∈ m)
      /\ concat (map snd (Client.Object_entries m)) ≡ₚ l).
  { intros Hl.
    destruct (group_from_spec l [] (NoDup_nil_2) (Forall_nil_2 _) Hl)
      as (m & Hg & Hnd & Hne & Has & Hp).
    exists m. unfold Client.grouped. simpl. rewrite Hg. simpl.
    split_and!; try done.
    - intros k ts Hin. split.
      + rewrite Forall_forall in Hne. by apply (Hne _ Hin).
      + specialize (Has k). rewrite (assoc_NoDup k ts m Hnd Hin) in Has. done.
    - intros t Hin. specialize (Has (course t)). simpl in Has.
      destruct (assoc (course t) m) as [ts|] eqn:Ha.
      + exists ts. by apply assoc_elem_of.
      + simpl in Has.
        assert (t ∈ List.filter (fun t0 => String.eqb (course t0) (course t)) l) as Ht.
        { apply elem_of_filter_bool. split; [done|]. apply String.eqb_refl. }
        rewrite <- Has in Ht. by apply elem_of_nil in Ht.
    - rewrite (Object_entries_Permutation m). by rewrite Hp. }
  split_and!.
  - split.
    + intros Hl. destruct (Hok Hl) as (m & Hm & _). by exists m.
    + intros [m Hm]. apply Forall_Exists_neg. intros Hex.
      destruct (group_from_throw l [] (Forall_nil_2 _)) as [e He].
      { exact Hex. }
      unfold Client.grouped in Hm. simpl in Hm. by rewrite He in Hm.
  - intros m Hm.
    destruct (decide (Forall (fun t => course t ∉ Object_prototype_keys) l)) as [Hl|Hl].
    + destruct (Hok Hl) as (m' & Hm' & H). rewrite Hm in Hm'. by injection Hm' as <-.
    + exfalso. apply Hl. apply Forall_Exists_neg. intros Hex.
      destruct (group_from_throw l [] (Forall_nil_2 _)) as [e He].
      { exact Hex. }
      unfold Client.grouped in Hm. simpl in Hm. by rewrite He in Hm.
  - done.
Qed.

(** ** The page and the server *)








(** ** Ties in the order of the response *)

Section Stable.
Context {A : Type} (comparefn : A -> A -> Res Z) (tied : A -> bool).
Hypothesis tie : forall x y z,
  tied x = true -> tied y = true -> comparefn x y = Ok z -> 0 <= z.




End Stable.




(** ** What the upstream is asked *)

Lemma fetch_loop_requests key c date players scheds : forall i results w,
  let w' := (fetch_loop key c date players i scheds results w).2 in
  exists new, calls w' = calls w ++ new
    /\ Forall (fun cl =>
         c_req cl = ReqDiscover (courseId c)
         \/ exists sid, c_req cl = ReqTimes date players sid (c_bookingUrl c)) new.
Proof.
  induction scheds as [|sch scheds IH]; intros i results w; simpl.
  - exists []. by rewrite app_nil_r.
  - unfold bind.
    destruct (fetch_schedule_calls key c date players i sch results w)
      as (new1 & Hc1 & _ & _ & Hf). simpl in Hc1.
    assert (Hf1 : Forall (fun cl =>
         c_req cl = ReqDiscover (courseId c)
         \/ exists sid, c_req cl = ReqTimes date players sid (c_bookingUrl c)) new1).
    { eapply Forall_impl; [exact Hf|]. intros cl [H|[_ H]]; [by right|by left]. }
    destruct (fetch_schedule key c date players i sch results w) as [[results'|e] w1];
      simpl in Hc1.
    + destruct (IH (S i) results' w1) as (new2 & Hc2 & Hf2). simpl in Hc2.
      exists (new1 ++ new2). rewrite Hc2, Hc1, <- app_assoc. split; [done|].
      by apply Forall_app.
    + simpl. by exists new1.
Qed.

Lemma assoc_evolves_back new r r' key c' :
  registry_evolves new r r' -> assoc key r' = Some c' ->
  exists c, assoc key r = Some c /\ course_evolves new c c'.
Proof.
  induction 1 as [|[k c0] [k' c0'] r r' [Hk Hc] _ IH]; simpl in *; [done|].
  subst k'. destruct (String.eqb key k); [|done].
  intros [= ->]. by exists c0.
Qed.

Lemma run_all_requests date players keys : forall w0 w,
  world_evolves w0 w ->
  let out := run_all (map (fun key => fetchTeeTimes (Str.trim key) date players) keys) w in
  exists new, calls out.2 = calls w ++ new
    /\ Forall (asked_for (registry w0) keys date players) new.
Proof.
  induction keys as [|key keys IH]; intros w0 w Hw; simpl.
  - exists []. by rewrite app_nil_r.
  - pose proof (fetchTeeTimes_evolves (Str.trim key) date players w) as Hev.
    unfold post in Hev.
    assert (H1 : exists new, calls (fetchTeeTimes (Str.trim key) date players w).2
                             = calls w ++ new
               /\ Forall (asked_for (registry w0) (key :: keys) date players) new).
    { unfold fetchTeeTimes. destruct (get_course (registry w) (Str.trim key)) as [c| |] eqn:E.
      - destruct (fetch_loop_requests (Str.trim key) c date players (schedules c) 0 [] w)
          as (new & Hc & Hf). exists new. split; [done|].
        apply assoc_get_course in E.
        destruct Hw as (new0 & _ & _ & _ & _ & Hreg).
        destruct (assoc_evolves_back _ _ _ _ _ Hreg E) as (c0 & Hc0 & (_ & Hid & Hurl & _)).
        eapply Forall_impl; [exact Hf|]. intros cl Hcl.
        exists key, c0. split; [apply list_elem_of_here|]. split; [done|].
        by rewrite <- Hid, <- Hurl.
      - exists []. by rewrite app_nil_r.
      - exists []. by rewrite app_nil_r. }
    destruct H1 as (new1 & Hc1 & Hf1).
    destruct (fetchTeeTimes (Str.trim key) date players w) as [r w1]. simpl in *.
    destruct (IH w0 w1) as (new2 & Hc2 & Hf2).
    { by eapply world_evolves_trans. }
    simpl in Hc2. destruct (run_all _ w1) as [rs w2]. simpl in *.
    exists (new1 ++ new2). rewrite Hc2, Hc1, <- app_assoc. split; [done|].
    apply Forall_app. split; [done|].
    eapply Forall_impl; [exact Hf2|].
    intros cl (k & c & Hk & Hc & Hcl). exists k, c.
    split; [by apply list_elem_of_further|done].
Qed.

Lemma gather_requests date players keys w :
  exists new, calls (gather date players keys w).2 = calls w ++ new
    /\ Forall (asked_for (registry w) keys date players) new.
Proof.
  unfold gather, bind, Promise_all, ret.
  destruct (run_all_requests date players keys w w (world_evolves_refl w))
    as (new & Hc & Hf). simpl in Hc.
  destruct (run_all _ w) as [rs w1]. simpl in Hc.
  exists new. split; [|done]. by destruct (settle rs).
Qed.

(** X18: the upstream is asked only what the request asks.  Every call
    made while a request is handled is the discovery call of the facility
    of a course registered under one of the listed keys, or a times call
    for the date of the request and its player count, with the booking
    page of such a course as [Referer]: no other date, player count or
    facility is asked for, and a request without a date or with a
    [courses] that is not a text makes no call. *)
Theorem upstream_asked_as_requested (q : Query) (w : World) :
  exists new, calls (handler q w).2 = calls w ++ new
    /\ match q_date q, courseKeys (q_courses q) (registry w) with
       | Some date, Ok keys =>
           Forall (asked_for (registry w) keys date (parse_players (q_players q))) new
       | _, _ => new = []
       end.
Proof.
  unfold handler. destruct (q_date q) as [date|] eqn:Hd.
  - destruct (q_truthy (Some date)).
    + destruct (courseKeys (q_courses q) (registry w)) as [keys|e].
      * unfold aggregate, bind.
        destruct (gather_requests date (parse_players (q_players q)) keys w)
          as (new & Hc & Hf).
        destruct (gather date (parse_players (q_players q)) keys w)
          as [[allTimes|e] w1]; simpl in Hc; exists new; (split; [|done]); [|done].
        unfold lift, ret.
        by destruct (ArraySort.sort _ _).
      * exists []. by rewrite app_nil_r.
    + exists []. rewrite app_nil_r. split; [done|].
      destruct (courseKeys _ _); [constructor|done].
  - exists []. by rewrite app_nil_r.
Qed.

(** ** The slots of a reply *)

Lemma normalize_slot c key sch slot :
  slot <> JNull ->
  exists r, normalize c key sch slot = Ok r
    /\ slot_field slot "time" = Ok (time r)
    /\ slot_field slot "available_spots" = Ok (available_spots r)
    /\ slot_field slot "green_fee" = Ok (green_fee r)
    /\ slot_field slot "cart_fee" = Ok (cart_fee r)
    /\ slot_field slot "holes" = Ok (holes r)
    /\ (exists p, slot_field slot "players" = Ok p
          /\ players r = if truthy p then p else Some (JArr []))
    /\ truthy (players r) = true.
Proof.
  intros Hn. unfold normalize.
  destruct slot as [| | | | |fields]; try done; simpl; eexists;
    (split; [reflexivity|]); simpl; split_and!; try done;
    try (eexists; split; [reflexivity|reflexivity]).
  by destruct (truthy (assoc "players" fields)) eqn:E.
Qed.

Lemma mapM_normalize c key sch slots :
  (JNull ∈ slots -> exists e, res_mapM (normalize c key sch) slots = Throw e)
  /\ (~ (JNull ∈ slots) ->
      exists recs, res_mapM (normalize c key sch) slots = Ok recs
        /\ Forall2 (fun slot r => normalize c key sch slot = Ok r) slots recs).
Proof.
  induction slots as [|slot slots [IH1 IH2]]; simpl.
  - split; [by intros ?%elem_of_nil|]. intros _. by exists [].
  - split.
    + intros [<-|Hin]%elem_of_cons; [by eexists|].
      destruct (normalize c key sch slot) as [r|e]; simpl; [|by eexists].
      destruct (IH1 Hin) as (e & ->). by eexists.
    + intros Hn.
      assert (Hs : slot <> JNull).
      { intros ->. apply Hn, list_elem_of_here. }
      destruct (normalize_slot c key sch slot Hs) as (r & Hr & _).
      destruct IH2 as (recs & Hrecs & Hall).
      { intros Hin. by apply Hn, list_elem_of_further. }
      rewrite Hr, Hrecs. simpl. exists (r :: recs). split; [done|].
      by constructor.
Qed.

(** X19: the slots of a reply are taken all or not at all.  A reply that
    is an array without a [null] entry contributes one record per entry,
    in the order of the array: the record copies [time],
    [available_spots], [green_fee], [cart_fee] and [holes] of the entry
    (absent when the entry is not an object or has no such field), and its
    [players] is that of the entry, or an empty array when that is absent
    or falsy.  A single [null] entry makes the mapping throw, and the
    schedule then contributes nothing; so does a reply that is not an
    array, and a failed call. *)
Theorem slots_all_or_nothing c key sch (reply : HttpResult) :
  let recs := contribution c key sch reply in
  match reply with
  | HttpOk (JArr slots) =>
      (JNull ∈ slots -> recs = [])
      /\ (~ (JNull ∈ slots) ->
          length recs = length slots
          /\ forall i slot r, slots !! i = Some slot -> recs !! i = Some r ->
               course r = name c /\ courseKey r = key
               /\ slot_field slot "time" = Ok (time r)
               /\ slot_field slot "available_spots" = Ok (available_spots r)
               /\ slot_field slot "green_fee" = Ok (green_fee r)
               /\ slot_field slot "cart_fee" = Ok (cart_fee r)
               /\ slot_field slot "holes" = Ok (holes r)
               /\ (exists p, slot_field slot "players" = Ok p
                     /\ players r = if truthy p then p else Some (JArr []))
               /\ truthy (players r) = true)
  | _ => recs = []
  end.
Proof.
  simpl. destruct reply as [data|msg]; [|done].
  unfold contribution, normalize_all.
  destruct data as [| | | |slots|]; try done.
  destruct (mapM_normalize c key sch slots) as [H1 H2]. split.
  - intros Hin. by destruct (H1 Hin) as (e & ->).
  - intros Hn. destruct (H2 Hn) as (recs & -> & Hall). split.
    + symmetry. by eapply Forall2_length.
    + intros i slot r Hi Hr.
      assert (Hnorm : normalize c key sch slot = Ok r).
      { destruct (Forall2_lookup_l _ _ _ _ _ Hall Hi) as (r' & Hr' & Hnorm).
        congruence. }
      assert (Hs : slot <> JNull).
      { intros ->. apply Hn. by eapply list_elem_of_lookup_2. }
      destruct (normalize_slot c key sch slot Hs) as (r' & Hr' & Hf).
      assert (r' = r) as -> by congruence.
      split; [|split; [|exact Hf]].
      * unfold normalize in Hnorm. destruct slot; try done; by injection Hnorm as <-.
      * unfold normalize in Hnorm. destruct slot; try done; by injection Hnorm as <-.
Qed.
